(** * object-diff: a shallow embedding of the recursive comparison engine

    The development follows the TypeScript sources
    [src/index.ts] ([diff], [internalDiff], [compareObjects]),
    [src/utils/comparison.ts] ([shouldIgnoreProperty], [comparePrimitives],
    [compareArrays], [getNestedValue], [isPlainObject]) and
    [src/utils/coercion.ts] ([coerceValues], [canCoerceToNumber],
    [canCoerceToBoolean], [canCoerceToDate]).

    Modelling conventions.
    - JavaScript numbers are IEEE-754 binary64 values, represented by the
      standard library's [spec_float]; [===] on numbers is [SFeqb] (so
      [NaN] differs from itself and [+0] equals [-0]).
    - Arrays, plain objects, dates and the other object kinds carry the
      reference ([ref]) that identifies them: [===] on objects compares
      references, never contents.
    - A plain object is the list of its own enumerable properties in
      [Object.keys] order, and its prototype is [Object.prototype]:
      [key in obj] and [obj[key]] find an own property first and an
      inherited one ([toString], [constructor], [__proto__], ...) next.
      What [Object.prototype] provides is a field of the host
      ([Inherited]); the inherited methods are function values.
    - A result map is the list of its entries in insertion order. Under the
      key [__proto__] an assignment to a result map sets the prototype of
      the map instead of creating a property (the comparison only ever
      assigns objects there): the entry stays in the list, where a later
      read finds it, and [Object.keys] passes over it ([own_entries]).
    - Strings are sequences of 8-bit code units.
    - The built-ins whose results depend on the host ([Number(string)],
      [String(number)] and [String(function)] used by the default [sort],
      [Date] parsing, the properties of [Object.prototype] and the members
      of the objects that are not plain) are the fields of the class
      [Runtime]; general theorems hold for every runtime.
    - A thrown [TypeError] or an exhausted call stack is the result [None];
      the recursion of [internalDiff] is unrolled over the height of the
      call stack ([fuel]), and [diff] runs it on a stack that is high enough
      for its second argument, into which every recursive call descends.

    The file has the embedding first (the engine on values, the example
    host, and the engine once more on an explicit store, which shows where
    it writes), then the vocabulary of the statements and the example data,
    then the proofs, the repository's test suite replayed on the model, and
    last further properties of the primitives, of the ignore patterns and of
    the results of [diff]. *)

From Stdlib Require Import ZArith Bool List Ascii String Lia Permutation Sorted.
From Stdlib Require Import Floats.SpecFloat.
From stdpp Require Import base option list strings pretty.

Local Open Scope string_scope.
Local Open Scope Z_scope.
Local Set Warnings "-register-all".

(** ** Numbers *)

Definition number : Type := spec_float.

Definition NaN : number := S754_nan.

(** [a === b] on two numbers. *)
Definition num_eq (a b : number) : bool := SFeqb a b.

(** The global [isNaN] on a number. *)
Definition isNaN (n : number) : bool :=
  match n with S754_nan => true | _ => false end.

(** The binary64 value of an integer literal. *)
Definition num (z : Z) : number := binary_normalize 53 1024 z 0 false.

(** ** Values *)

(** The other object kinds: those that [isPlainObject] singles out besides
    [Date], and functions (the values of the methods that every object
    inherits). *)
Inductive exotic : Type := RegExpObj | MapObj | SetObj | FunctionObj.

Inductive value : Type :=
| VUndefined
| VNull
| VBool (b : bool)
| VNum (n : number)
| VStr (s : string)
| VArr (ref : nat) (items : list value)
| VObj (ref : nat) (fields : list (string * value))
| VDate (ref : nat) (time : number)
| VExotic (ref : nat) (kind : exotic).

(** The results of [typeof]. *)
Inductive jstype : Type :=
  TUndefined | TObject | TBoolean | TNumber | TString | TFunction.

Definition typeof (v : value) : jstype :=
  match v with
  | VUndefined => TUndefined
  | VBool _ => TBoolean
  | VNum _ => TNumber
  | VStr _ => TString
  | VExotic _ FunctionObj => TFunction
  | VNull | VArr _ _ | VObj _ _ | VDate _ _ | VExotic _ _ => TObject
  end.

Definition jstype_eqb (s t : jstype) : bool :=
  match s, t with
  | TUndefined, TUndefined | TObject, TObject | TBoolean, TBoolean
  | TNumber, TNumber | TString, TString | TFunction, TFunction => true
  | _, _ => false
  end.

(** [v == null]: true for [null] and [undefined]. *)
Definition is_nullish (v : value) : bool :=
  match v with VUndefined | VNull => true | _ => false end.

Definition isArray (v : value) : bool :=
  match v with VArr _ _ => true | _ => false end.

Definition ref_of (v : value) : option nat :=
  match v with
  | VArr r _ | VObj r _ | VDate r _ | VExotic r _ => Some r
  | _ => None
  end.

(** [a === b]. *)
Definition strict_eq (a b : value) : bool :=
  match a, b with
  | VUndefined, VUndefined => true
  | VNull, VNull => true
  | VBool x, VBool y => Bool.eqb x y
  | VNum x, VNum y => num_eq x y
  | VStr x, VStr y => String.eqb x y
  | _, _ =>
      match ref_of a, ref_of b with
      | Some r1, Some r2 => Nat.eqb r1 r2
      | _, _ => false
      end
  end.

(** [isPlainObject] of comparison.ts. *)
Definition isPlainObject (v : value) : bool :=
  match v with
  | VObj _ _ => true
  | _ => false
  end.

(** ** The host: conversions and prototypes *)

Class Runtime : Type := {
  (** [Number(s)] for a string [s] *)
  StringToNumber : string -> number;
  (** [String(n)] for a number [n], the key of the default [sort] *)
  NumberToString : number -> string;
  (** [new Date(s).getTime()], [NaN] when [s] is no date *)
  DateParse : string -> number;
  (** [String(f)] for the function with reference [f], its key in the
      default [sort] *)
  FunctionToString : nat -> string;
  (** what a plain object inherits: [Inherited key] is the value that
      [obj[key]] finds on [Object.prototype] when [key] is no own property
      of [obj], and [None] when [Object.prototype] has no such property *)
  Inherited : string -> option value;
  (** [receiver[key]] for a property of an array, a date or another object
      that the model does not carry: one found on the prototype chain, or an
      own property of a date, a regular expression, a map, a set or a
      function; [undefined] when there is none *)
  HostMember : value -> string -> value
}.

(** ** Strings *)

Definition lower_ascii (c : ascii) : ascii :=
  let n := nat_of_ascii c in
  if (Nat.leb 65 n && Nat.leb n 90)%bool then ascii_of_nat (n + 32) else c.

Fixpoint toLowerCase (s : string) : string :=
  match s with
  | EmptyString => EmptyString
  | String c s' => String (lower_ascii c) (toLowerCase s')
  end.

(** [s.includes(c)] for a one-character needle. *)
Fixpoint includes (s : string) (c : ascii) : bool :=
  match s with
  | EmptyString => false
  | String d s' => Ascii.eqb d c || includes s' c
  end.

(** [s.startsWith(p)]. *)
Definition startsWith (s p : string) : bool := String.prefix p s.

(** [segments.join('.')]. *)
Definition join_dot (segments : list string) : string := String.concat "." segments.

(** ** coercion.ts *)

Section Engine.
Context {RT : Runtime}.

(** The first coercion rule that returns decides; [None] is a rule whose
    guard failed, so that control falls through to the next [if]. *)
Fixpoint first_return (rules : list (option bool)) (otherwise : bool) : bool :=
  match rules with
  | [] => otherwise
  | Some r :: _ => r
  | None :: rest => first_return rest otherwise
  end.

Definition bool_num (b : bool) : number := if b then num 1 else num 0.

(** [coerceValues(valueA, valueB).areEqual]; the coerced representations
    returned next to it are not read by any caller. *)
Definition coerceValues (valueA valueB : value) : bool :=
  if is_nullish valueA && is_nullish valueB then true
  else if is_nullish valueA || is_nullish valueB then false
  else if jstype_eqb (typeof valueA) (typeof valueB) then strict_eq valueA valueB
  else first_return
    [ (* number vs string *)
      match valueA, valueB with
      | VNum a, VStr b =>
          let coercedB := StringToNumber b in
          if negb (isNaN coercedB) then Some (num_eq a coercedB) else None
      | _, _ => None
      end;
      match valueA, valueB with
      | VStr a, VNum b =>
          let coercedA := StringToNumber a in
          if negb (isNaN coercedA) then Some (num_eq coercedA b) else None
      | _, _ => None
      end;
      (* boolean vs string *)
      match valueA, valueB with
      | VBool a, VStr b =>
          let coercedB := toLowerCase b in
          if String.eqb coercedB "true" || String.eqb coercedB "false"
          then Some (Bool.eqb a (String.eqb coercedB "true")) else None
      | _, _ => None
      end;
      match valueA, valueB with
      | VStr a, VBool b =>
          let coercedA := toLowerCase a in
          if String.eqb coercedA "true" || String.eqb coercedA "false"
          then Some (Bool.eqb (String.eqb coercedA "true") b) else None
      | _, _ => None
      end;
      (* Date vs string *)
      match valueA, valueB with
      | VDate _ ta, VStr b =>
          let coercedB := DateParse b in
          if negb (isNaN coercedB) then Some (num_eq ta coercedB) else None
      | _, _ => None
      end;
      match valueA, valueB with
      | VStr a, VDate _ tb =>
          let coercedA := DateParse a in
          if negb (isNaN coercedA) then Some (num_eq coercedA tb) else None
      | _, _ => None
      end;
      (* number vs boolean *)
      match valueA, valueB with
      | VNum a, VBool b => Some (num_eq a (bool_num b))
      | _, _ => None
      end;
      match valueA, valueB with
      | VBool a, VNum b => Some (num_eq (bool_num a) b)
      | _, _ => None
      end ]
    false.

(** ** comparison.ts *)

(** The compiled form of the regular expression that
    [shouldIgnoreProperty] builds from a wildcard pattern: every character
    other than [*] is matched literally (the metacharacters are escaped by
    the first [replace]), every [*] has become [.*]. *)
Inductive re_atom : Type := Lit (c : ascii) | DotStar.

Fixpoint wildcard_regex (ignorePath : string) : list re_atom :=
  match ignorePath with
  | EmptyString => []
  | String c rest =>
      (if Ascii.eqb c "*" then DotStar else Lit c) :: wildcard_regex rest
  end.

(** [.] matches every code unit but the line terminators. *)
Definition line_terminator (c : ascii) : bool :=
  Ascii.eqb c "010" || Ascii.eqb c "013".

(** [new RegExp('^' + ... + '$').test(s)]. *)
Fixpoint regex_test (re : list re_atom) (s : string) : bool :=
  match re with
  | [] => match s with EmptyString => true | _ => false end
  | Lit c :: re' =>
      match s with
      | String d s' => Ascii.eqb c d && regex_test re' s'
      | EmptyString => false
      end
  | DotStar :: re' =>
      (fix star (s : string) : bool :=
         regex_test re' s ||
         match s with
         | String d s' => negb (line_terminator d) && star s'
         | EmptyString => false
         end) s
  end.

Definition shouldIgnoreProperty (propertyPath : string)
    (ignoreProperties : list string) : bool :=
  if Nat.eqb (length ignoreProperties) 0 then false
  else
    existsb (fun ignorePath =>
      if String.eqb ignorePath propertyPath then true
      else if includes ignorePath "*" then
        regex_test (wildcard_regex ignorePath) propertyPath
      else if includes ignorePath "." then
        startsWith propertyPath (ignorePath ++ ".")
      else String.eqb propertyPath ignorePath) ignoreProperties.

Definition comparePrimitives (valueA valueB : value)
    (enableTypeCoercion : bool) : bool :=
  if strict_eq valueA valueB then true
  else if negb enableTypeCoercion then false
  else coerceValues valueA valueB.

(** *** Property maps

    JavaScript objects used as maps, in insertion order. *)

Fixpoint obj_get {A : Type} (key : string) (m : list (string * A)) : option A :=
  match m with
  | [] => None
  | (k, v) :: m' => if String.eqb k key then Some v else obj_get key m'
  end.

(** [key] is an own property of [m]. *)
Definition own_key {A : Type} (key : string) (m : list (string * A)) : bool :=
  match obj_get key m with Some _ => true | None => false end.

(** [key in obj] for a plain object: an own property, or one inherited from
    [Object.prototype]. *)
Definition has_key (key : string) (obj : list (string * value)) : bool :=
  own_key key obj || match Inherited key with Some _ => true | None => false end.

(** [m[key] = v]. *)
Fixpoint obj_set {A : Type} (key : string) (v : A) (m : list (string * A))
    : list (string * A) :=
  match m with
  | [] => [(key, v)]
  | (k, w) :: m' =>
      if String.eqb k key then (k, v) :: m' else (k, w) :: obj_set key v m'
  end.

(** [Object.keys(m)]. *)
Definition keys {A : Type} (m : list (string * A)) : list string := map fst m.

(** [obj[key]] on a plain object: the own property, else the inherited
    one, else [undefined]. *)
Definition prop (obj : list (string * value)) (key : string) : value :=
  match obj_get key obj with
  | Some v => v
  | None => match Inherited key with Some v => v | None => VUndefined end
  end.

(** *** types.ts *)

(** [Required<DiffOptions>]. [maxDepth] is an integer: in the test
    [depth < maxDepth] a fractional bound behaves as its ceiling and [NaN]
    as [0]. *)
Record Options : Type := {
  ignoreProperties : list string;
  enableTypeCoercion : bool;
  arrayOrderMatters : bool;
  maxDepth : Z
}.

(** [DiffOptions]: every field may be left out. *)
Record DiffOptions : Type := {
  given_ignoreProperties : option (list string);
  given_enableTypeCoercion : option bool;
  given_arrayOrderMatters : option bool;
  given_maxDepth : option Z
}.

Record ComparisonContext : Type := {
  path : list string;
  depth : nat;
  options : Options
}.

(** What a result map holds under a key (or is, at the top level): an input
    value carried over whole, a [{from, to}] pair, or a map built by the
    field-wise comparison. *)
Inductive dval : Type :=
| DVal (v : value)
| DFromTo (from to : value)
| DMap (entries : list (string * dval)).

Record DiffResult : Type := {
  additions : dval;
  deletions : dval;
  updates : dval
}.

(** On a host whose [Object.prototype] has the accessor [__proto__], the
    assignment [m["__proto__"] = v] of an object [v] to a map [m] makes [v]
    the prototype of [m] and creates no own property; [m["__proto__"]] reads
    [v] afterwards. The entry that [obj_set] makes under this key stands for
    that link. *)
Definition proto_link (key : string) : bool :=
  String.eqb key "__proto__"
  && match Inherited key with Some _ => true | None => false end.

(** The own properties of a map that the comparison built. *)
Definition own_entries (entries : list (string * dval)) : list (string * dval) :=
  List.filter (fun kv => negb (proto_link (fst kv))) entries.

(** [Object.keys(d).length > 0]; [Object.keys] throws on [null] and
    [undefined]. *)
Definition has_keys (d : dval) : option bool :=
  match d with
  | DMap entries => Some (Nat.ltb 0 (length (own_entries entries)))
  | DFromTo _ _ => Some true
  | DVal v =>
      match v with
      | VUndefined | VNull => None
      | VStr s => Some (Nat.ltb 0 (String.length s))
      | VArr _ items => Some (Nat.ltb 0 (length items))
      | VObj _ fields => Some (Nat.ltb 0 (length fields))
      | VBool _ | VNum _ | VDate _ _ | VExotic _ _ => Some false
      end
  end.

(** *** compareArrays *)

(** [typeof item !== 'object' || item === null]. *)
Definition is_primitive (item : value) : bool :=
  negb (jstype_eqb (typeof item) TObject) || strict_eq item VNull.

(** The string by which the default [sort] orders an element. The sort is
    only applied to arrays that passed the [every(is_primitive)] test. *)
Definition sort_key (v : value) : string :=
  match v with
  | VNull => "null"
  | VBool true => "true"
  | VBool false => "false"
  | VNum n => NumberToString n
  | VStr s => s
  | VExotic f FunctionObj => FunctionToString f
  | _ => ""
  end.

Fixpoint sort_insert (x : value) (sorted : list value) : list value :=
  match sorted with
  | [] => [x]
  | y :: rest =>
      if String.leb (sort_key x) (sort_key y) then x :: sorted
      else y :: sort_insert x rest
  end.

Definition is_undefined (v : value) : bool :=
  match v with VUndefined => true | _ => false end.

(** [[...array].sort()]: a stable sort by [sort_key] in code-unit order,
    [undefined] elements last. *)
Definition default_sort (array : list value) : list value :=
  foldr sort_insert [] (List.filter (fun v => negb (is_undefined v)) array)
  ++ List.filter is_undefined array.

(** [typeof item !== 'object' || item === null || Array.isArray(item)]. *)
Definition non_object (item : value) : bool :=
  negb (jstype_eqb (typeof item) TObject) || strict_eq item VNull || isArray item.

(** [typeof item === 'object' && item !== null && !Array.isArray(item)]. *)
Definition is_object (item : value) : bool :=
  jstype_eqb (typeof item) TObject && negb (strict_eq item VNull)
  && negb (isArray item).

Definition depth_left (context : ComparisonContext) : bool :=
  Z.of_nat (depth context) <? maxDepth (options context).

Definition descend (context : ComparisonContext) (segment : string)
    : ComparisonContext :=
  {| path := path context ++ [segment];
     depth := S (depth context);
     options := options context |}.

Definition extend_path (context : ComparisonContext) (segment : string)
    : ComparisonContext :=
  {| path := path context ++ [segment];
     depth := depth context;
     options := options context |}.

Section Recursion.
(** The recursive reference to [internalDiff]. *)
Variable internalDiff :
  value -> value -> ComparisonContext -> option DiffResult.

(** The loop "compare elements in order" from index [i] on. *)
Fixpoint compare_in_order (context : ComparisonContext) (i : nat)
    (items : list (value * value)) : option bool :=
  match items with
  | [] => Some true
  | (itemA, itemB) :: rest =>
      if non_object itemA && non_object itemB then
        if negb (comparePrimitives itemA itemB
                   (enableTypeCoercion (options context)))
        then Some false
        else compare_in_order context (S i) rest
      else if is_object itemA && is_object itemB && depth_left context then
        diffResult ← internalDiff itemA itemB
                       (descend context (pretty (N.of_nat i)));
        a ← has_keys (additions diffResult);
        if a : bool then Some false else
        d ← has_keys (deletions diffResult);
        if d : bool then Some false else
        u ← has_keys (updates diffResult);
        if u : bool then Some false else
        compare_in_order context (S i) rest
      else Some false
  end.

Definition compareArrays (arrayA arrayB : list value)
    (context : ComparisonContext) : option bool :=
  if negb (Nat.eqb (length arrayA) (length arrayB)) then Some false
  else if Nat.eqb (length arrayA) 0 then Some true
  else if negb (arrayOrderMatters (options context))
          && (forallb is_primitive arrayA && forallb is_primitive arrayB)
  then
    let sortedA := default_sort arrayA in
    let sortedB := default_sort arrayB in
    Some (forallb (fun '(a, b) =>
                     comparePrimitives a b (enableTypeCoercion (options context)))
                  (combine sortedA sortedB))
  else compare_in_order context 0 (combine arrayA arrayB).

(** *** index.ts *)

Definition empty_result : DiffResult :=
  {| additions := DMap []; deletions := DMap []; updates := DMap [] |}.

Definition currentPath (context : ComparisonContext) (key : string) : string :=
  if Nat.ltb 0 (length (path context))
  then join_dot (path context) ++ "." ++ key
  else key.

Definition ignored (context : ComparisonContext) (key : string) : bool :=
  shouldIgnoreProperty (currentPath context key)
                       (ignoreProperties (options context)).

(** The three maps under construction in [compareObjects]. *)
Record maps : Type := {
  m_additions : list (string * dval);
  m_deletions : list (string * dval);
  m_updates : list (string * dval)
}.

(** One turn of the loop over [keysA]. *)
Definition deletion_step (objA objB : list (string * value))
    (context : ComparisonContext) (result : maps) (key : string) : maps :=
  if ignored context key then result
  else if negb (has_key key objB) then
    {| m_additions := m_additions result;
       m_deletions := obj_set key (DVal (prop objA key)) (m_deletions result);
       m_updates := m_updates result |}
  else result.

(** One turn of the loop over [keysB]. *)
Definition update_step (objA objB : list (string * value))
    (context : ComparisonContext) (result : maps) (key : string)
    : option maps :=
  if ignored context key then Some result
  else if negb (has_key key objA) then
    Some {| m_additions := obj_set key (DVal (prop objB key)) (m_additions result);
            m_deletions := m_deletions result;
            m_updates := m_updates result |}
  else
    let valueA := prop objA key in
    let valueB := prop objB key in
    if depth_left context && isPlainObject valueA && isPlainObject valueB then
      nestedResult ← internalDiff valueA valueB (descend context key);
      a ← has_keys (additions nestedResult);
      let r1 := if a : bool
                then obj_set key (additions nestedResult) (m_additions result)
                else m_additions result in
      d ← has_keys (deletions nestedResult);
      let r2 := if d : bool
                then obj_set key (deletions nestedResult) (m_deletions result)
                else m_deletions result in
      u ← has_keys (updates nestedResult);
      let r3 := if u : bool
                then obj_set key (updates nestedResult) (m_updates result)
                else m_updates result in
      Some {| m_additions := r1; m_deletions := r2; m_updates := r3 |}
    else
      match valueA, valueB with
      | VArr _ itemsA, VArr _ itemsB =>
          equal ← compareArrays itemsA itemsB (extend_path context key);
          Some (if negb equal
                then {| m_additions := m_additions result;
                        m_deletions := m_deletions result;
                        m_updates := obj_set key (DFromTo valueA valueB)
                                             (m_updates result) |}
                else result)
      | _, _ =>
          Some (if negb (comparePrimitives valueA valueB
                           (enableTypeCoercion (options context)))
                then {| m_additions := m_additions result;
                        m_deletions := m_deletions result;
                        m_updates := obj_set key (DFromTo valueA valueB)
                                             (m_updates result) |}
                else result)
      end.

(** A [for ... of] loop whose body may throw. *)
Fixpoint for_of {S K : Type} (body : S -> K -> option S) (ks : list K) (s : S)
    : option S :=
  match ks with
  | [] => Some s
  | k :: rest => s' ← body s k; for_of body rest s'
  end.

Definition compareObjects (objA objB : list (string * value))
    (context : ComparisonContext) : option DiffResult :=
  let keysA := keys objA in
  let keysB := keys objB in
  let result :=
    fold_left (deletion_step objA objB context) keysA
              {| m_additions := []; m_deletions := []; m_updates := [] |} in
  result ← for_of (update_step objA objB context) keysB result;
  Some {| additions := DMap (m_additions result);
          deletions := DMap (m_deletions result);
          updates := DMap (m_updates result) |}.

(** The body of [internalDiff]. *)
Definition internalDiff_body (objA objB : value) (context : ComparisonContext)
    : option DiffResult :=
  let result := empty_result in
  if is_nullish objA && is_nullish objB then Some result
  else if is_nullish objA then
    Some {| additions := DVal objB; deletions := deletions result;
            updates := updates result |}
  else if is_nullish objB then
    Some {| additions := additions result; deletions := DVal objA;
            updates := updates result |}
  else if negb (jstype_eqb (typeof objA) (typeof objB)) then
    if enableTypeCoercion (options context) then
      Some {| additions := additions result; deletions := deletions result;
              updates := DFromTo objA objB |}
    else
      Some {| additions := additions result; deletions := deletions result;
              updates := DFromTo objA objB |}
  else
    match objA, objB with
    | VArr _ itemsA, VArr _ itemsB =>
        equal ← compareArrays itemsA itemsB context;
        Some (if negb equal
              then {| additions := additions result;
                      deletions := deletions result;
                      updates := DFromTo objA objB |}
              else result)
    | VObj _ fieldsA, VObj _ fieldsB => compareObjects fieldsA fieldsB context
    | _, _ =>
        Some (if negb (comparePrimitives objA objB
                         (enableTypeCoercion (options context)))
              then {| additions := additions result;
                      deletions := deletions result;
                      updates := DFromTo objA objB |}
              else result)
    end.

End Recursion.

(** [internalDiff], the recursion unrolled [fuel] times: the model of a call
    stack of that height. *)
Fixpoint internalDiff (fuel : nat) (objA objB : value)
    (context : ComparisonContext) : option DiffResult :=
  match fuel with
  | O => None
  | S fuel' => internalDiff_body (internalDiff fuel') objA objB context
  end.

Definition DEFAULT_OPTIONS : Options :=
  {| ignoreProperties := [];
     enableTypeCoercion := true;
     arrayOrderMatters := true;
     maxDepth := 10 |}.

(** [{...DEFAULT_OPTIONS, ...options}]. *)
Definition merge_options (given : DiffOptions) : Options :=
  {| ignoreProperties :=
       default (ignoreProperties DEFAULT_OPTIONS) (given_ignoreProperties given);
     enableTypeCoercion :=
       default (enableTypeCoercion DEFAULT_OPTIONS) (given_enableTypeCoercion given);
     arrayOrderMatters :=
       default (arrayOrderMatters DEFAULT_OPTIONS) (given_arrayOrderMatters given);
     maxDepth := default (maxDepth DEFAULT_OPTIONS) (given_maxDepth given) |}.

(** The nesting height of a value: the number of array and object levels. *)
Fixpoint height (v : value) : nat :=
  match v with
  | VArr _ items => S (foldr (fun x h => Nat.max (height x) h) O items)
  | VObj _ fields => S (foldr (fun kv h => Nat.max (height (snd kv)) h) O fields)
  | _ => O
  end.

(** [diff]. Every recursive call of [internalDiff] goes one level down into
    [objectB] (on the side of [objectA] it may go to an inherited property),
    so a stack of [S (height objectB)] frames is never exhausted
    ([internalDiff_fuel_enough], [internalDiff_more_fuel]). *)
Definition diff (objectA objectB : value) (given : DiffOptions)
    : option DiffResult :=
  let mergedOptions := merge_options given in
  let context := {| path := []; depth := O; options := mergedOptions |} in
  internalDiff (S (height objectB)) objectA objectB context.

(** The context a top-level call starts from. *)
Definition initial_context (given : DiffOptions) : ComparisonContext :=
  {| path := []; depth := O; options := merge_options given |}.

(** [diff(a, b)] and [diff(a, b, {})]. *)
Definition no_options : DiffOptions :=
  {| given_ignoreProperties := None; given_enableTypeCoercion := None;
     given_arrayOrderMatters := None; given_maxDepth := None |}.

End Engine.

(** ** A host for closed examples

    [decimal_host] agrees with ECMAScript on what the examples use: integer
    numerals (optionally signed, surrounded by blanks) and [Infinity] are
    parsed, integers below [10^21] in absolute value, [NaN] and the
    infinities are printed. Numerals with a fraction, an exponent or a radix
    prefix, numbers outside the printed range and date strings are not
    covered: such strings count as unparseable, such numbers print as the
    empty string. A plain object inherits the properties of the standard
    [Object.prototype]: eleven methods and the accessor [__proto__], which
    reads [Object.prototype] itself. The source text of a function and the
    inherited members of arrays, dates and other objects are not covered
    (the empty string, [undefined]). *)
Module Host.

Definition is_blank (c : ascii) : bool :=
  Ascii.eqb c " " || Ascii.eqb c "009" || Ascii.eqb c "010"
  || Ascii.eqb c "011" || Ascii.eqb c "012" || Ascii.eqb c "013".

Fixpoint trim_start (s : string) : string :=
  match s with
  | String c s' => if is_blank c then trim_start s' else s
  | EmptyString => EmptyString
  end.

Definition trim (s : string) : string :=
  String.rev (trim_start (String.rev (trim_start s))).

Definition digit (c : ascii) : option Z :=
  let n := nat_of_ascii c in
  if (Nat.leb 48 n && Nat.leb n 57)%bool then Some (Z.of_nat n - 48) else None.

Fixpoint digits (acc : Z) (s : string) : option Z :=
  match s with
  | EmptyString => Some acc
  | String c s' =>
      match digit c with
      | Some d => digits (10 * acc + d) s'
      | None => None
      end
  end.

Definition unsigned_literal (negative : bool) (s : string) : number :=
  if String.eqb s "Infinity" then S754_infinity negative
  else match s with
       | EmptyString => NaN
       | _ => match digits 0 s with
              | Some z => binary_normalize 53 1024
                            (if negative then - z else z) 0 negative
              | None => NaN
              end
       end.

Definition parse_number (s : string) : number :=
  match trim s with
  | EmptyString => S754_zero false
  | String "+" rest => unsigned_literal false rest
  | String "-" rest => unsigned_literal true rest
  | t => unsigned_literal false t
  end.

(** The integer a finite binary64 value stands for, if it is one. *)
Definition integer_of (n : number) : option Z :=
  match n with
  | S754_zero _ => Some 0
  | S754_finite s m e =>
      let z := if s then Z.neg m else Z.pos m in
      if 0 <=? e then Some (z * 2 ^ e)
      else if Z.pos m mod 2 ^ (- e) =? 0 then Some (z / 2 ^ (- e))
      else None
  | _ => None
  end.

Definition print_number (n : number) : string :=
  match n with
  | S754_nan => "NaN"
  | S754_infinity false => "Infinity"
  | S754_infinity true => "-Infinity"
  | _ => match integer_of n with
         | Some z => if Z.abs z <? 10 ^ 21 then pretty z else ""
         | None => ""
         end
  end.

(** The methods of [Object.prototype]. *)
Definition methods : list string :=
  ["constructor"; "__defineGetter__"; "__defineSetter__"; "hasOwnProperty";
   "__lookupGetter__"; "__lookupSetter__"; "isPrototypeOf";
   "propertyIsEnumerable"; "toString"; "valueOf"; "toLocaleString"].

(** The reference of the method [key], counted from [r] on. *)
Fixpoint method_ref (names : list string) (r : nat) (key : string) : option nat :=
  match names with
  | [] => None
  | name :: rest =>
      if String.eqb name key then Some r else method_ref rest (S r) key
  end.

(** [Object.prototype], as far as the comparison can tell when it meets it
    as an inherited value: a plain object that reads [null] under
    [__proto__] and the inherited methods under their names. The field
    stands for the accessor of [Object.prototype] itself; it is no
    enumerable property, and the one turn that the loop over [keysA] makes
    for it writes nothing, since [__proto__] is [in] every object. *)
Definition object_prototype : value := VObj 900 [("__proto__", VNull)].

Definition inherited (key : string) : option value :=
  if String.eqb key "__proto__" then Some object_prototype
  else match method_ref methods 901 key with
       | Some r => Some (VExotic r FunctionObj)
       | None => None
       end.

Definition decimal_host : Runtime :=
  {| StringToNumber := parse_number;
     NumberToString := print_number;
     DateParse := fun _ => NaN;
     FunctionToString := fun _ => "";
     Inherited := inherited;
     HostMember := fun _ _ => VUndefined |}.

End Host.

(** ** The store: where the engine writes

    A second embedding of the same three functions, with the objects in a
    store. Values are primitives, functions or references; the cells of the
    store are the arrays, plain objects, dates and other objects. Every
    [new]/literal/spread is an allocation, and every property assignment and
    the in-place [sort] is a write that is entered in [written]. A thrown
    exception ([None]) keeps the store. The [ComparisonContext] and the
    [DiffResult] record under construction, which the source only reads or
    returns, are passed by value. *)
Module Store.

Inductive hval : Type :=
| HUndefined
| HNull
| HBool (b : bool)
| HNum (n : number)
| HStr (s : string)
| HRef (l : nat)
| HFun (f : nat).

Inductive cell : Type :=
| CArray (items : list hval)
| CObject (fields : list (string * hval))
| CDate (time : number)
| CExotic (kind : exotic).

Record state : Type := {
  cells : list cell;
  written : list nat
}.

Definition M (A : Type) : Type := state -> option A * state.

Definition ret {A : Type} (a : A) : M A := fun s => (Some a, s).

Definition throw {A : Type} : M A := fun s => (None, s).

Definition bind {A B : Type} (m : M A) (f : A -> M B) : M B :=
  fun s => match m s with
           | (Some a, s') => f a s'
           | (None, s') => (None, s')
           end.

Notation "'let*' x ':=' m 'in' k" := (bind m (fun x => k))
  (at level 10, x name, m at level 100, k at level 200).

(** A new object: the next free location. *)
Definition alloc (c : cell) : M hval :=
  fun s => (Some (HRef (length (cells s))),
            {| cells := cells s ++ [c]; written := written s |}).

Definition load (v : hval) : M cell :=
  fun s => match v with
           | HRef l => (cells s !! l, s)
           | _ => (None, s)
           end.

(** A write to an existing object. *)
Definition store (v : hval) (c : cell) : M unit :=
  fun s => match v with
           | HRef l =>
               if Nat.ltb l (length (cells s))
               then (Some tt, {| cells := <[l := c]> (cells s);
                                 written := l :: written s |})
               else (None, s)
           | _ => (None, s)
           end.

Definition typeof (v : hval) : jstype :=
  match v with
  | HUndefined => TUndefined
  | HBool _ => TBoolean
  | HNum _ => TNumber
  | HStr _ => TString
  | HFun _ => TFunction
  | HNull | HRef _ => TObject
  end.

Definition is_nullish (v : hval) : bool :=
  match v with HUndefined | HNull => true | _ => false end.

Definition cell_of (s : state) (v : hval) : option cell :=
  match v with HRef l => cells s !! l | _ => None end.

Definition isArray (v : hval) : M bool :=
  fun s => (Some (match cell_of s v with Some (CArray _) => true | _ => false end), s).

Definition isPlainObject (v : hval) : M bool :=
  fun s => (Some (match cell_of s v with Some (CObject _) => true | _ => false end), s).

(** What [comparePrimitives] and [coerceValues] can see of a value: its
    kind, its reference and, for a date, its time; never the contents of an
    array or object. *)
Definition inspect (v : hval) : M value :=
  match v with
  | HUndefined => ret VUndefined
  | HNull => ret VNull
  | HBool b => ret (VBool b)
  | HNum n => ret (VNum n)
  | HStr s => ret (VStr s)
  | HFun f => ret (VExotic f FunctionObj)
  | HRef l =>
      let* c := load v in
      ret (match c with
           | CArray _ => VArr l []
           | CObject _ => VObj l []
           | CDate t => VDate l t
           | CExotic k => VExotic l k
           end)
  end.

(** A value of the host as the store holds it: an object is the reference
    to it. *)
Definition href_of (v : value) : hval :=
  match v with
  | VUndefined => HUndefined
  | VNull => HNull
  | VBool b => HBool b
  | VNum n => HNum n
  | VStr s => HStr s
  | VExotic f FunctionObj => HFun f
  | VArr l _ | VObj l _ | VDate l _ | VExotic l _ => HRef l
  end.

(** [array.length] and the elements. *)
Definition elements (array : hval) : M (list hval) :=
  let* c := load array in
  match c with
  | CArray items => ret items
  | _ => throw
  end.

(** [Object.keys(obj)] of a plain object. *)
Definition own_keys (obj : hval) : M (list string) :=
  let* c := load obj in
  match c with
  | CObject fields => ret (keys fields)
  | _ => throw
  end.

(** [key in obj]: an own property, or one inherited from
    [Object.prototype]. *)
Definition has_prop {RT : Runtime} (obj : hval) (key : string) : M bool :=
  let* c := load obj in
  match c with
  | CObject fields =>
      ret (own_key key fields
           || match Inherited key with Some _ => true | None => false end)
  | _ => throw
  end.

(** [obj[key]]: the own property, else the inherited one, else
    [undefined]. *)
Definition get_prop {RT : Runtime} (obj : hval) (key : string) : M hval :=
  let* c := load obj in
  match c with
  | CObject fields =>
      ret (match obj_get key fields with
           | Some v => v
           | None => match Inherited key with
                     | Some v => href_of v
                     | None => HUndefined
                     end
           end)
  | _ => throw
  end.

(** [obj[key] = v]. The new prototype of a plain object (see [proto_link])
    and a new own property of an array, date or other object are not
    represented, the write is entered all the same. *)
Definition set_prop {RT : Runtime} (obj : hval) (key : string) (v : hval)
    : M unit :=
  let* c := load obj in
  match c with
  | CObject fields =>
      if proto_link key then store obj c
      else store obj (CObject (obj_set key v fields))
  | _ => store obj c
  end.

(** [Object.keys(v).length > 0]. *)
Definition has_keys (v : hval) : M bool :=
  match v with
  | HUndefined | HNull => throw
  | HBool _ | HNum _ | HFun _ => ret false
  | HStr s => ret (Nat.ltb 0 (String.length s))
  | HRef _ =>
      let* c := load v in
      ret (match c with
           | CArray items => Nat.ltb 0 (length items)
           | CObject fields => Nat.ltb 0 (length fields)
           | CDate _ | CExotic _ => false
           end)
  end.

Record Result : Type := {
  additions : hval;
  deletions : hval;
  updates : hval
}.

Section Engine.
Context {RT : Runtime}.

Definition comparePrimitives (valueA valueB : hval) (enableTypeCoercion : bool)
    : M bool :=
  let* a := inspect valueA in
  let* b := inspect valueB in
  ret (comparePrimitives a b enableTypeCoercion).

(** [typeof item !== 'object' || item === null]. *)
Definition is_primitive (item : hval) : bool :=
  match item with HRef _ => false | _ => true end.

Definition sort_key (v : hval) : string :=
  match v with
  | HNull => "null"
  | HBool true => "true"
  | HBool false => "false"
  | HNum n => NumberToString n
  | HStr s => s
  | HFun f => FunctionToString f
  | _ => ""
  end.

Fixpoint sort_insert (x : hval) (sorted : list hval) : list hval :=
  match sorted with
  | [] => [x]
  | y :: rest =>
      if String.leb (sort_key x) (sort_key y) then x :: sorted
      else y :: sort_insert x rest
  end.

Definition is_undefined (v : hval) : bool :=
  match v with HUndefined => true | _ => false end.

Definition sorted_items (items : list hval) : list hval :=
  (foldr sort_insert [] (List.filter (fun v => negb (is_undefined v)) items)
   ++ List.filter is_undefined items)%list.

(** [array.sort()]: sorts in place and returns the array. *)
Definition sort (array : hval) : M hval :=
  let* items := elements array in
  let* _ := store array (CArray (sorted_items items)) in
  ret array.

(** [[...array]]. *)
Definition spread (array : hval) : M hval :=
  let* items := elements array in
  alloc (CArray items).

Section Recursion.
Variable internalDiff : hval -> hval -> ComparisonContext -> M Result.

(** The loop over the sorted copies. *)
Fixpoint compare_sorted (coerce : bool) (items : list (hval * hval)) : M bool :=
  match items with
  | [] => ret true
  | (a, b) :: rest =>
      let* equal := comparePrimitives a b coerce in
      if negb equal then ret false else compare_sorted coerce rest
  end.

Fixpoint compare_in_order (context : ComparisonContext) (i : nat)
    (items : list (hval * hval)) : M bool :=
  match items with
  | [] => ret true
  | (itemA, itemB) :: rest =>
      let* arrayA := isArray itemA in
      let* arrayB := isArray itemB in
      let non_objectA := negb (jstype_eqb (typeof itemA) TObject)
                         || is_nullish itemA || arrayA in
      let non_objectB := negb (jstype_eqb (typeof itemB) TObject)
                         || is_nullish itemB || arrayB in
      if non_objectA && non_objectB then
        let* equal := comparePrimitives itemA itemB
                        (enableTypeCoercion (options context)) in
        if negb equal then ret false
        else compare_in_order context (S i) rest
      else if negb non_objectA && negb non_objectB && depth_left context then
        let* diffResult := internalDiff itemA itemB
                             (descend context (pretty (N.of_nat i))) in
        let* a := has_keys (additions diffResult) in
        if a : bool then ret false else
        let* d := has_keys (deletions diffResult) in
        if d : bool then ret false else
        let* u := has_keys (updates diffResult) in
        if u : bool then ret false else
        compare_in_order context (S i) rest
      else ret false
  end.

Definition compareArrays (arrayA arrayB : hval) (context : ComparisonContext)
    : M bool :=
  let* itemsA := elements arrayA in
  let* itemsB := elements arrayB in
  if negb (Nat.eqb (length itemsA) (length itemsB)) then ret false
  else if Nat.eqb (length itemsA) 0 then ret true
  else if negb (arrayOrderMatters (options context))
          && (forallb is_primitive itemsA && forallb is_primitive itemsB)
  then
    let* copyA := spread arrayA in
    let* sortedA := sort copyA in
    let* copyB := spread arrayB in
    let* sortedB := sort copyB in
    let* sa := elements sortedA in
    let* sb := elements sortedB in
    compare_sorted (enableTypeCoercion (options context)) (combine sa sb)
  else compare_in_order context 0 (combine itemsA itemsB).

(** [{ from: valueA, to: valueB }]. *)
Definition from_to (valueA valueB : hval) : M hval :=
  alloc (CObject [("from", valueA); ("to", valueB)]).

(** [const result = { additions: {}, deletions: {}, updates: {} }]. *)
Definition new_result : M Result :=
  let* a := alloc (CObject []) in
  let* d := alloc (CObject []) in
  let* u := alloc (CObject []) in
  ret {| additions := a; deletions := d; updates := u |}.

Definition deletion_step (objA objB : hval) (context : ComparisonContext)
    (result : Result) (key : string) : M unit :=
  if ignored context key then ret tt
  else
    let* inB := has_prop objB key in
    if negb inB then
      let* valueA := get_prop objA key in
      set_prop (deletions result) key valueA
    else ret tt.

Definition update_step (objA objB : hval) (context : ComparisonContext)
    (result : Result) (key : string) : M unit :=
  if ignored context key then ret tt
  else
    let* inA := has_prop objA key in
    if negb inA then
      let* valueB := get_prop objB key in
      set_prop (additions result) key valueB
    else
      let* valueA := get_prop objA key in
      let* valueB := get_prop objB key in
      let* plainA := isPlainObject valueA in
      let* plainB := isPlainObject valueB in
      if depth_left context && plainA && plainB then
        let* nestedResult := internalDiff valueA valueB (descend context key) in
        let* a := has_keys (additions nestedResult) in
        let* _ := if a : bool
                  then set_prop (additions result) key (additions nestedResult)
                  else ret tt in
        let* d := has_keys (deletions nestedResult) in
        let* _ := if d : bool
                  then set_prop (deletions result) key (deletions nestedResult)
                  else ret tt in
        let* u := has_keys (updates nestedResult) in
        if u : bool
        then set_prop (updates result) key (updates nestedResult)
        else ret tt
      else
        let* arrayA := isArray valueA in
        let* arrayB := isArray valueB in
        if arrayA && arrayB then
          let* equal := compareArrays valueA valueB (extend_path context key) in
          if negb equal then
            let* pair := from_to valueA valueB in
            set_prop (updates result) key pair
          else ret tt
        else
          let* equal := comparePrimitives valueA valueB
                          (enableTypeCoercion (options context)) in
          if negb equal then
            let* pair := from_to valueA valueB in
            set_prop (updates result) key pair
          else ret tt.

Fixpoint for_of {K : Type} (body : K -> M unit) (ks : list K) : M unit :=
  match ks with
  | [] => ret tt
  | k :: rest => let* _ := body k in for_of body rest
  end.

Definition compareObjects (objA objB : hval) (context : ComparisonContext)
    : M Result :=
  let* result := new_result in
  let* keysA := own_keys objA in
  let* keysB := own_keys objB in
  let* _ := for_of (deletion_step objA objB context result) keysA in
  let* _ := for_of (update_step objA objB context result) keysB in
  ret result.

Definition internalDiff_body (objA objB : hval) (context : ComparisonContext)
    : M Result :=
  let* result := new_result in
  if is_nullish objA && is_nullish objB then ret result
  else if is_nullish objA then
    ret {| additions := objB; deletions := deletions result;
           updates := updates result |}
  else if is_nullish objB then
    ret {| additions := additions result; deletions := objA;
           updates := updates result |}
  else if negb (jstype_eqb (typeof objA) (typeof objB)) then
    let* pair := from_to objA objB in
    ret {| additions := additions result; deletions := deletions result;
           updates := pair |}
  else
    let* arrayA := isArray objA in
    let* arrayB := isArray objB in
    if arrayA && arrayB then
      let* equal := compareArrays objA objB context in
      if negb equal then
        let* pair := from_to objA objB in
        ret {| additions := additions result; deletions := deletions result;
               updates := pair |}
      else ret result
    else
      let* plainA := isPlainObject objA in
      let* plainB := isPlainObject objB in
      if plainA && plainB then compareObjects objA objB context
      else
        let* equal := comparePrimitives objA objB
                        (enableTypeCoercion (options context)) in
        if negb equal then
          let* pair := from_to objA objB in
          ret {| additions := additions result; deletions := deletions result;
                 updates := pair |}
        else ret result.

End Recursion.

Fixpoint internalDiff (fuel : nat) (objA objB : hval)
    (context : ComparisonContext) : M Result :=
  match fuel with
  | O => throw
  | S fuel' => internalDiff_body (internalDiff fuel') objA objB context
  end.

(** [diff], run on a call stack of height [fuel]. *)
Definition diff (fuel : nat) (objectA objectB : hval) (given : DiffOptions)
    : M Result :=
  internalDiff fuel objectA objectB (initial_context given).

End Engine.

(** [s'] has every cell of [s] as it was, and whatever was written since
    [s] did not exist in [s]. *)
Definition frame (s s' : state) : Prop :=
  (forall l c, cells s !! l = Some c -> cells s' !! l = Some c) /\
  (forall l, In l (written s') -> In l (written s) \/ (length (cells s) <= l)%nat).

(** [v] is no object of [s0]: a primitive, or allocated later. *)
Definition fresh_for (s0 : state) (v : hval) : Prop :=
  forall l, v = HRef l -> (length (cells s0) <= l)%nat.

(** Started in a state that frames [s0], [m] ends in a state that frames
    [s0], with a result that satisfies [Q]. *)
Definition resp {A : Type} (s0 : state) (m : M A) (Q : A -> Prop) : Prop :=
  forall s, frame s0 s ->
    frame s0 (snd (m s)) /\ forall a, fst (m s) = Some a -> Q a.

(** [m] leaves the state alone. *)
Definition readonly {A : Type} (m : M A) : Prop := forall s, snd (m s) = s.

(** [m] frames the state it starts in. *)
Definition framed {A : Type} (m : M A) : Prop := forall s, frame s (snd (m s)).

Definition any {A : Type} : A -> Prop := fun _ => True.

Definition fresh_result (s0 : state) (r : Result) : Prop :=
  fresh_for s0 (additions r) /\ fresh_for s0 (deletions r)
  /\ fresh_for s0 (updates r).

End Store.

(** ** The other exports of the sources

    [canCoerceToNumber], [canCoerceToBoolean] and [canCoerceToDate] of
    coercion.ts, and [getNestedValue] of comparison.ts. *)

(** The global [isFinite] on a number. *)
Definition isFinite (n : number) : bool :=
  match n with
  | S754_nan | S754_infinity _ => false
  | _ => true
  end.

Definition canCoerceToNumber {RT : Runtime} (v : value) : bool :=
  match v with
  | VNum _ => true
  | VStr s =>
      let num := StringToNumber s in
      negb (isNaN num) && isFinite num
  | _ => false
  end.

Definition canCoerceToBoolean (v : value) : bool :=
  match v with
  | VBool _ => true
  | VStr s =>
      let lower := toLowerCase s in
      String.eqb lower "true" || String.eqb lower "false"
  | _ => false
  end.

Definition canCoerceToDate {RT : Runtime} (v : value) : bool :=
  match v with
  | VDate _ _ => true
  | VStr s => negb (isNaN (DateParse s))
  | _ => false
  end.

(** The number written by a string of decimal digits. *)
Fixpoint decimal (acc : N) (s : string) : option N :=
  match s with
  | EmptyString => Some acc
  | String c rest =>
      match Ascii.is_nat c with
      | Some d => decimal (10 * acc + N.of_nat d)%N rest
      | None => None
      end
  end.

(** [key] as an array index: the canonical decimal numeral of a number. *)
Definition array_index (key : string) : option nat :=
  match key with
  | EmptyString => None
  | _ =>
      match decimal 0 key with
      | Some n => if String.eqb (pretty n) key then Some (N.to_nat n) else None
      | None => None
      end
  end.

(** [current[key]] on an object: a property of a plain object, own or
    inherited; an element or the [length] of an array; every other property
    of an array and the properties of a date, a regular expression, a map, a
    set or a function are the host's. *)
Definition member {RT : Runtime} (current : value) (key : string) : value :=
  match current with
  | VObj _ fields => prop fields key
  | VArr _ items =>
      if String.eqb key "length" then VNum (num (Z.of_nat (length items)))
      else match array_index key with
           | Some i =>
               match items !! i with
               | Some item => item
               | None => HostMember current key
               end
           | None => HostMember current key
           end
  | VDate _ _ | VExotic _ _ => HostMember current key
  | _ => VUndefined
  end.

(** [getNestedValue]; the first argument is [current], initially [obj]. *)
Fixpoint getNestedValue {RT : Runtime} (obj : value) (path : list string)
    : value :=
  match path with
  | [] => obj
  | key :: rest =>
      if is_nullish obj || negb (jstype_eqb (typeof obj) TObject)
      then VUndefined
      else getNestedValue (member obj key) rest
  end.

(** ** The vocabulary of the statements *)

Section Vocabulary.
Context {RT : Runtime}.

(** [shaped r]: [Object.keys] does not throw on any of the three maps. *)
Definition shaped (r : DiffResult) : Prop :=
  is_Some (has_keys (additions r)) /\ is_Some (has_keys (deletions r))
  /\ is_Some (has_keys (updates r)).

(** The type of [internalDiff] as [compareArrays] receives it. *)
Definition callback : Type := value -> value -> ComparisonContext -> option DiffResult.

(** [self'] returns whatever [self] returns. *)
Definition extends (self self' : callback) : Prop :=
  forall x y c r, self x y c = Some r -> self' x y c = Some r.

(** [self] returns, with well-formed maps, on every second argument of
    height below [n]. *)
Definition total_below (n : nat) (self : callback) : Prop :=
  forall x y c, (height y < n)%nat -> exists r, self x y c = Some r /\ shaped r.

(** The results with a single update. *)
Definition updated (from to : value) : DiffResult :=
  {| additions := DMap []; deletions := DMap []; updates := DFromTo from to |}.

Definition updated_at (key : string) (from to : value) : DiffResult :=
  {| additions := DMap []; deletions := DMap [];
     updates := DMap [(key, DFromTo from to)] |}.

(** *** Where the entries of the three maps come from *)

Section OriginVocabulary.
Variable self : callback.
Variables objA objB : list (string * value).
Variable context : ComparisonContext.

(** The field-wise comparison recurses into [key]. *)
Definition nested_at (key : string) : bool :=
  depth_left context && isPlainObject (prop objA key)
  && isPlainObject (prop objB key).

(** [e] is the [part] of the nested result for [key]. *)
Definition from_nested (part : DiffResult -> dval) (key : string) (e : dval) : Prop :=
  nested_at key = true /\
  exists nestedResult,
    self (prop objA key) (prop objB key) (descend context key) = Some nestedResult
    /\ e = part nestedResult.

Definition addition_origin (key : string) (e : dval) : Prop :=
  ignored context key = false /\ has_key key objB = true /\
  ((has_key key objA = false /\ e = DVal (prop objB key)) \/
   (has_key key objA = true /\ from_nested additions key e)).

Definition deletion_origin (key : string) (e : dval) : Prop :=
  ignored context key = false /\ has_key key objA = true /\
  ((has_key key objB = false /\ e = DVal (prop objA key)) \/
   (has_key key objB = true /\ from_nested deletions key e)).

Definition update_origin (key : string) (e : dval) : Prop :=
  ignored context key = false /\ has_key key objA = true /\
  has_key key objB = true /\
  (from_nested updates key e \/
   (nested_at key = false /\ e = DFromTo (prop objA key) (prop objB key))).

(** Every entry of the maps under construction has its origin. *)
Definition accounted (m : maps) : Prop :=
  (forall key e, obj_get key (m_additions m) = Some e -> addition_origin key e) /\
  (forall key e, obj_get key (m_deletions m) = Some e -> deletion_origin key e) /\
  (forall key e, obj_get key (m_updates m) = Some e -> update_origin key e).

End OriginVocabulary.

(** An entry that is a map built by recursing into an object-valued field,
    as opposed to a scalar entry (a carried value or a [{from, to}] pair). *)
Definition is_nested_map (e : dval) : bool :=
  match e with DMap _ => true | _ => false end.

(** [key] has a scalar entry in [m]. *)
Definition scalar_in (key : string) (m : list (string * dval)) : Prop :=
  exists e, obj_get key m = Some e /\ is_nested_map e = false.

(** [key] has an entry in [m]. *)
Definition present_in (key : string) (m : list (string * dval)) : Prop :=
  exists e, obj_get key m = Some e.

(** The partition at one nesting level: the level at which the plain
    objects [objA] and [objB] are compared in [context], [nested] being the
    recursive [internalDiff]. *)
Definition key_partitioned (nested : callback) (objA objB : list (string * value))
    (context : ComparisonContext) (r : DiffResult) : Prop :=
  exists adds dels upds,
    r = {| additions := DMap adds; deletions := DMap dels; updates := DMap upds |} /\
    forall key : string,
      (* a scalar entry excludes every other entry under the same key *)
      (scalar_in key adds -> obj_get key dels = None /\ obj_get key upds = None) /\
      (scalar_in key dels -> obj_get key adds = None /\ obj_get key upds = None) /\
      (scalar_in key upds -> obj_get key adds = None /\ obj_get key dels = None) /\
      (* entries in two maps are the parts of one nested comparison *)
      ((present_in key adds /\ present_in key dels) \/
       (present_in key adds /\ present_in key upds) \/
       (present_in key dels /\ present_in key upds) ->
       has_key key objA = true /\ has_key key objB = true /\
       isPlainObject (prop objA key) = true /\
       isPlainObject (prop objB key) = true /\
       exists nestedResult,
         nested (prop objA key) (prop objB key) (descend context key)
           = Some nestedResult /\
         (forall e, obj_get key adds = Some e ->
                    e = additions nestedResult /\ is_nested_map e = true) /\
         (forall e, obj_get key dels = Some e ->
                    e = deletions nestedResult /\ is_nested_map e = true) /\
         (forall e, obj_get key upds = Some e ->
                    e = updates nestedResult /\ is_nested_map e = true)).

(** [e] is the [part] of the nested comparison under [key]. *)
Definition nested_entry {RT : Runtime} (fuel : nat) (objA objB : list (string * value))
    (context : ComparisonContext) (part : DiffResult -> dval)
    (key : string) (e : dval) : Prop :=
  nested_at objA objB context key = true /\
  has_key key objA = true /\ has_key key objB = true /\
  exists nr,
    internalDiff fuel (prop objA key) (prop objB key) (descend context key) = Some nr
    /\ e = part nr /\ is_nested_map e = true.

(** [p] is a path of keys recorded by the field-wise comparison: it leads
    through maps the comparison built, down to an entry. *)
Inductive recorded : list string -> dval -> Prop :=
| recorded_entry key entries e :
    obj_get key entries = Some e -> recorded [key] (DMap entries)
| recorded_below key p entries e :
    obj_get key entries = Some e -> recorded p e ->
    recorded (key :: p) (DMap entries).

(** [p] is a path of keys inside an input value. *)
Inductive value_path : list string -> value -> Prop :=
| value_path_key key r fields v :
    obj_get key fields = Some v -> value_path [key] (VObj r fields)
| value_path_below key p r fields v :
    obj_get key fields = Some v -> value_path p v ->
    value_path (key :: p) (VObj r fields).

(** [p] is a key path of a result map as the caller sees it, carried values
    and [{from, to}] pairs included. *)
Inductive occurs : list string -> dval -> Prop :=
| occurs_entry key entries e :
    obj_get key entries = Some e -> occurs [key] (DMap entries)
| occurs_below key p entries e :
    obj_get key entries = Some e -> occurs p e ->
    occurs (key :: p) (DMap entries)
| occurs_value p v : value_path p v -> occurs p (DVal v)
| occurs_from a b : occurs ["from"] (DFromTo a b)
| occurs_to a b : occurs ["to"] (DFromTo a b)
| occurs_in_from p a b : value_path p a -> occurs ("from" :: p) (DFromTo a b)
| occurs_in_to p a b : value_path p b -> occurs ("to" :: p) (DFromTo a b).

(** The path [p] below [context] matches an ignore pattern. *)
Definition ignores (context : ComparisonContext) (p : list string) : bool :=
  shouldIgnoreProperty (join_dot (path context ++ p))
                       (ignoreProperties (options context)).

(** No number [NaN] occurs in the value. *)
Fixpoint nan_free (v : value) : bool :=
  match v with
  | VNum n => negb (isNaN n)
  | VArr _ items => forallb nan_free items
  | VObj _ fields => forallb (fun kv => nan_free (snd kv)) fields
  | _ => true
  end.

(** The comparisons that [internalDiff(v, v)] makes with [n] levels left
    below [maxDepth] all succeed: no number that it compares with itself is
    [NaN], and no array that holds an object (other than an array) is reached
    without a level left. Plain objects reached without a level left and
    arrays inside arrays are compared by reference and not looked into. *)
Fixpoint same_to_itself (n : nat) (v : value) : bool :=
  match v with
  | VNum x => negb (isNaN x)
  | VArr _ items =>
      forallb (fun item =>
                 if is_object item
                 then match n with
                      | S n' => same_to_itself n' item
                      | O => false
                      end
                 else match item with
                      | VNum x => negb (isNaN x)
                      | _ => true
                      end) items
  | VObj _ fields =>
      forallb (fun kv =>
                 match snd kv with
                 | VObj _ _ =>
                     match n with
                     | S n' => same_to_itself n' (snd kv)
                     | O => true
                     end
                 | _ => same_to_itself n (snd kv)
                 end) fields
  | _ => true
  end.

(** The order of the default sort. *)
Definition key_le {RT : Runtime} (x y : value) : Prop :=
  String.leb (sort_key x) (sort_key y) = true.

(** Elements that the default sort cannot tell apart are primitive-equal. *)
Definition same_key_equal {RT : Runtime} (coerce : bool) (arr : list value) : Prop :=
  forall x y, In x arr -> In y arr ->
    is_undefined x = false -> is_undefined y = false ->
    sort_key x = sort_key y -> comparePrimitives x y coerce = true.

(** *** Wildcard patterns *)

(** No code unit of [s] is a line terminator. *)
Fixpoint no_terminator (s : string) : bool :=
  match s with
  | EmptyString => true
  | String c rest => negb (line_terminator c) && no_terminator rest
  end.

(** [path] is [pattern] with every [*] replaced by a string without line
    terminators. *)
Inductive instance_of : string -> string -> Prop :=
| instance_empty : instance_of "" ""
| instance_char c pattern path :
    c <> "*"%char -> instance_of pattern path ->
    instance_of (String c pattern) (String c path)
| instance_star pattern filling path :
    no_terminator filling = true -> instance_of pattern path ->
    instance_of (String "*" pattern) (filling ++ path).

(** *** Reading results *)

(** The scalar entry [e] sits at the key path [p] of the map [d]. *)
Inductive entry_at : list string -> dval -> dval -> Prop :=
| entry_here key entries e :
    obj_get key entries = Some e -> is_nested_map e = false ->
    entry_at [key] (DMap entries) e
| entry_below key p entries d e :
    obj_get key entries = Some d -> entry_at p d e ->
    entry_at (key :: p) (DMap entries) e.

(** [Object.keys] finds no key in any of the three maps. *)
Definition no_difference (r : DiffResult) : Prop :=
  has_keys (additions r) = Some false /\ has_keys (deletions r) = Some false
  /\ has_keys (updates r) = Some false.

(** Deep equality, as far as an order-sensitive comparison without
    coercion looks: strictly equal values (the same primitive, the same
    reference), arrays with similar elements, plain objects with the same
    keys and similar values. *)
Inductive similar : value -> value -> Prop :=
| similar_same a b : strict_eq a b = true -> similar a b
| similar_arrays ra rb itemsA itemsB :
    Forall2 similar itemsA itemsB -> similar (VArr ra itemsA) (VArr rb itemsB)
| similar_objects ra rb fieldsA fieldsB :
    (forall key, own_key key fieldsA = own_key key fieldsB) ->
    (forall key, own_key key fieldsA = true ->
                 similar (prop fieldsA key) (prop fieldsB key)) ->
    similar (VObj ra fieldsA) (VObj rb fieldsB).

(** No own property of [v], at any depth, has a name that
    [Object.prototype] provides as well: for such a value [key in obj] and
    [obj[key]] see own properties only at every key [Object.keys] lists. *)
Fixpoint ordinary (v : value) : bool :=
  match v with
  | VArr _ items => forallb ordinary items
  | VObj _ fields =>
      forallb (fun kv => match Inherited (fst kv) with
                         | None => ordinary (snd kv)
                         | Some _ => false
                         end) fields
  | _ => true
  end.

(** [m] and [m'] hold the same keys in the same order and the same values,
    the key [key] apart. *)
Definition same_except {A : Type} (key : string) (m m' : list (string * A)) : Prop :=
  List.filter (fun k => negb (String.eqb k key)) (keys m)
  = List.filter (fun k => negb (String.eqb k key)) (keys m') /\
  forall k, k <> key -> obj_get k m = obj_get k m'.

(** [self] returns, with well-formed maps, in every context with fewer than
    [n] levels left below [maxDepth]. *)
Definition total_within (n : nat) (self : callback) : Prop :=
  forall x y c,
    (Z.to_nat (maxDepth (options c) - Z.of_nat (depth c)) < n)%nat ->
    exists r, self x y c = Some r /\ shaped r.

(** *** The two directions of a comparison *)

(** [d'] is [d] seen from the other side: a carried value is the same, a
    pair [{from, to}] is turned round, and a map has the same keys, in
    whatever order, with entries that mirror each other. *)
Inductive mirrored : dval -> dval -> Prop :=
| mirrored_val v : mirrored (DVal v) (DVal v)
| mirrored_from_to a b : mirrored (DFromTo a b) (DFromTo b a)
| mirrored_map m m' :
    (forall key, option_Forall2 mirrored (obj_get key m) (obj_get key m')) ->
    mirrored (DMap m) (DMap m').

(** The additions of one result are the deletions of the other, and the
    updates are turned round. *)
Definition mirror_image (r r' : DiffResult) : Prop :=
  mirrored (additions r) (deletions r') /\
  mirrored (deletions r) (additions r') /\
  mirrored (updates r) (updates r').

End Vocabulary.

(** ** Example data *)

(** Options objects with one field given. *)
Definition with_coercion (b : bool) : DiffOptions :=
  {| given_ignoreProperties := None; given_enableTypeCoercion := Some b;
     given_arrayOrderMatters := None; given_maxDepth := None |}.

Definition with_ignore (patterns : list string) : DiffOptions :=
  {| given_ignoreProperties := Some patterns; given_enableTypeCoercion := None;
     given_arrayOrderMatters := None; given_maxDepth := None |}.

Definition with_order (b : bool) : DiffOptions :=
  {| given_ignoreProperties := None; given_enableTypeCoercion := None;
     given_arrayOrderMatters := Some b; given_maxDepth := None |}.

Definition with_maxDepth (d : Z) : DiffOptions :=
  {| given_ignoreProperties := None; given_enableTypeCoercion := None;
     given_arrayOrderMatters := None; given_maxDepth := Some d |}.

(** A result whose three parts are maps. *)
Definition result_maps (a d u : list (string * dval)) : DiffResult :=
  {| additions := DMap a; deletions := DMap d; updates := DMap u |}.

(** [{a: 1, b: {x: 1, y: 2}, c: 3}] against [{b: {y: 3, z: 4}, c: 4, d: 5}]. *)
Module PartitionExample.

Definition objA : list (string * value) :=
  [("a", VNum (num 1));
   ("b", VObj 3 [("x", VNum (num 1)); ("y", VNum (num 2))]);
   ("c", VNum (num 3))].

Definition objB : list (string * value) :=
  [("b", VObj 4 [("y", VNum (num 3)); ("z", VNum (num 4))]);
   ("c", VNum (num 4));
   ("d", VNum (num 5))].

Definition result : DiffResult :=
  {| additions := DMap [("b", DMap [("z", DVal (VNum (num 4)))]);
                        ("d", DVal (VNum (num 5)))];
     deletions := DMap [("a", DVal (VNum (num 1)));
                        ("b", DMap [("x", DVal (VNum (num 1)))])];
     updates := DMap [("b", DMap [("y", DFromTo (VNum (num 2)) (VNum (num 3)))]);
                      ("c", DFromTo (VNum (num 3)) (VNum (num 4)))] |}.

End PartitionExample.

(** [diff({k: {v: 1}}, {k: {v: 1}}, {maxDepth: 0})]. *)
Module DepthExample.
Definition inner1 : value := VObj 3 [("v", VNum (num 1))].
Definition inner2 : value := VObj 4 [("v", VNum (num 1))].
Definition given : DiffOptions := with_maxDepth 0.
End DepthExample.

Module IgnoreExample.
(** [diff({user: {name: "John", _id: "123"}}, {user: {name: "Jo", _id: "456"}},
          {ignoreProperties: ["user._id"]})]. *)
Definition objectA : value :=
  VObj 1 [("user", VObj 3 [("name", VStr "John"); ("_id", VStr "123")])].
Definition objectB : value :=
  VObj 2 [("user", VObj 4 [("name", VStr "Jo"); ("_id", VStr "456")])].
Definition given : DiffOptions := with_ignore ["user._id"].
Definition result : DiffResult :=
  result_maps [] [] [("user", DMap [("name", DFromTo (VStr "John") (VStr "Jo"))])].

(** [diff({}, {user: {_id: "456"}}, {ignoreProperties: ["user._id"]})]. *)
Definition emptyA : value := VObj 1 [].
Definition addedB : value := VObj 2 [("user", VObj 4 [("_id", VStr "456")])].
End IgnoreExample.

(** [{name: "John", age: 30, tags: ["a", null, {k: true}], born: new Date(0)}]. *)
Module IdentityExample.
Definition v : value :=
  VObj 1 [("name", VStr "John"); ("age", VNum (num 30));
          ("tags", VArr 2 [VStr "a"; VNull; VObj 3 [("k", VBool true)]]);
          ("born", VDate 4 (num 0))].
Definition flat : value :=
  VObj 5 [("xs", VArr 6 [VNum (num 1); VArr 7 [VNum NaN]]);
          ("o", VObj 8 [("n", VNum NaN)])].
End IdentityExample.

(** [{xs: [{}]}] under ten levels of [{nested: ...}]. *)
Module DeepExample.
Fixpoint nest (n : nat) (v : value) : value :=
  match n with
  | O => v
  | S k => VObj n [("nested", nest k v)]
  end.
Definition deep : value := nest 10 (VObj 0 [("xs", VArr 100 [VObj 101 []])]).
End DeepExample.

Module UnorderedExample.
Definition unordered : DiffOptions := with_order false.
Definition tags : list value := [VStr "js"; VStr "ts"].
Definition tags' : list value := [VStr "ts"; VStr "js"].
Definition nulls : list value := [VNull; VStr "null"].
Definition nulls' : list value := [VStr "null"; VNull].
End UnorderedExample.

(** A store with [{tags: ["ts", "js"], n: 1}] at [0] and
    [{tags: ["js", "ts"], n: 2}] at [2]. *)
Module StoreExample.
Import Store.
Definition cells0 : list cell :=
  [ CObject [("tags", HRef 1); ("n", HNum (num 1))];
    CArray [HStr "ts"; HStr "js"];
    CObject [("tags", HRef 3); ("n", HNum (num 2))];
    CArray [HStr "js"; HStr "ts"] ].
Definition s0 : state := {| cells := cells0; written := [] |}.
End StoreExample.

(** The data of the test suite. *)
Module TestData.

Definition john : list (string * value) := [("name", VStr "John")].

Definition john_aged (age : Z) : list (string * value) :=
  [("name", VStr "John"); ("age", VNum (num age))].

Definition profile : value := VObj 5 [("email", VStr "john@example.com")].

Definition js : value := VStr "javascript".

Definition ts : value := VStr "typescript".

Definition with_id (age : Z) (id : string) : list (string * value) :=
  (john_aged age ++ [("_id", VStr id)])%list.

(** Fifty properties [prop0 .. prop49], one of them changed. *)
Definition large (changed : nat -> Z) : list (string * value) :=
  map (fun i => (("prop" ++ pretty (N.of_nat i))%string, VNum (num (changed i))))
      (seq 0 50).

(** [{value: "deep"}] inside [levels] objects [{nested: ...}]. *)
Fixpoint nested (ref : nat) (levels : nat) : value :=
  match levels with
  | O => VObj ref [("value", VStr "deep")]
  | S k => VObj (ref + 2 * levels) [("nested", nested ref k)]
  end.

End TestData.

(** ** Basic facts *)

Lemma num_eq_refl (n : number) : isNaN n = false -> num_eq n n = true.
Proof.
  destruct n as [z|i| |sg m e]; simpl; try discriminate; intros _.
  - reflexivity.
  - destruct i; reflexivity.
  - unfold num_eq, SFeqb, SFcompare.
    rewrite Z.compare_refl, Pos.compare_cont_refl. destruct sg; reflexivity.
Qed.

Lemma num_eq_NaN_l (n : number) : num_eq NaN n = false.
Proof. reflexivity. Qed.

Lemma num_eq_NaN_r (n : number) : num_eq n NaN = false.
Proof. destruct n; reflexivity. Qed.

Lemma isNaN_true (n : number) : isNaN n = true -> n = NaN.
Proof. destruct n; simpl; intros H; try discriminate H; reflexivity. Qed.

Lemma string_eqb_refl (s : string) : String.eqb s s = true.
Proof. apply String.eqb_refl. Qed.

Lemma jstype_eqb_refl (t : jstype) : jstype_eqb t t = true.
Proof. destruct t; reflexivity. Qed.

Lemma jstype_eqb_eq (s t : jstype) : jstype_eqb s t = true <-> s = t.
Proof. destruct s, t; simpl; split; congruence. Qed.

(** A value is strictly equal to itself unless it is the number [NaN]. *)
Lemma strict_eq_refl (v : value) : v <> VNum NaN -> strict_eq v v = true.
Proof.
  destruct v as [| |b|n|s|r l|r l|r t|r k]; simpl; intros Hv; trivial.
  - apply Bool.eqb_reflx.
  - apply num_eq_refl. destruct n; simpl; trivial. now elim Hv.
  - apply String.eqb_refl.
  - apply Nat.eqb_refl.
  - apply Nat.eqb_refl.
  - apply Nat.eqb_refl.
  - apply Nat.eqb_refl.
Qed.

Section Facts.
Context {RT : Runtime}.

Lemma comparePrimitives_refl (v : value) (e : bool) :
  v <> VNum NaN -> comparePrimitives v v e = true.
Proof. intros Hv. unfold comparePrimitives. now rewrite strict_eq_refl. Qed.

Lemma compare_in_order_extends (self self' : callback) context items :
  extends self self' ->
  forall i r, compare_in_order self context i items = Some r ->
              compare_in_order self' context i items = Some r.
Proof.
  intros Hext. induction items as [|[itemA itemB] rest IH]; intros i r; simpl; trivial.
  destruct (non_object itemA && non_object itemB).
  { destruct (negb _); auto. }
  destruct (is_object itemA && is_object itemB && depth_left context); trivial.
  destruct (self itemA itemB _) as [dr|] eqn:Hs; simpl; [|discriminate].
  rewrite (Hext _ _ _ _ Hs). simpl.
  destruct (has_keys (additions dr)) as [[|]|]; simpl; trivial.
  destruct (has_keys (deletions dr)) as [[|]|]; simpl; trivial.
  destruct (has_keys (updates dr)) as [[|]|]; simpl; auto.
Qed.

Lemma compareArrays_extends (self self' : callback) arrayA arrayB context r :
  extends self self' ->
  compareArrays self arrayA arrayB context = Some r ->
  compareArrays self' arrayA arrayB context = Some r.
Proof.
  intros Hext. unfold compareArrays.
  repeat (match goal with |- context [if ?c then _ else _] => destruct c end; trivial).
  now apply compare_in_order_extends.
Qed.

Lemma update_step_extends (self self' : callback) objA objB context result key r :
  extends self self' ->
  update_step self objA objB context result key = Some r ->
  update_step self' objA objB context result key = Some r.
Proof.
  intros Hext. unfold update_step.
  destruct (ignored context key); trivial.
  destruct (negb (has_key key objA)); trivial.
  destruct (depth_left context && isPlainObject (prop objA key)
            && isPlainObject (prop objB key)).
  - destruct (self _ _ _) as [dr|] eqn:Hs; simpl; [|discriminate].
    now rewrite (Hext _ _ _ _ Hs).
  - destruct (prop objA key), (prop objB key); trivial.
    destruct (compareArrays self _ _ _) as [eq|] eqn:Hc; simpl; [|discriminate].
    now rewrite (compareArrays_extends _ _ _ _ _ _ Hext Hc).
Qed.

Lemma for_of_extends {S K : Type} (body body' : S -> K -> option S) ks :
  (forall s k s', body s k = Some s' -> body' s k = Some s') ->
  forall s r, for_of body ks s = Some r -> for_of body' ks s = Some r.
Proof.
  intros Hb. induction ks as [|k ks IH]; simpl; trivial.
  intros s r. destruct (body s k) as [s'|] eqn:Hs; simpl; [|discriminate].
  rewrite (Hb _ _ _ Hs). simpl. apply IH.
Qed.

Lemma internalDiff_body_extends (self self' : callback) objA objB context r :
  extends self self' ->
  internalDiff_body self objA objB context = Some r ->
  internalDiff_body self' objA objB context = Some r.
Proof.
  intros Hext. unfold internalDiff_body.
  destruct (is_nullish objA && is_nullish objB); trivial.
  destruct (is_nullish objA); trivial.
  destruct (is_nullish objB); trivial.
  destruct (negb (jstype_eqb (typeof objA) (typeof objB))); trivial.
  destruct objA, objB; trivial.
  - destruct (compareArrays self _ _ _) as [eq|] eqn:Hc; simpl; [|discriminate].
    now rewrite (compareArrays_extends _ _ _ _ _ _ Hext Hc).
  - unfold compareObjects.
    destruct (for_of (update_step self _ _ _) _ _) as [m|] eqn:Hf; simpl; [|discriminate].
    apply for_of_extends with (body' := update_step self' fields fields0 context) in Hf.
    + now rewrite Hf.
    + intros s k s'. now apply update_step_extends.
Qed.

(** A deeper stack changes no result. *)
Lemma internalDiff_more_fuel (fuel fuel' : nat) objA objB context r :
  (fuel <= fuel')%nat ->
  internalDiff fuel objA objB context = Some r ->
  internalDiff fuel' objA objB context = Some r.
Proof.
  revert fuel' objA objB context r.
  induction fuel as [|fuel IH]; intros fuel' objA objB context r Hle; simpl.
  - discriminate.
  - destruct fuel' as [|fuel']; [lia|]. simpl.
    apply internalDiff_body_extends. intros x y c r'. apply IH. lia.
Qed.

(** *** Enough stack: no call below throws or overflows *)

Lemma height_item (r : nat) (items : list value) (x : value) :
  In x items -> (height x < height (VArr r items))%nat.
Proof.
  simpl. induction items as [|y items IH]; simpl; [tauto|].
  intros [->|Hin]; [lia|]. specialize (IH Hin). lia.
Qed.

Lemma height_field (r : nat) (fields : list (string * value)) k (x : value) :
  In (k, x) fields -> (height x < height (VObj r fields))%nat.
Proof.
  simpl. induction fields as [|[k' y] fields IH]; simpl; [tauto|].
  intros [[= -> ->]|Hin]; [lia|]. specialize (IH Hin). lia.
Qed.

Lemma obj_get_In {A : Type} key (m : list (string * A)) v :
  obj_get key m = Some v -> In (key, v) m.
Proof.
  induction m as [|[k w] m IH]; simpl; [discriminate|].
  destruct (String.eqb_spec k key) as [->|Hne].
  - intros [= ->]. now left.
  - intros H. right. auto.
Qed.

Lemma keys_own_key {A : Type} key (m : list (string * A)) :
  In key (keys m) -> own_key key m = true.
Proof.
  unfold own_key, keys. induction m as [|[k w] m IH]; simpl; [tauto|].
  intros [->|Hin].
  - now rewrite String.eqb_refl.
  - destruct (String.eqb k key); trivial. auto.
Qed.

Lemma own_key_keys {A : Type} key (m : list (string * A)) :
  own_key key m = true -> In key (keys m).
Proof.
  unfold own_key, keys. induction m as [|[k w] m IH]; simpl; [discriminate|].
  destruct (String.eqb_spec k key) as [->|Hne]; [now left|].
  intros H. right. auto.
Qed.

Lemma own_key_prop (obj : list (string * value)) key :
  own_key key obj = true -> obj_get key obj = Some (prop obj key).
Proof. unfold own_key, prop. now destruct (obj_get key obj). Qed.

Lemma own_key_has_key (obj : list (string * value)) key :
  own_key key obj = true -> has_key key obj = true.
Proof. unfold has_key. now intros ->. Qed.

(** An own property lies one level down. *)
Lemma height_prop (r : nat) (fields : list (string * value)) key :
  In key (keys fields) ->
  (height (prop fields key) < height (VObj r fields))%nat.
Proof.
  intros Hin. apply keys_own_key, own_key_prop in Hin.
  eapply height_field, obj_get_In, Hin.
Qed.

Lemma has_keys_DVal (v : value) :
  is_nullish v = false -> is_Some (has_keys (DVal v)).
Proof. destruct v; simpl; intros H; try discriminate H; eauto. Qed.

Lemma compare_in_order_total (n : nat) (self : callback) context items :
  total_below n self ->
  (forall x y, In (x, y) items -> (height y < n)%nat) ->
  forall i, exists b, compare_in_order self context i items = Some b.
Proof.
  intros Hself. induction items as [|[itemA itemB] rest IH]; intros Hh i; simpl.
  - eauto.
  - assert (Hrest : forall j, exists b, compare_in_order self context j rest = Some b).
    { apply IH. intros x y Hin. apply (Hh x y). now right. }
    destruct (non_object itemA && non_object itemB).
    { destruct (negb _); eauto. }
    destruct (is_object itemA && is_object itemB && depth_left context); eauto.
    destruct (Hself itemA itemB (descend context (pretty (N.of_nat i))))
      as (dr & -> & [a Ha] & [d Hd] & [u Hu]).
    { apply (Hh itemA itemB). now left. }
    simpl. rewrite Ha, Hd, Hu. simpl.
    destruct a; eauto. destruct d; eauto. destruct u; eauto.
Qed.

Lemma In_combine_r {A B : Type} (l : list A) (l' : list B) x y :
  In (x, y) (combine l l') -> In y l'.
Proof. apply in_combine_r. Qed.

Lemma compareArrays_total (n : nat) (self : callback) arrayA arrayB context :
  total_below n self ->
  (forall y, In y arrayB -> (height y < n)%nat) ->
  exists b, compareArrays self arrayA arrayB context = Some b.
Proof.
  intros Hself Hh. unfold compareArrays.
  destruct (negb _); eauto. destruct (Nat.eqb _ 0); eauto.
  destruct (negb _ && _); eauto.
  apply (compare_in_order_total n); trivial.
  intros x y Hin. eapply Hh, In_combine_r, Hin.
Qed.

Lemma update_step_total (n : nat) (self : callback) objA objB context result key :
  total_below n self ->
  (height (prop objB key) < n)%nat ->
  exists m, update_step self objA objB context result key = Some m.
Proof.
  intros Hself Hh. unfold update_step.
  destruct (ignored context key); eauto.
  destruct (negb (has_key key objA)); eauto.
  destruct (depth_left context && isPlainObject (prop objA key)
            && isPlainObject (prop objB key)).
  - destruct (Hself (prop objA key) (prop objB key) (descend context key) Hh)
      as (dr & -> & [a Ha] & [d Hd] & [u Hu]).
    simpl. rewrite Ha, Hd, Hu. simpl. eauto.
  - destruct (prop objA key) as [| | | | |ra itemsA| | |] eqn:HA; eauto.
    destruct (prop objB key) as [| | | | |rb itemsB| | |] eqn:HB; eauto.
    destruct (compareArrays_total n self itemsA itemsB (extend_path context key) Hself)
      as [b ->]; simpl; eauto.
    intros y Hin. pose proof (height_item rb itemsB y Hin). lia.
Qed.

Lemma for_of_total {S K : Type} (body : S -> K -> option S) ks :
  (forall s k, In k ks -> exists s', body s k = Some s') ->
  forall s, exists r, for_of body ks s = Some r.
Proof.
  induction ks as [|k ks IH]; simpl; intros Hb s; eauto.
  destruct (Hb s k) as [s' ->]; [now left|]. simpl. apply IH.
  intros s0 k0 Hin. apply Hb. now right.
Qed.

Lemma compareObjects_total (n : nat) (self : callback) r objA objB context :
  total_below n self ->
  (height (VObj r objB) <= n)%nat ->
  exists res, compareObjects self objA objB context = Some res /\ shaped res.
Proof.
  intros Hself Hh. unfold compareObjects.
  edestruct (for_of_total (update_step self objA objB context) (keys objB))
    as [m ->].
  - intros s k Hin. apply (update_step_total n); trivial.
    pose proof (height_prop r objB k Hin). lia.
  - simpl. eexists; split; [reflexivity|]. repeat split; simpl; eauto.
Qed.

Lemma internalDiff_body_total (n : nat) (self : callback) objA objB context :
  total_below n self ->
  (height objB <= n)%nat ->
  exists r, internalDiff_body self objA objB context = Some r /\ shaped r.
Proof.
  intros Hself Hh. unfold internalDiff_body.
  assert (Hempty : shaped empty_result) by (repeat split; simpl; eauto).
  assert (Hupd : shaped {| additions := additions empty_result;
                           deletions := deletions empty_result;
                           updates := DFromTo objA objB |})
    by (repeat split; simpl; eauto).
  destruct (is_nullish objA) eqn:HnA, (is_nullish objB) eqn:HnB; simpl.
  - eauto.
  - eexists; split; [reflexivity|].
    repeat split; simpl; eauto using has_keys_DVal.
  - eexists; split; [reflexivity|].
    repeat split; simpl; eauto using has_keys_DVal.
  - destruct (negb (jstype_eqb (typeof objA) (typeof objB))).
    { destruct (enableTypeCoercion (options context)); eauto. }
    destruct objA as [| | | | |ra itemsA|ra fieldsA| |] eqn:EA;
      try (destruct (negb (comparePrimitives _ _ _)); eauto; fail).
    + destruct objB as [| | | | |rb itemsB| | |] eqn:EB;
        try (destruct (negb (comparePrimitives _ _ _)); eauto; fail).
      destruct (compareArrays_total n self itemsA itemsB context Hself) as [b ->].
      { intros y Hin. pose proof (height_item rb itemsB y Hin). lia. }
      simpl. destruct (negb b); eauto.
    + destruct objB as [| | | | | |rb fieldsB| |] eqn:EB;
        try (destruct (negb (comparePrimitives _ _ _)); eauto; fail).
      apply (compareObjects_total n self rb); trivial.
Qed.

(** With a stack higher than [objB] is nested, [internalDiff] returns. *)
Lemma internalDiff_fuel_enough (fuel : nat) objA objB context :
  (height objB < fuel)%nat ->
  exists r, internalDiff fuel objA objB context = Some r /\ shaped r.
Proof.
  revert objA objB context.
  induction fuel as [|fuel IH]; intros objA objB context Hh; [lia|].
  simpl. apply (internalDiff_body_total fuel); [|lia].
  intros x y c Hx. now apply IH.
Qed.

End Facts.

(** ** Totality *)

(** C2. For every pair of values and every options object [diff] returns a
    [DiffResult]: no [TypeError] is raised and the call stack is not
    exhausted; every stack higher than the nesting of the second argument
    gives that same result. *)
Theorem diff_total {RT : Runtime} (objectA objectB : value) (given : DiffOptions) :
  exists r : DiffResult,
    diff objectA objectB given = Some r /\
    forall fuel : nat, (height objectB < fuel)%nat ->
      internalDiff fuel objectA objectB (initial_context given) = Some r.
Proof.
  destruct (internalDiff_fuel_enough (S (height objectB)) objectA objectB
              (initial_context given)) as (r & Hr & _); [lia|].
  exists r. split; [exact Hr|].
  intros fuel Hfuel.
  apply (internalDiff_more_fuel (S (height objectB))); [lia|exact Hr].
Qed.

(** ** Primitive equality *)

Section Primitives.
Context {RT : Runtime}.

Lemma comparePrimitives_NaN (e : bool) :
  comparePrimitives (VNum NaN) (VNum NaN) e = false.
Proof. destruct e; reflexivity. Qed.

Lemma comparePrimitives_number_string (n : number) (s : string) :
  comparePrimitives (VNum n) (VStr s) true = num_eq n (StringToNumber s).
Proof.
  unfold comparePrimitives, coerceValues. simpl.
  destruct (StringToNumber s) eqn:Hs; simpl; trivial.
  now rewrite num_eq_NaN_r.
Qed.

Lemma comparePrimitives_string_number (s : string) (n : number) :
  comparePrimitives (VStr s) (VNum n) true = num_eq (StringToNumber s) n.
Proof.
  unfold comparePrimitives, coerceValues. simpl.
  destruct (StringToNumber s) eqn:Hs; simpl; trivial.
Qed.

(** Two different object references are never primitive-equal. *)
Lemma comparePrimitives_distinct_objects ra fa rb fb (e : bool) :
  ra <> rb -> comparePrimitives (VObj ra fa) (VObj rb fb) e = false.
Proof.
  intros Hne. unfold comparePrimitives, coerceValues. simpl.
  apply Nat.eqb_neq in Hne. rewrite Hne. now destruct e.
Qed.

(** A one-key object compared with a one-key object, when the two values
    are neither two plain objects nor two arrays. *)
Lemma diff_singleton_leaf ra rb key a b given :
  isPlainObject a && isPlainObject b = false ->
  isArray a && isArray b = false ->
  diff (VObj ra [(key, a)]) (VObj rb [(key, b)]) given =
  Some (if shouldIgnoreProperty key (ignoreProperties (merge_options given))
        then empty_result
        else if comparePrimitives a b (enableTypeCoercion (merge_options given))
             then empty_result
             else updated_at key a b).
Proof.
  intros Hplain Harr. unfold diff. cbn [internalDiff].
  unfold internalDiff_body. cbn [is_nullish typeof jstype_eqb negb andb].
  unfold compareObjects, keys. cbn [map fst fold_left for_of].
  unfold deletion_step, update_step, ignored, currentPath, has_key, own_key, prop.
  cbn [path length Nat.ltb Nat.leb options obj_get].
  rewrite !String.eqb_refl. cbn [negb orb].
  destruct (shouldIgnoreProperty key _); [reflexivity|].
  rewrite <- andb_assoc, Hplain, andb_false_r.
  assert (Hshape : forall (X : Type) (f : nat -> list value -> nat -> list value -> X) (g : X),
             match a with
             | VArr r1 i1 => match b with VArr r2 i2 => f r1 i1 r2 i2 | _ => g end
             | _ => g
             end = g).
  { intros X f g. destruct a, b; trivial. discriminate Harr. }
  rewrite Hshape. cbn [mbind option_bind].
  now destruct (comparePrimitives a b _).
Qed.

Lemma diff_singleton_mixed ra rb key a b given :
  typeof a <> typeof b ->
  diff (VObj ra [(key, a)]) (VObj rb [(key, b)]) given =
  Some (if shouldIgnoreProperty key (ignoreProperties (merge_options given))
        then empty_result
        else if comparePrimitives a b (enableTypeCoercion (merge_options given))
             then empty_result
             else updated_at key a b).
Proof.
  intros Hty. apply diff_singleton_leaf.
  - destruct a, b; simpl in *; trivial. now elim Hty.
  - destruct a, b; simpl in *; trivial. now elim Hty.
Qed.

End Primitives.

(** C10. [comparePrimitives(NaN, NaN, e)] is false for both settings of
    [enableTypeCoercion], and [diff({x: NaN}, {x: NaN})] reports
    [updates.x = {from: NaN, to: NaN}] with empty additions and deletions,
    whatever the coercion, array-order and depth options. *)
Theorem NaN_self_inequality {RT : Runtime} :
  (forall e : bool, comparePrimitives (VNum NaN) (VNum NaN) e = false) /\
  (forall (ra rb : nat) (e o : option bool) (d : option Z),
     diff (VObj ra [("x", VNum NaN)]) (VObj rb [("x", VNum NaN)])
          {| given_ignoreProperties := None; given_enableTypeCoercion := e;
             given_arrayOrderMatters := o; given_maxDepth := d |}
     = Some (updated_at "x" (VNum NaN) (VNum NaN))).
Proof.
  split; [apply comparePrimitives_NaN|].
  intros ra rb e o d.
  rewrite diff_singleton_leaf by reflexivity.
  now rewrite comparePrimitives_NaN.
Qed.

(** C4. Two non-null top-level arguments of different [typeof] kinds give the
    single update [{from: a, to: b}] whatever [enableTypeCoercion] is, while
    the same pair under a key of two objects is compared by
    [comparePrimitives] with the coercion setting. *)
Theorem top_level_coercion_asymmetry {RT : Runtime} (a b : value) (given : DiffOptions) :
  is_nullish a = false -> is_nullish b = false -> typeof a <> typeof b ->
  diff a b given = Some (updated a b) /\
  forall (ra rb : nat) (key : string),
    diff (VObj ra [(key, a)]) (VObj rb [(key, b)]) given =
    Some (if shouldIgnoreProperty key (ignoreProperties (merge_options given))
          then empty_result
          else if comparePrimitives a b (enableTypeCoercion (merge_options given))
               then empty_result
               else updated_at key a b).
Proof.
  intros Ha Hb Hty. split.
  - unfold diff. cbn [internalDiff]. unfold internalDiff_body.
    rewrite Ha, Hb. cbn [andb].
    assert (Hne : jstype_eqb (typeof a) (typeof b) = false).
    { destruct (jstype_eqb _ _) eqn:E; trivial. apply jstype_eqb_eq in E. contradiction. }
    rewrite Hne. cbn [negb]. now destruct (enableTypeCoercion _).
  - intros ra rb key. now apply diff_singleton_mixed.
Qed.

(** [diff(30, "30")] against [diff({age: 30}, {age: "30"})] on the example
    host. *)
Lemma top_level_coercion_asymmetry_witness :
  (is_nullish (VNum (num 30)) = false /\ is_nullish (VStr "30") = false
   /\ typeof (VNum (num 30)) <> typeof (VStr "30")) /\
  diff (RT := Host.decimal_host) (VNum (num 30)) (VStr "30") no_options
  = Some (updated (VNum (num 30)) (VStr "30")) /\
  diff (RT := Host.decimal_host) (VObj 1 [("age", VNum (num 30))])
       (VObj 2 [("age", VStr "30")]) no_options
  = Some empty_result.
Proof.
  assert (H1 : is_nullish (VNum (num 30)) = false) by reflexivity.
  assert (H2 : is_nullish (VStr "30") = false) by reflexivity.
  assert (H3 : typeof (VNum (num 30)) <> typeof (VStr "30")) by discriminate.
  destruct (top_level_coercion_asymmetry (RT := Host.decimal_host)
              (VNum (num 30)) (VStr "30") no_options H1 H2 H3) as [Htop Hkey].
  split; [auto|]. split; [exact Htop|].
  rewrite (Hkey 1%nat 2%nat "age"). reflexivity.
Defined.

(** C5. With coercion enabled a number [n] and a string [s] are
    primitive-equal exactly when [Number(s)] is a number (not [NaN]) equal to
    [n], in either argument order; a string that does not parse is equal to no
    number. On a host that reads ["30"] as [30],
    [diff({age: 30}, {age: "30"})] with default options is empty. *)
Theorem number_string_coercion {RT : Runtime} (n : number) (s : string) :
  (comparePrimitives (VNum n) (VStr s) true = true <->
     isNaN (StringToNumber s) = false /\ num_eq n (StringToNumber s) = true) /\
  (comparePrimitives (VStr s) (VNum n) true = true <->
     isNaN (StringToNumber s) = false /\ num_eq (StringToNumber s) n = true) /\
  (isNaN (StringToNumber s) = true ->
     comparePrimitives (VNum n) (VStr s) true = false /\
     comparePrimitives (VStr s) (VNum n) true = false) /\
  (StringToNumber "30" = num 30 ->
     forall ra rb : nat,
       diff (VObj ra [("age", VNum (num 30))]) (VObj rb [("age", VStr "30")])
            no_options = Some empty_result).
Proof.
  rewrite comparePrimitives_number_string, comparePrimitives_string_number.
  repeat split.
  - destruct (StringToNumber s); simpl; trivial.
    rewrite num_eq_NaN_r in H. discriminate.
  - tauto.
  - tauto.
  - destruct (StringToNumber s); simpl; trivial. discriminate.
  - tauto.
  - tauto.
  - apply isNaN_true in H. rewrite H. apply num_eq_NaN_r.
  - apply isNaN_true in H. now rewrite H.
  - intros H30 ra rb.
    rewrite diff_singleton_mixed by discriminate.
    change (shouldIgnoreProperty "age" (ignoreProperties (merge_options no_options)))
      with false.
    change (enableTypeCoercion (merge_options no_options)) with true.
    rewrite comparePrimitives_number_string, H30. reflexivity.
Qed.

Lemma number_string_coercion_witness :
  StringToNumber (Runtime := Host.decimal_host) "30" = num 30 /\
  comparePrimitives (RT := Host.decimal_host) (VNum (num 30)) (VStr "30") true = true /\
  comparePrimitives (RT := Host.decimal_host) (VNum (num 30)) (VStr "thirty") true = false /\
  diff (RT := Host.decimal_host) (VObj 1 [("age", VNum (num 30))])
       (VObj 2 [("age", VStr "30")]) no_options = Some empty_result.
Proof.
  assert (H30 : StringToNumber (Runtime := Host.decimal_host) "30" = num 30)
    by reflexivity.
  destruct (number_string_coercion (RT := Host.decimal_host) (num 30) "30")
    as (Heq & _ & _ & Hdiff).
  destruct (number_string_coercion (RT := Host.decimal_host) (num 30) "thirty")
    as (_ & _ & Hnan & _).
  split; [exact H30|]. split; [|split].
  - apply Heq. split; reflexivity.
  - apply Hnan. reflexivity.
  - apply (Hdiff H30).
Defined.

(** ** Property maps: reads after writes *)

Lemma obj_get_set_eq {A : Type} key (v : A) m :
  obj_get key (obj_set key v m) = Some v.
Proof.
  induction m as [|[k w] m IH]; simpl.
  - now rewrite String.eqb_refl.
  - destruct (String.eqb k key) eqn:E; simpl; rewrite E; trivial.
Qed.

Lemma obj_get_set_ne {A : Type} key key' (v : A) m :
  key <> key' -> obj_get key' (obj_set key v m) = obj_get key' m.
Proof.
  intros Hne. induction m as [|[k w] m IH]; simpl.
  - apply String.eqb_neq in Hne. now rewrite Hne.
  - destruct (String.eqb_spec k key) as [->|Hk]; simpl.
    + apply String.eqb_neq in Hne. now rewrite Hne.
    + now rewrite IH.
Qed.

Lemma obj_get_set {A : Type} key key' (v : A) m e :
  obj_get key' (obj_set key v m) = Some e ->
  (key' = key /\ e = v) \/ (key' <> key /\ obj_get key' m = Some e).
Proof.
  destruct (String.eqb_spec key key') as [->|Hne].
  - rewrite obj_get_set_eq. intros [= ->]. now left.
  - rewrite obj_get_set_ne by trivial. intros H. right. split; congruence.
Qed.

Lemma has_key_keys {RT : Runtime} key (m : list (string * value)) :
  In key (keys m) -> has_key key m = true.
Proof. intros Hin. now apply own_key_has_key, keys_own_key. Qed.

(** What is not in an object reads [undefined]. *)
Lemma prop_missing {RT : Runtime} (fields : list (string * value)) (key : string) :
  has_key key fields = false -> prop fields key = VUndefined.
Proof.
  unfold has_key, own_key, prop.
  destruct (obj_get key fields); [discriminate|].
  now destruct (Inherited key).
Qed.

(** ** Where the entries of the three maps come from *)

Section Origins.
Context {RT : Runtime}.
Variable self : callback.
Variables objA objB : list (string * value).
Variable context : ComparisonContext.

Local Abbreviation nested_at := (nested_at objA objB context).
Local Abbreviation from_nested := (from_nested self objA objB context).
Local Abbreviation accounted := (accounted self objA objB context).


Lemma accounted_empty :
  accounted {| m_additions := []; m_deletions := []; m_updates := [] |}.
Proof. repeat split; simpl; discriminate. Qed.

Lemma deletion_step_accounted m key :
  In key (keys objA) -> accounted m ->
  accounted (deletion_step objA objB context m key).
Proof.
  intros Hin Hm. pose proof Hm as (Ha & Hd & Hu). unfold deletion_step.
  destruct (ignored context key) eqn:Hig; [exact Hm|].
  destruct (has_key key objB) eqn:HB; simpl; [exact Hm|].
  split; [|split]; simpl; auto.
  intros k e Hg. apply obj_get_set in Hg as [[-> ->]|[_ Hg]]; [|now apply Hd].
  split; [exact Hig|]. split; [now apply has_key_keys|]. now left.
Qed.

Lemma deletion_loop_accounted ks m :
  (forall key, In key ks -> In key (keys objA)) -> accounted m ->
  accounted (fold_left (deletion_step objA objB context) ks m).
Proof.
  revert m. induction ks as [|k ks IH]; simpl; intros m Hks Hm; trivial.
  apply IH; [auto|]. apply deletion_step_accounted; auto.
Qed.

Lemma update_step_accounted m key m' :
  In key (keys objB) -> accounted m ->
  update_step self objA objB context m key = Some m' -> accounted m'.
Proof.
  intros Hin Hm. pose proof Hm as (Ha & Hd & Hu). unfold update_step.
  pose proof (has_key_keys _ _ Hin) as HB.
  destruct (ignored context key) eqn:Hig; [now intros [= <-]|].
  destruct (has_key key objA) eqn:HA; simpl.
  2:{ intros [= <-]. split; [|split]; simpl; auto.
      intros k e Hg. apply obj_get_set in Hg as [[-> ->]|[_ Hg]]; [|now apply Ha].
      split; [exact Hig|]. split; [exact HB|]. now left. }
  fold (nested_at key). destruct (nested_at key) eqn:Hn.
  - destruct (self _ _ _) as [nr|] eqn:Hs; simpl; [|discriminate].
    destruct (has_keys (additions nr)) as [a|]; simpl; [|discriminate].
    destruct (has_keys (deletions nr)) as [d|]; simpl; [|discriminate].
    destruct (has_keys (updates nr)) as [u|]; simpl; [|discriminate].
    intros [= <-].
    assert (Hnest : forall part, from_nested part key (part nr)).
    { intros part. split; [exact Hn|]. eauto. }
    split; [|split]; simpl; intros k e Hg.
    + destruct a; [|now apply Ha].
      apply obj_get_set in Hg as [[-> ->]|[_ Hg]]; [|now apply Ha].
      split; [exact Hig|]. split; [exact HB|]. right. auto.
    + destruct d; [|now apply Hd].
      apply obj_get_set in Hg as [[-> ->]|[_ Hg]]; [|now apply Hd].
      split; [exact Hig|]. split; [exact HA|]. right. auto.
    + destruct u; [|now apply Hu].
      apply obj_get_set in Hg as [[-> ->]|[_ Hg]]; [|now apply Hu].
      split; [exact Hig|]. split; [exact HA|]. split; [exact HB|]. left. auto.
  - assert (Hleaf :
              accounted {| m_additions := m_additions m;
                           m_deletions := m_deletions m;
                           m_updates := obj_set key
                              (DFromTo (prop objA key) (prop objB key)) (m_updates m) |}).
    { split; [|split]; simpl; auto.
      intros k e Hg. apply obj_get_set in Hg as [[-> ->]|[_ Hg]]; [|now apply Hu].
      split; [exact Hig|]. split; [exact HA|]. split; [exact HB|]. right. auto. }
    destruct (prop objA key) eqn:EA;
      try (destruct (negb _); intros [= <-]; auto; fail).
    destruct (prop objB key) eqn:EB;
      try (destruct (negb _); intros [= <-]; auto; fail).
    destruct (compareArrays _ _ _ _) as [eq|]; simpl; [|discriminate].
    destruct (negb eq); intros [= <-]; auto.
Qed.

Lemma update_loop_accounted ks m m' :
  (forall key, In key ks -> In key (keys objB)) -> accounted m ->
  for_of (update_step self objA objB context) ks m = Some m' -> accounted m'.
Proof.
  revert m. induction ks as [|k ks IH]; simpl; intros m Hks Hm.
  - now intros [= <-].
  - destruct (update_step _ _ _ _ m k) as [m1|] eqn:Hs; simpl; [|discriminate].
    apply IH; [auto|]. eapply update_step_accounted; eauto.
Qed.

(** The maps [compareObjects] returns. *)
Lemma compareObjects_accounted r :
  compareObjects self objA objB context = Some r ->
  exists m, accounted m /\
    r = {| additions := DMap (m_additions m); deletions := DMap (m_deletions m);
           updates := DMap (m_updates m) |}.
Proof.
  unfold compareObjects.
  destruct (for_of _ _ _) as [m|] eqn:Hf; simpl; [|discriminate].
  intros [= <-]. exists m. split; [|reflexivity].
  eapply update_loop_accounted; [| |exact Hf]; auto.
  apply deletion_loop_accounted; auto using accounted_empty.
Qed.

End Origins.

(** ** The key partition *)

Section Partition.
Context {RT : Runtime}.

Lemma internalDiff_objects (fuel : nat) ra fa rb fb context :
  internalDiff (S fuel) (VObj ra fa) (VObj rb fb) context
  = compareObjects (internalDiff fuel) fa fb context.
Proof. reflexivity. Qed.

(** The three maps of a comparison of two plain objects are built maps. *)
Lemma internalDiff_objects_maps (fuel : nat) a b context r :
  isPlainObject a = true -> isPlainObject b = true ->
  internalDiff fuel a b context = Some r ->
  is_nested_map (additions r) = true /\ is_nested_map (deletions r) = true
  /\ is_nested_map (updates r) = true.
Proof.
  destruct a as [| | | | | |ra fa| |]; try discriminate.
  destruct b as [| | | | | |rb fb| |]; try discriminate.
  intros _ _. destruct fuel as [|fuel]; [discriminate|].
  rewrite internalDiff_objects. intros H.
  apply compareObjects_accounted in H as (m & _ & ->). now repeat split.
Qed.

Lemma nested_at_plain objA objB context key :
  nested_at objA objB context key = true ->
  depth_left context = true /\ isPlainObject (prop objA key) = true
  /\ isPlainObject (prop objB key) = true.
Proof.
  unfold nested_at. intros H.
  apply andb_prop in H as [H H3]. apply andb_prop in H as [H1 H2]. auto.
Qed.

Lemma from_nested_entry (fuel : nat) objA objB context part key e :
  part = additions \/ part = deletions \/ part = updates ->
  has_key key objA = true -> has_key key objB = true ->
  from_nested (internalDiff fuel) objA objB context part key e ->
  nested_entry fuel objA objB context part key e.
Proof.
  intros Hpart HA HB (Hn & nr & Hnr & ->).
  split; [exact Hn|]. split; [exact HA|]. split; [exact HB|].
  exists nr. split; [exact Hnr|]. split; [reflexivity|].
  apply nested_at_plain in Hn as (_ & HpA & HpB).
  destruct (internalDiff_objects_maps _ _ _ _ _ HpA HpB Hnr) as (M1 & M2 & M3).
  destruct Hpart as [->|[->| ->]]; trivial.
Qed.

(** Each entry is either scalar, with the key on the side(s) that the map
    stands for, or a part of the nested comparison. *)
Lemma entries_classified (fuel : nat) objA objB context m :
  accounted (internalDiff fuel) objA objB context m ->
  forall key,
    (forall e, obj_get key (m_additions m) = Some e ->
       (has_key key objA = false /\ has_key key objB = true /\
        is_nested_map e = false) \/
       nested_entry fuel objA objB context additions key e) /\
    (forall e, obj_get key (m_deletions m) = Some e ->
       (has_key key objA = true /\ has_key key objB = false /\
        is_nested_map e = false) \/
       nested_entry fuel objA objB context deletions key e) /\
    (forall e, obj_get key (m_updates m) = Some e ->
       (has_key key objA = true /\ has_key key objB = true /\
        nested_at objA objB context key = false /\ is_nested_map e = false) \/
       nested_entry fuel objA objB context updates key e).
Proof.
  intros (Ha & Hd & Hu) key. split; [|split]; intros e He.
  - destruct (Ha key e He) as (_ & HB & [[HA ->]|[HA Hn]]); [left; auto|].
    right. apply from_nested_entry; auto.
  - destruct (Hd key e He) as (_ & HA & [[HB ->]|[HB Hn]]); [left; auto|].
    right. apply from_nested_entry; auto.
  - destruct (Hu key e He) as (_ & HA & HB & [Hn|[Hn ->]]); [|left; auto].
    right. apply from_nested_entry; auto.
Qed.

Lemma compareObjects_partitioned (fuel : nat) objA objB context r :
  compareObjects (internalDiff fuel) objA objB context = Some r ->
  key_partitioned (internalDiff fuel) objA objB context r.
Proof.
  intros H. apply compareObjects_accounted in H as (m & Hm & ->).
  exists (m_additions m), (m_deletions m), (m_updates m).
  split; [reflexivity|]. intros key.
  destruct (entries_classified _ _ _ _ _ Hm key) as (FA & FD & FU).
  unfold nested_entry in *.
  assert (Habsent : forall (m' : list (string * dval)),
            (forall e, obj_get key m' = Some e -> False) -> obj_get key m' = None).
  { intros m' Hno. destruct (obj_get key m') as [e|]; trivial. elim (Hno e eq_refl). }
  split; [|split; [|split]].
  - intros (e & He & Hs).
    destruct (FA e He) as [(A1 & A2 & _)|(_ & _ & _ & nr & _ & _ & ?)]; [|congruence].
    split; apply Habsent; intros e' He'.
    + destruct (FD e' He') as [(? & ? & _)|(_ & ? & _)]; congruence.
    + destruct (FU e' He') as [(? & ? & _)|(_ & ? & _)]; congruence.
  - intros (e & He & Hs).
    destruct (FD e He) as [(A1 & A2 & _)|(_ & _ & _ & nr & _ & _ & ?)]; [|congruence].
    split; apply Habsent; intros e' He'.
    + destruct (FA e' He') as [(? & ? & _)|(_ & _ & ? & _)]; congruence.
    + destruct (FU e' He') as [(_ & ? & _)|(_ & _ & ? & _)]; congruence.
  - intros (e & He & Hs).
    destruct (FU e He) as [(A1 & A2 & A3 & _)|(_ & _ & _ & nr & _ & _ & ?)];
      [|congruence].
    split; apply Habsent; intros e' He'.
    + destruct (FA e' He') as [(? & ? & _)|(? & _)]; congruence.
    + destruct (FD e' He') as [(? & ? & _)|(? & _)]; congruence.
  - intros Hmulti.
    assert (Hn : nested_at objA objB context key = true
                 /\ has_key key objA = true /\ has_key key objB = true).
    { destruct Hmulti as [[[e He] [e' He']]|[[[e He] [e' He']]|[[e He] [e' He']]]].
      - destruct (FA e He) as [(? & ? & _)|(? & ? & ? & _)]; auto.
        destruct (FD e' He') as [(? & ? & _)|(? & ? & ? & _)]; auto; congruence.
      - destruct (FA e He) as [(? & ? & _)|(? & ? & ? & _)]; auto.
        destruct (FU e' He') as [(? & ? & _)|(? & ? & ? & _)]; auto; congruence.
      - destruct (FD e He) as [(? & ? & _)|(? & ? & ? & _)]; auto.
        destruct (FU e' He') as [(? & ? & _)|(? & ? & ? & _)]; auto; congruence. }
    destruct Hn as (Hn & HkA & HkB).
    destruct (nested_at_plain _ _ _ _ Hn) as (_ & HpA & HpB).
    do 4 (split; [assumption|]).
    destruct (internalDiff fuel (prop objA key) (prop objB key) (descend context key))
      as [nr|] eqn:Hnr.
    2:{ exfalso.
        destruct Hmulti as [[[e He] _]|[[[e He] _]|[[e He] _]]].
        - destruct (FA e He) as [(? & _)|(_ & _ & _ & nr & ? & _)]; congruence.
        - destruct (FA e He) as [(? & _)|(_ & _ & _ & nr & ? & _)]; congruence.
        - destruct (FD e He) as [(_ & ? & _)|(_ & _ & _ & nr & ? & _)]; congruence. }
    exists nr. split; [reflexivity|].
    split; [|split]; intros e He.
    + destruct (FA e He) as [(? & _)|(_ & _ & _ & nr' & [= <-] & -> & ?)];
        [congruence|auto].
    + destruct (FD e He) as [(_ & ? & _)|(_ & _ & _ & nr' & [= <-] & -> & ?)];
        [congruence|auto].
    + destruct (FU e He) as [(_ & _ & ? & _)|(_ & _ & _ & nr' & [= <-] & -> & ?)];
        [congruence|auto].
Qed.

End Partition.

(** C8. Whenever two plain objects are compared, at whatever nesting level
    (any stack height, any context), a key has a scalar entry in at most one
    of [additions], [deletions] and [updates], and then no other entry at
    all; a key with entries in more than one map has, in each, the
    corresponding map of the nested comparison of two object-valued fields
    present on both sides. *)
Theorem key_partition {RT : Runtime} (fuel : nat) (ra rb : nat)
    (objA objB : list (string * value)) (context : ComparisonContext)
    (r : DiffResult) :
  internalDiff fuel (VObj ra objA) (VObj rb objB) context = Some r ->
  key_partitioned (internalDiff (pred fuel)) objA objB context r.
Proof.
  destruct fuel as [|fuel]; [discriminate|].
  rewrite internalDiff_objects. apply compareObjects_partitioned.
Qed.

Lemma key_partition_witness :
  internalDiff (RT := Host.decimal_host) 3 (VObj 1 PartitionExample.objA)
    (VObj 2 PartitionExample.objB) (initial_context no_options)
  = Some PartitionExample.result /\
  key_partitioned (RT := Host.decimal_host)
    (internalDiff (RT := Host.decimal_host) 2)
    PartitionExample.objA PartitionExample.objB (initial_context no_options)
    PartitionExample.result.
Proof.
  assert (H : internalDiff (RT := Host.decimal_host) 3 (VObj 1 PartitionExample.objA)
                (VObj 2 PartitionExample.objB) (initial_context no_options)
              = Some PartitionExample.result) by (vm_compute; reflexivity).
  split; [exact H|].
  exact (key_partition (RT := Host.decimal_host) 3 1 2 _ _ _ _ H).
Defined.

(** ** Enough stack for the depth limit *)

Section WithinDepth.
Context {RT : Runtime}.

Local Abbreviation levels_left c :=
  (Z.to_nat (maxDepth (options c) - Z.of_nat (depth c))).

Lemma descend_levels_left (context : ComparisonContext) (segment : string) (n : nat) :
  depth_left context = true ->
  (levels_left context <= n)%nat ->
  (levels_left (descend context segment) < n)%nat.
Proof.
  unfold depth_left. intros Hd%Z.ltb_lt. cbn [descend depth options]. lia.
Qed.

Lemma compare_in_order_within (n : nat) (self : callback) context items :
  total_within n self ->
  (levels_left context <= n)%nat ->
  forall i, exists b, compare_in_order self context i items = Some b.
Proof.
  intros Hself Hn. induction items as [|[itemA itemB] rest IH]; intros i; simpl.
  - eauto.
  - destruct (non_object itemA && non_object itemB).
    { destruct (negb _); eauto. }
    destruct (is_object itemA && is_object itemB && depth_left context) eqn:Hd;
      eauto.
    apply andb_prop in Hd as [_ Hd].
    destruct (Hself itemA itemB (descend context (pretty (N.of_nat i))))
      as (dr & -> & [a Ha] & [d Hd'] & [u Hu]).
    { now apply descend_levels_left. }
    simpl. rewrite Ha, Hd', Hu. simpl.
    destruct a; eauto. destruct d; eauto. destruct u; eauto.
Qed.

Lemma compareArrays_within (n : nat) (self : callback) arrayA arrayB context :
  total_within n self ->
  (levels_left context <= n)%nat ->
  exists b, compareArrays self arrayA arrayB context = Some b.
Proof.
  intros Hself Hn. unfold compareArrays.
  destruct (negb _); eauto. destruct (Nat.eqb _ 0); eauto.
  destruct (negb _ && _); eauto.
  now apply (compare_in_order_within n).
Qed.

Lemma update_step_within (n : nat) (self : callback) objA objB context result key :
  total_within n self ->
  (levels_left context <= n)%nat ->
  exists m, update_step self objA objB context result key = Some m.
Proof.
  intros Hself Hn. unfold update_step.
  destruct (ignored context key); eauto.
  destruct (negb (has_key key objA)); eauto.
  destruct (depth_left context && isPlainObject (prop objA key)
            && isPlainObject (prop objB key)) eqn:Hd.
  - apply andb_prop in Hd as [Hd _]. apply andb_prop in Hd as [Hd _].
    destruct (Hself (prop objA key) (prop objB key) (descend context key))
      as (dr & -> & [a Ha] & [d Hd'] & [u Hu]).
    { now apply descend_levels_left. }
    simpl. rewrite Ha, Hd', Hu. simpl. eauto.
  - destruct (prop objA key) as [| | | | |ra itemsA| | |] eqn:HA; eauto.
    destruct (prop objB key) as [| | | | |rb itemsB| | |] eqn:HB; eauto.
    destruct (compareArrays_within n self itemsA itemsB (extend_path context key) Hself)
      as [b ->]; simpl; eauto.
Qed.

Lemma internalDiff_body_within (n : nat) (self : callback) objA objB context :
  total_within n self ->
  (levels_left context <= n)%nat ->
  exists r, internalDiff_body self objA objB context = Some r /\ shaped r.
Proof.
  intros Hself Hn. unfold internalDiff_body.
  assert (Hempty : shaped empty_result) by (repeat split; simpl; eauto).
  assert (Hupd : shaped {| additions := additions empty_result;
                           deletions := deletions empty_result;
                           updates := DFromTo objA objB |})
    by (repeat split; simpl; eauto).
  destruct (is_nullish objA) eqn:HnA, (is_nullish objB) eqn:HnB; simpl.
  - eauto.
  - eexists; split; [reflexivity|].
    repeat split; try (now apply has_keys_DVal); simpl; eauto.
  - eexists; split; [reflexivity|].
    repeat split; try (now apply has_keys_DVal); simpl; eauto.
  - destruct (negb (jstype_eqb (typeof objA) (typeof objB))).
    { destruct (enableTypeCoercion (options context)); eauto. }
    destruct objA as [| | | | |ra itemsA|ra fieldsA| |] eqn:EA;
      try (destruct (negb (comparePrimitives _ _ _)); eauto; fail).
    + destruct objB as [| | | | |rb itemsB| | |] eqn:EB;
        try (destruct (negb (comparePrimitives _ _ _)); eauto; fail).
      destruct (compareArrays_within n self itemsA itemsB context Hself Hn)
        as [b ->].
      simpl. destruct (negb b); eauto.
    + destruct objB as [| | | | | |rb fieldsB| |] eqn:EB;
        try (destruct (negb (comparePrimitives _ _ _)); eauto; fail).
      unfold compareObjects.
      edestruct (for_of_total (update_step self fieldsA fieldsB context)
                   (keys fieldsB)) as [m ->].
      * intros s k _. now apply (update_step_within n).
      * simpl. eexists; split; [reflexivity|]. repeat split; simpl; eauto.
Qed.

Lemma internalDiff_within (fuel : nat) objA objB context :
  (levels_left context < fuel)%nat ->
  exists r, internalDiff fuel objA objB context = Some r /\ shaped r.
Proof.
  revert objA objB context.
  induction fuel as [|fuel IH]; intros objA objB context Hn; [lia|].
  simpl. apply (internalDiff_body_within fuel); [|lia].
  intros x y c Hc. now apply IH.
Qed.

End WithinDepth.

(** ** The depth boundary *)

Section DepthBoundary.
Context {RT : Runtime}.
Variable self : callback.
Variables objA objB : list (string * value).
Variable context : ComparisonContext.
Variable key : string.
Variables (ra rb : nat) (fa fb : list (string * value)).

Hypothesis depth_reached : maxDepth (options context) <= Z.of_nat (depth context).
Hypothesis not_ignored : ignored context key = false.
Hypothesis in_A : obj_get key objA = Some (VObj ra fa).
Hypothesis in_B : obj_get key objB = Some (VObj rb fb).
Hypothesis distinct : ra <> rb.

Lemma depth_left_false : depth_left context = false.
Proof. unfold depth_left. apply Z.ltb_ge. exact depth_reached. Qed.

(** The turn of the loop for [key] records the update. *)
Lemma update_step_opaque m :
  update_step self objA objB context m key =
  Some {| m_additions := m_additions m; m_deletions := m_deletions m;
          m_updates := obj_set key (DFromTo (VObj ra fa) (VObj rb fb))
                               (m_updates m) |}.
Proof.
  unfold update_step, has_key, own_key, prop.
  rewrite not_ignored, in_A, in_B, depth_left_false. cbn [negb andb orb].
  now rewrite comparePrimitives_distinct_objects.
Qed.

(** The turns for the other keys leave the entry alone. *)
Lemma update_step_keeps m k m' e :
  update_step self objA objB context m k = Some m' ->
  obj_get key (m_updates m) = Some e ->
  e = DFromTo (VObj ra fa) (VObj rb fb) ->
  obj_get key (m_updates m') = Some e.
Proof.
  intros Hstep Hget He.
  destruct (String.eqb_spec k key) as [->|Hne].
  - rewrite update_step_opaque in Hstep. injection Hstep as <-. simpl.
    rewrite He. apply obj_get_set_eq.
  - revert Hstep. unfold update_step.
    destruct (ignored context k); [now intros [= <-]|].
    destruct (negb (has_key k objA)).
    { intros [= <-]. exact Hget. }
    rewrite depth_left_false. cbn [andb].
    assert (Hset : forall v, obj_get key (obj_set k v (m_updates m)) = Some e).
    { intros v. now rewrite obj_get_set_ne. }
    destruct (prop objA k);
      try (destruct (negb _); intros [= <-]; simpl; auto; fail).
    destruct (prop objB k);
      try (destruct (negb _); intros [= <-]; simpl; auto; fail).
    destruct (compareArrays _ _ _ _) as [eq|]; simpl; [|discriminate].
    destruct (negb eq); intros [= <-]; simpl; auto.
Qed.

Lemma update_loop_keeps ks m m' :
  for_of (update_step self objA objB context) ks m = Some m' ->
  obj_get key (m_updates m) = Some (DFromTo (VObj ra fa) (VObj rb fb)) ->
  obj_get key (m_updates m') = Some (DFromTo (VObj ra fa) (VObj rb fb)).
Proof.
  revert m. induction ks as [|k ks IH]; simpl; intros m.
  - now intros [= <-].
  - destruct (update_step _ _ _ _ m k) as [m1|] eqn:Hs; simpl; [|discriminate].
    intros Hloop Hget. apply (IH m1 Hloop).
    eapply update_step_keeps; eauto.
Qed.

Lemma update_loop_opaque ks m m' :
  In key ks ->
  for_of (update_step self objA objB context) ks m = Some m' ->
  obj_get key (m_updates m') = Some (DFromTo (VObj ra fa) (VObj rb fb)).
Proof.
  revert m. induction ks as [|k ks IH]; simpl; intros m Hin; [tauto|].
  destruct (update_step _ _ _ _ m k) as [m1|] eqn:Hs; simpl; [|discriminate].
  intros Hloop.
  destruct (String.eqb_spec k key) as [->|Hne].
  - apply (update_loop_keeps ks m1); trivial.
    rewrite update_step_opaque in Hs. injection Hs as <-. simpl.
    apply obj_get_set_eq.
  - destruct Hin as [->|Hin]; [congruence|]. apply (IH m1); trivial.
Qed.

Lemma compareObjects_opaque r :
  compareObjects self objA objB context = Some r ->
  exists upds, updates r = DMap upds /\
    obj_get key upds = Some (DFromTo (VObj ra fa) (VObj rb fb)).
Proof.
  unfold compareObjects.
  destruct (for_of _ _ _) as [m|] eqn:Hf; simpl; [|discriminate].
  intros [= <-]. exists (m_updates m). split; [reflexivity|].
  eapply update_loop_opaque; [|exact Hf].
  apply own_key_keys. unfold own_key. now rewrite in_B.
Qed.

End DepthBoundary.

(** C7. Two plain objects are compared at a depth that has reached
    [maxDepth] ([maxDepth <= depth], so at every depth when [maxDepth] is
    [0]); [key] is one of the keys the loop compares, and holds a plain object
    on each side, the two being distinct references. Then the comparison
    returns and [updates[key]] is [{from, to}] made of the two objects,
    whatever their contents, equal or not. *)
Theorem depth_boundary_opaque {RT : Runtime} (fuel : nat) (pa pb : nat)
    (objA objB : list (string * value)) (context : ComparisonContext)
    (key : string) (ra rb : nat) (fa fb : list (string * value)) :
  maxDepth (options context) <= Z.of_nat (depth context) ->
  ignored context key = false ->
  obj_get key objA = Some (VObj ra fa) ->
  obj_get key objB = Some (VObj rb fb) ->
  ra <> rb ->
  (height (VObj pa objA) < fuel)%nat ->
  exists r upds,
    internalDiff fuel (VObj pa objA) (VObj pb objB) context = Some r /\
    updates r = DMap upds /\
    obj_get key upds = Some (DFromTo (VObj ra fa) (VObj rb fb)).
Proof.
  intros Hdepth Hig HA HB Hne Hfuel.
  destruct (internalDiff_within fuel (VObj pa objA) (VObj pb objB) context)
    as (r & Hr & _); [lia|].
  destruct fuel as [|fuel]; [discriminate|].
  pose proof Hr as Hc. rewrite internalDiff_objects in Hc.
  destruct (compareObjects_opaque _ _ _ _ _ _ _ _ _ Hdepth Hig HA HB Hne _ Hc)
    as (upds & Hu & Hget).
  exists r, upds. auto.
Qed.

Lemma depth_boundary_opaque_witness :
  exists r upds,
    diff (RT := Host.decimal_host) (VObj 1 [("k", DepthExample.inner1)])
         (VObj 2 [("k", DepthExample.inner2)]) DepthExample.given = Some r /\
    updates r = DMap upds /\
    obj_get "k" upds = Some (DFromTo DepthExample.inner1 DepthExample.inner2).
Proof.
  apply (depth_boundary_opaque (RT := Host.decimal_host) 3 1 2
           [("k", DepthExample.inner1)] [("k", DepthExample.inner2)]
           (initial_context DepthExample.given) "k" 3 4
           [("v", VNum (num 1))] [("v", VNum (num 1))]).
  - vm_compute. discriminate.
  - reflexivity.
  - reflexivity.
  - reflexivity.
  - lia.
  - simpl. lia.
Defined.

(** ** Ignore patterns *)

Lemma recorded_occurs p d : recorded p d -> occurs p d.
Proof. induction 1; eauto using occurs. Qed.

Lemma string_app_assoc (s t u : string) : ((s ++ t) ++ u = s ++ (t ++ u))%string.
Proof.
  induction s as [|c s IH]; [reflexivity|].
  change (String c ((s ++ t) ++ u) = String c (s ++ (t ++ u)))%string.
  now rewrite IH.
Qed.

Lemma join_dot_snoc (segments : list string) (key : string) :
  segments <> [] ->
  join_dot (segments ++ [key]) = (join_dot segments ++ "." ++ key)%string.
Proof.
  unfold join_dot. induction segments as [|x xs IH]; [congruence|]. intros _.
  destruct xs as [|y ys]; [reflexivity|].
  change (String.concat "." ((x :: y :: ys) ++ [key]))
    with (x ++ "." ++ String.concat "." ((y :: ys) ++ [key]))%string.
  rewrite IH by discriminate.
  change (String.concat "." (x :: y :: ys))
    with (x ++ "." ++ String.concat "." (y :: ys))%string.
  now rewrite !string_app_assoc.
Qed.

Lemma currentPath_join (context : ComparisonContext) (key : string) :
  currentPath context key = join_dot (path context ++ [key]).
Proof.
  unfold currentPath. destruct (path context) as [|x xs] eqn:E; [reflexivity|].
  cbn [length Nat.ltb Nat.leb]. now rewrite join_dot_snoc.
Qed.

Section IgnorePatterns.
Context {RT : Runtime}.

(** Outside the comparison of two plain objects no key is recorded. *)
Lemma internalDiff_body_leaf (self : callback) a b context r p :
  isPlainObject a && isPlainObject b = false ->
  internalDiff_body self a b context = Some r ->
  ~ recorded p (additions r) /\ ~ recorded p (deletions r)
  /\ ~ recorded p (updates r).
Proof.
  intros Hplain. unfold internalDiff_body.
  assert (Hnone : forall d, d = DMap [] \/ (exists v, d = DVal v)
                            \/ (exists x y, d = DFromTo x y) -> ~ recorded p d).
  { intros d [->|[[v ->]|(x & y & ->)]] Hrec; inversion Hrec; discriminate. }
  assert (Hres : forall res : DiffResult,
            (additions res = DMap [] \/ exists v, additions res = DVal v) ->
            (deletions res = DMap [] \/ exists v, deletions res = DVal v) ->
            (updates res = DMap [] \/ exists x y, updates res = DFromTo x y) ->
            Some res = Some r ->
            ~ recorded p (additions r) /\ ~ recorded p (deletions r)
            /\ ~ recorded p (updates r)).
  { intros res Ha Hd Hu [= <-]. repeat split; apply Hnone; tauto. }
  destruct (is_nullish a && is_nullish b).
  { apply Hres; simpl; eauto. }
  destruct (is_nullish a). { apply Hres; simpl; eauto. }
  destruct (is_nullish b). { apply Hres; simpl; eauto. }
  destruct (negb (jstype_eqb (typeof a) (typeof b))).
  { destruct (enableTypeCoercion (options context)); apply Hres; simpl; eauto. }
  destruct a, b; try discriminate Hplain;
    try (destruct (negb (comparePrimitives _ _ _)); apply Hres; simpl; eauto; fail).
  destruct (compareArrays _ _ _ _) as [eq|]; simpl; [|discriminate].
  destruct (negb eq); apply Hres; simpl; eauto.
Qed.

Lemma recorded_not_ignored (fuel : nat) :
  forall a b context r p,
    internalDiff fuel a b context = Some r ->
    recorded p (additions r) \/ recorded p (deletions r)
    \/ recorded p (updates r) ->
    ignores context p = false.
Proof.
  induction fuel as [|fuel IH]; intros a b context r p; [discriminate|].
  cbn [internalDiff]. intros Hr Hrec.
  destruct (isPlainObject a && isPlainObject b) eqn:Hplain.
  2:{ destruct (internalDiff_body_leaf _ _ _ _ _ p Hplain Hr) as (N1 & N2 & N3).
      tauto. }
  destruct a as [| | | | | |ra fa| |]; try discriminate.
  destruct b as [| | | | | |rb fb| |]; try discriminate.
  change (compareObjects (internalDiff fuel) fa fb context = Some r) in Hr.
  apply compareObjects_accounted in Hr as (m & (Ha & Hd & Hu) & ->).
  cbn [additions deletions updates] in Hrec.
  assert (Hkey : forall key, ignored context key = false ->
                             ignores context [key] = false).
  { intros key Hk. unfold ignores. now rewrite <- currentPath_join. }
  assert (Hdown : forall key p' part nr,
            internalDiff fuel (prop fa key) (prop fb key) (descend context key)
              = Some nr ->
            part = additions \/ part = deletions \/ part = updates ->
            recorded p' (part nr) -> ignores context (key :: p') = false).
  { intros key p' part nr Hnr Hpart Hp'.
    assert (Hi : ignores (descend context key) p' = false).
    { apply (IH _ _ _ nr _ Hnr).
      destruct Hpart as [->|[->| ->]]; auto. }
    unfold ignores in *. cbn [path options descend] in Hi.
    now rewrite <- app_assoc in Hi. }
  destruct Hrec as [Hrec|[Hrec|Hrec]]; inversion Hrec as [key es e Hg|key p' es e Hg Hp'];
    subst.
  - destruct (Ha key e Hg) as (Hig & _). auto.
  - destruct (Ha key e Hg) as (_ & _ & [[_ ->]|[_ (_ & nr & Hnr & ->)]]).
    + inversion Hp'.
    + apply (Hdown key p' additions nr Hnr); auto.
  - destruct (Hd key e Hg) as (Hig & _). auto.
  - destruct (Hd key e Hg) as (_ & _ & [[_ ->]|[_ (_ & nr & Hnr & ->)]]).
    + inversion Hp'.
    + apply (Hdown key p' deletions nr Hnr); auto.
  - destruct (Hu key e Hg) as (Hig & _). auto.
  - destruct (Hu key e Hg) as (_ & _ & _ & [(_ & nr & Hnr & ->)|[_ ->]]).
    + apply (Hdown key p' updates nr Hnr); auto.
    + inversion Hp'.
Qed.

End IgnorePatterns.

(** C3, as the code has it. A key whose dotted path matches an ignore
    pattern gets no entry from the field-wise comparison, in none of the three
    maps and at no nesting level that the comparison reaches. (Values that
    are carried over whole, such as an added subtree, are not filtered.) *)
Theorem ignored_never_recorded {RT : Runtime} (objectA objectB : value)
    (given : DiffOptions) (r : DiffResult) (p : list string) :
  diff objectA objectB given = Some r ->
  shouldIgnoreProperty (join_dot p) (ignoreProperties (merge_options given)) = true ->
  ~ recorded p (additions r) /\ ~ recorded p (deletions r)
  /\ ~ recorded p (updates r).
Proof.
  intros Hr Hig.
  assert (H : ~ (recorded p (additions r) \/ recorded p (deletions r)
                 \/ recorded p (updates r))).
  { intros Hrec.
    pose proof (recorded_not_ignored _ _ _ _ _ p Hr Hrec) as Hno.
    unfold ignores in Hno. cbn [path options app] in Hno. congruence. }
  tauto.
Qed.

Lemma ignored_never_recorded_witness :
  diff (RT := Host.decimal_host) IgnoreExample.objectA IgnoreExample.objectB
       IgnoreExample.given = Some IgnoreExample.result /\
  shouldIgnoreProperty (join_dot ["user"; "_id"])
    (ignoreProperties (merge_options IgnoreExample.given)) = true /\
  (~ recorded ["user"; "_id"] (additions IgnoreExample.result) /\
   ~ recorded ["user"; "_id"] (deletions IgnoreExample.result) /\
   ~ recorded ["user"; "_id"] (updates IgnoreExample.result)).
Proof.
  assert (H1 : diff (RT := Host.decimal_host) IgnoreExample.objectA
                 IgnoreExample.objectB IgnoreExample.given
               = Some IgnoreExample.result) by (vm_compute; reflexivity).
  assert (H2 : shouldIgnoreProperty (join_dot ["user"; "_id"])
                 (ignoreProperties (merge_options IgnoreExample.given)) = true)
    by reflexivity.
  split; [exact H1|]. split; [exact H2|].
  exact (ignored_never_recorded (RT := Host.decimal_host) _ _ _ _ _ H1 H2).
Defined.

(** C3 as the specification states it fails: an object added as a whole
    brings its ignored key along. [additions.user._id] is present although
    ["user._id"] is ignored. *)
Lemma ignored_path_in_added_subtree :
  shouldIgnoreProperty (join_dot ["user"; "_id"])
    (ignoreProperties (merge_options IgnoreExample.given)) = true /\
  exists r,
    diff (RT := Host.decimal_host) IgnoreExample.emptyA IgnoreExample.addedB
         IgnoreExample.given = Some r /\
    additions r = DMap [("user", DVal (VObj 4 [("_id", VStr "456")]))] /\
    occurs ["user"; "_id"] (additions r).
Proof.
  split; [reflexivity|].
  eexists. split; [vm_compute; reflexivity|]. split; [reflexivity|].
  cbn [additions].
  eapply occurs_below; [reflexivity|].
  apply occurs_value. eapply value_path_key. reflexivity.
Qed.

(** ** Identity *)

Lemma non_object_or_object (v : value) : non_object v = negb (is_object v).
Proof. destruct v as [| | | | | | | |r []]; reflexivity. Qed.

Section Identity.
Context {RT : Runtime}.

Lemma In_sort_insert x y l : In y (sort_insert x l) -> y = x \/ In y l.
Proof.
  induction l as [|z l IH]; simpl.
  - intros [<-|[]]. now left.
  - destruct (String.leb _ _); simpl.
    + intros [<-|[<-|H]]; auto.
    + intros [<-|H]; auto. destruct (IH H); auto.
Qed.

Lemma In_sorted l y : In y (foldr sort_insert [] l) -> In y l.
Proof.
  induction l as [|x l IH]; simpl; [tauto|].
  intros H. apply In_sort_insert in H as [->|H]; auto.
Qed.

Lemma In_default_sort l y : In y (default_sort l) -> In y l.
Proof.
  unfold default_sort. rewrite in_app_iff. intros [H|H].
  - apply In_sorted in H. now apply filter_In in H.
  - now apply filter_In in H.
Qed.

Lemma In_combine_same {A : Type} (l : list A) x y :
  In (x, y) (combine l l) -> x = y /\ In x l.
Proof.
  induction l as [|z l IH]; simpl; [tauto|].
  intros [[= <- <-]|H]; [auto|]. destruct (IH H); auto.
Qed.

Variable self : callback.
Variable n : nat.

Local Abbreviation levels_left c :=
  (Z.to_nat (maxDepth (options c) - Z.of_nat (depth c))).

(** What [compareArrays] asks of an element with [k] levels left. *)
Local Abbreviation item_same k item :=
  (if is_object item
   then match k with S k' => same_to_itself k' item | O => false end
   else match item with VNum x => negb (isNaN x) | _ => true end).

(** [self] finds no difference between a value lower than [n] and itself,
    when all its comparisons succeed. *)
Hypothesis self_identity :
  forall x c, (height x < n)%nat ->
    same_to_itself (levels_left c) x = true ->
    self x x c = Some empty_result.

Lemma same_not_NaN (k : nat) (x : value) :
  same_to_itself k x = true -> x <> VNum NaN.
Proof. intros H ->. discriminate H. Qed.

Lemma item_same_not_NaN (k : nat) (x : value) :
  is_object x = false -> item_same k x = true -> x <> VNum NaN.
Proof. intros -> H ->. discriminate H. Qed.

Lemma levels_left_descend context key k :
  levels_left context = S k -> levels_left (descend context key) = k.
Proof. cbn [descend depth options]. lia. Qed.

Lemma levels_left_depth_left context k :
  levels_left context = S k -> depth_left context = true.
Proof. intros H. unfold depth_left. apply Z.ltb_lt. lia. Qed.

Lemma levels_left_O context :
  levels_left context = O -> depth_left context = false.
Proof. intros H. unfold depth_left. apply Z.ltb_ge. lia. Qed.

Lemma compare_in_order_same context l :
  (forall x, In x l ->
     (height x < n)%nat /\ item_same (levels_left context) x = true) ->
  forall i, compare_in_order self context i (combine l l) = Some true.
Proof.
  induction l as [|x l IH]; intros Hl i; cbn [combine compare_in_order];
    [reflexivity|].
  destruct (Hl x) as (Hh & Hx); [now left|].
  assert (Hrest : forall j, compare_in_order self context j (combine l l) = Some true).
  { apply IH. intros y Hy. apply Hl. now right. }
  rewrite andb_diag, non_object_or_object.
  destruct (is_object x) eqn:Hobj; cbn [negb andb].
  - destruct (levels_left context) as [|k] eqn:Hk; [discriminate Hx|].
    rewrite (levels_left_depth_left context k Hk), self_identity; trivial.
    + simpl. apply Hrest.
    + now rewrite (levels_left_descend context _ k Hk).
  - rewrite comparePrimitives_refl
      by (apply (item_same_not_NaN (levels_left context)); now rewrite ?Hobj).
    simpl. apply Hrest.
Qed.

Lemma compareArrays_same context l :
  (forall x, In x l ->
     (height x < n)%nat /\ item_same (levels_left context) x = true) ->
  compareArrays self l l context = Some true.
Proof.
  intros Hl. unfold compareArrays.
  rewrite Nat.eqb_refl. cbn [negb].
  destruct (Nat.eqb (length l) 0); [reflexivity|].
  destruct (negb _ && _) eqn:Hsorted.
  - f_equal. apply forallb_forall. intros [x y] Hin.
    apply In_combine_same in Hin as [<- Hin].
    apply In_default_sort in Hin.
    apply andb_prop in Hsorted as [_ Hprim].
    apply andb_prop in Hprim as [Hprim _].
    rewrite forallb_forall in Hprim. specialize (Hprim x Hin).
    destruct (Hl x Hin) as [_ Hx].
    apply comparePrimitives_refl.
    apply (item_same_not_NaN (levels_left context)); [|exact Hx].
    destruct x as [| | | | | | | |k []]; try reflexivity; discriminate Hprim.
  - now apply compare_in_order_same.
Qed.

Lemma same_to_itself_items k r items x :
  same_to_itself k (VArr r items) = true -> In x items -> item_same k x = true.
Proof.
  cbn [same_to_itself]. rewrite forallb_forall. intros H Hin. exact (H x Hin).
Qed.

Lemma deletion_loop_same fields context ks m :
  (forall key, In key ks -> In key (keys fields)) ->
  fold_left (deletion_step fields fields context) ks m = m.
Proof.
  revert m. induction ks as [|k ks IH]; simpl; intros m Hks; [reflexivity|].
  rewrite IH by auto. unfold deletion_step.
  destruct (ignored context k); trivial.
  rewrite has_key_keys by auto. reflexivity.
Qed.

Lemma update_step_same r fields context m key :
  In key (keys fields) ->
  same_to_itself (levels_left context) (VObj r fields) = true ->
  (height (VObj r fields) <= n)%nat ->
  update_step self fields fields context m key = Some m.
Proof.
  intros Hin Hsame Hh. unfold update_step.
  destruct (ignored context key); trivial.
  rewrite has_key_keys by trivial. cbn [negb].
  pose proof (height_prop r fields key Hin) as Hlt.
  assert (Hx : match prop fields key with
               | VObj _ _ =>
                   match levels_left context with
                   | S k => same_to_itself k (prop fields key)
                   | O => true
                   end
               | _ => same_to_itself (levels_left context) (prop fields key)
               end = true).
  { cbn [same_to_itself] in Hsame. rewrite forallb_forall in Hsame.
    apply keys_own_key, own_key_prop, obj_get_In in Hin.
    exact (Hsame _ Hin). }
  destruct (prop fields key) as [| |b|x|t|ri items|ro fo|ro t|ro k] eqn:E;
    cbn [isPlainObject andb];
    rewrite ?andb_false_r;
    try (rewrite comparePrimitives_refl by (now apply (same_not_NaN _ _ Hx));
         reflexivity).
  - rewrite compareArrays_same; [reflexivity|].
    intros y Hy. pose proof (height_item ri items y Hy).
    split; [lia|]. exact (same_to_itself_items _ _ _ _ Hx Hy).
  - destruct (levels_left context) as [|k] eqn:Hk.
    + rewrite (levels_left_O context Hk). cbn [andb].
      now rewrite comparePrimitives_refl by discriminate.
    + rewrite (levels_left_depth_left context k Hk). cbn [andb].
      rewrite self_identity; [|lia|now rewrite (levels_left_descend context _ k Hk)].
      simpl. now destruct m.
Qed.

Lemma compareObjects_same r fields context :
  same_to_itself (levels_left context) (VObj r fields) = true ->
  (height (VObj r fields) <= n)%nat ->
  compareObjects self fields fields context = Some empty_result.
Proof.
  intros Hsame Hh. unfold compareObjects.
  rewrite deletion_loop_same by auto.
  assert (Hloop : forall ks m, (forall key, In key ks -> In key (keys fields)) ->
            for_of (update_step self fields fields context) ks m = Some m).
  { induction ks as [|k ks IH]; simpl; intros m Hks; [reflexivity|].
    rewrite (update_step_same r) by auto. simpl. auto. }
  rewrite Hloop by auto. reflexivity.
Qed.

Lemma internalDiff_body_same v context :
  same_to_itself (levels_left context) v = true -> (height v <= n)%nat ->
  internalDiff_body self v v context = Some empty_result.
Proof.
  intros Hsame Hh. unfold internalDiff_body.
  rewrite andb_diag. destruct (is_nullish v) eqn:Hnull; [reflexivity|].
  rewrite jstype_eqb_refl. cbn [negb].
  destruct v as [| | | | |r items|r fields| |];
    try (rewrite comparePrimitives_refl by (now apply (same_not_NaN _ _ Hsame));
         reflexivity).
  - rewrite compareArrays_same; [reflexivity|].
    intros x Hxin. pose proof (height_item r items x Hxin).
    split; [lia|]. exact (same_to_itself_items _ _ _ _ Hsame Hxin).
  - now apply (compareObjects_same r).
Qed.

End Identity.

Lemma internalDiff_same {RT : Runtime} (fuel : nat) :
  forall v context,
    (height v < fuel)%nat ->
    same_to_itself
      (Z.to_nat (maxDepth (options context) - Z.of_nat (depth context))) v = true ->
    internalDiff fuel v v context = Some empty_result.
Proof.
  induction fuel as [|fuel IH]; intros v context Hh Hsame; [lia|].
  cbn [internalDiff]. apply (internalDiff_body_same _ fuel); auto. lia.
Qed.

(** C1, as the code has it. [diff(v, v)] returns empty additions, deletions
    and updates, under every setting of the options, whenever the
    comparisons it makes succeed: no number that is compared with itself is
    [NaN], and no array that holds an object (other than an array) is
    compared at a depth that has reached [maxDepth]. What lies in a plain
    object below [maxDepth] or in an array inside an array is of no
    account. *)
Theorem diff_identity {RT : Runtime} (v : value) (given : DiffOptions) :
  same_to_itself (Z.to_nat (maxDepth (merge_options given))) v = true ->
  diff v v given = Some empty_result.
Proof.
  intros Hsame. unfold diff.
  apply internalDiff_same; [lia|]. cbn [depth options].
  now rewrite Z.sub_0_r.
Qed.

(** The example value under the default options; thirteen nested objects,
    three more than [maxDepth], around a [NaN] that is never reached; and
    [{xs: [1, [NaN]], o: {n: NaN}}] with [maxDepth: 0]. *)
Lemma diff_identity_witness :
  diff (RT := Host.decimal_host) IdentityExample.v IdentityExample.v no_options
  = Some empty_result /\
  diff (RT := Host.decimal_host)
    (DeepExample.nest 13 (VNum NaN)) (DeepExample.nest 13 (VNum NaN)) no_options
  = Some empty_result /\
  diff (RT := Host.decimal_host) IdentityExample.flat IdentityExample.flat
    (with_maxDepth 0)
  = Some empty_result.
Proof.
  split; [|split].
  - apply (diff_identity (RT := Host.decimal_host)). reflexivity.
  - apply (diff_identity (RT := Host.decimal_host)). reflexivity.
  - apply (diff_identity (RT := Host.decimal_host)). reflexivity.
Defined.

(** C1 as the specification states it fails: [NaN] differs from itself, at
    the top level and under a key; and below ten object levels an array that
    holds an object is no longer found equal to itself, although no [NaN]
    occurs. *)
Lemma diff_identity_fails :
  diff (RT := Host.decimal_host) (VNum NaN) (VNum NaN) no_options
  = Some (updated (VNum NaN) (VNum NaN)) /\
  diff (RT := Host.decimal_host) (VObj 1 [("x", VNum NaN)]) (VObj 1 [("x", VNum NaN)])
       no_options
  = Some (updated_at "x" (VNum NaN) (VNum NaN)) /\
  updated (VNum NaN) (VNum NaN) <> empty_result /\
  nan_free DeepExample.deep = true /\
  exists r,
    diff (RT := Host.decimal_host) DeepExample.deep DeepExample.deep no_options
    = Some r /\ r <> empty_result.
Proof.
  split; [reflexivity|]. split; [reflexivity|]. split; [discriminate|].
  split; [reflexivity|]. eexists. split; [vm_compute; reflexivity|]. discriminate.
Qed.

(** ** Order-insensitive arrays *)

Section Sorting.
Context {RT : Runtime}.

Lemma string_leb_trans (a b c : string) :
  String.leb a b = true -> String.leb b c = true -> String.leb a c = true.
Proof.
  intros H1 H2. apply Is_true_true.
  apply Is_true_true in H1, H2.
  exact (transitivity (R := String.le) H1 H2).
Qed.

Lemma string_leb_total (a b : string) :
  String.leb a b = false -> String.leb b a = true.
Proof.
  intros H. destruct (String.leb_total a b) as [H'|H']; congruence.
Qed.

Lemma sort_insert_perm x l : Permutation (sort_insert x l) (x :: l).
Proof.
  induction l as [|y l IH]; simpl; [reflexivity|].
  destruct (String.leb _ _); [reflexivity|].
  rewrite IH. apply perm_swap.
Qed.

Lemma sort_perm l : Permutation (foldr sort_insert [] l) l.
Proof.
  induction l as [|x l IH]; simpl; [reflexivity|].
  rewrite sort_insert_perm. now constructor.
Qed.

Lemma sort_insert_sorted x l :
  StronglySorted key_le l -> StronglySorted key_le (sort_insert x l).
Proof.
  induction 1 as [|y l Hs IH Hall]; simpl.
  - repeat constructor.
  - destruct (String.leb (sort_key x) (sort_key y)) eqn:Hxy.
    + constructor; [now constructor|].
      constructor; [exact Hxy|].
      eapply List.Forall_impl; [|exact Hall].
      intros z Hyz. eapply string_leb_trans; eauto.
    + constructor; [exact IH|].
      apply List.Forall_forall. intros z Hz.
      apply (Permutation_in _ (sort_insert_perm x l)) in Hz as [<-|Hz].
      * now apply string_leb_total.
      * rewrite List.Forall_forall in Hall. now apply Hall.
Qed.

Lemma sort_sorted l : StronglySorted key_le (foldr sort_insert [] l).
Proof.
  induction l as [|x l IH]; simpl; [constructor|].
  now apply sort_insert_sorted.
Qed.

(** Two sorted lists of strings with the same elements are the same list. *)
Lemma sorted_strings_unique (l1 l2 : list string) :
  StronglySorted (fun a b => String.leb a b = true) l1 ->
  StronglySorted (fun a b => String.leb a b = true) l2 ->
  Permutation l1 l2 -> l1 = l2.
Proof.
  intros H1. revert l2.
  induction H1 as [|a t1 Hs1 IH Ha]; intros l2 H2 Hp.
  - apply Permutation_nil in Hp. now subst.
  - destruct H2 as [|b t2 Hs2 Hb].
    { apply Permutation_sym, Permutation_nil in Hp. discriminate. }
    assert (Hab : a = b).
    { rewrite List.Forall_forall in Ha, Hb.
      assert (Hin1 : In a (b :: t2)) by (eapply Permutation_in; [exact Hp|now left]).
      assert (Hin2 : In b (a :: t1))
        by (eapply Permutation_in; [symmetry; exact Hp|now left]).
      destruct Hin1 as [->|Hin1]; [reflexivity|].
      destruct Hin2 as [->|Hin2]; [reflexivity|].
      apply String.leb_antisym; auto. }
    subst b. f_equal. apply IH; trivial.
    eapply Permutation_cons_inv, Hp.
Qed.

Lemma sorted_keys l :
  StronglySorted key_le l ->
  StronglySorted (fun a b => String.leb a b = true) (map sort_key l).
Proof.
  induction 1 as [|x l Hs IH Hall]; simpl; constructor; trivial.
  rewrite List.Forall_forall in *. intros s Hs'.
  apply in_map_iff in Hs' as (y & <- & Hy). now apply Hall.
Qed.

(** Sorting two permutations of an array lines up equal keys. *)
Lemma sort_keys_agree l l' :
  Permutation l l' ->
  map sort_key (foldr sort_insert [] l) = map sort_key (foldr sort_insert [] l').
Proof.
  intros Hp. apply sorted_strings_unique.
  - apply sorted_keys, sort_sorted.
  - apply sorted_keys, sort_sorted.
  - apply Permutation_map.
    rewrite (sort_perm l), (sort_perm l'). exact Hp.
Qed.

Lemma combine_keys (s s' : list value) x y :
  map sort_key s = map sort_key s' -> In (x, y) (combine s s') ->
  sort_key x = sort_key y.
Proof.
  revert s'. induction s as [|a s IH]; intros [|b s']; simpl; try tauto.
  intros [= Hab Hrest] [[= <- <-]|Hin]; eauto.
Qed.

Lemma filter_undefined l x : In x (List.filter is_undefined l) -> x = VUndefined.
Proof.
  intros H. apply filter_In in H as [_ H]. now destruct x.
Qed.

Lemma combine_app {A B : Type} (l1 l2 : list A) (k1 k2 : list B) :
  length l1 = length k1 ->
  combine (l1 ++ l2) (k1 ++ k2) = (combine l1 k1 ++ combine l2 k2)%list.
Proof.
  revert k1. induction l1 as [|a l1 IH]; intros [|b k1]; simpl; try discriminate.
  - reflexivity.
  - intros [= H]. now rewrite IH.
Qed.

Lemma sorted_copies_equal (coerce : bool) (arr arr' : list value) :
  Permutation arr arr' -> same_key_equal coerce arr ->
  forallb (fun '(a, b) => comparePrimitives a b coerce)
          (combine (default_sort arr) (default_sort arr')) = true.
Proof.
  intros Hp Hsame. unfold default_sort.
  set (defined := fun v => negb (is_undefined v)).
  assert (Hpd : Permutation (List.filter defined arr) (List.filter defined arr')).
  { clear Hsame. induction Hp; simpl; auto.
    - destruct (defined x); auto.
    - destruct (defined x), (defined y); auto. apply perm_swap.
    - etransitivity; eauto. }
  assert (Hpu : Permutation (List.filter is_undefined arr)
                            (List.filter is_undefined arr')).
  { clear Hsame Hpd. induction Hp; simpl; auto.
    - destruct (is_undefined x); auto.
    - destruct (is_undefined x), (is_undefined y); auto. apply perm_swap.
    - etransitivity; eauto. }
  rewrite combine_app.
  2:{ rewrite (Permutation_length (sort_perm _)), (Permutation_length (sort_perm _)).
      now apply Permutation_length. }
  rewrite forallb_app. apply andb_true_intro. split.
  - apply forallb_forall. intros [x y] Hin.
    pose proof (combine_keys _ _ _ _ (sort_keys_agree _ _ Hpd) Hin) as Hkey.
    pose proof (in_combine_l _ _ _ _ Hin) as Hx.
    pose proof (in_combine_r _ _ _ _ Hin) as Hy.
    apply (Permutation_in _ (sort_perm _)), filter_In in Hx as [Hx Hdx].
    apply (Permutation_in _ (sort_perm _)), filter_In in Hy as [Hy Hdy].
    apply (Permutation_in _ (Permutation_sym Hp)) in Hy.
    apply Hsame; trivial.
    + unfold defined in Hdx. now destruct (is_undefined x).
    + unfold defined in Hdy. now destruct (is_undefined y).
  - apply forallb_forall. intros [x y] Hin.
    rewrite (filter_undefined _ _ (in_combine_l _ _ _ _ Hin)).
    rewrite (filter_undefined _ _ (in_combine_r _ _ _ _ Hin)).
    now destruct coerce.
Qed.

Lemma compareArrays_unordered (self : callback) (arr arr' : list value) context :
  arrayOrderMatters (options context) = false ->
  forallb is_primitive arr = true ->
  Permutation arr arr' ->
  same_key_equal (enableTypeCoercion (options context)) arr ->
  compareArrays self arr arr' context = Some true.
Proof.
  intros Hord Hprim Hp Hsame. unfold compareArrays.
  rewrite (Permutation_length Hp), Nat.eqb_refl. cbn [negb].
  destruct (Nat.eqb (length arr') 0); [reflexivity|].
  assert (Hprim' : forallb is_primitive arr' = true).
  { rewrite forallb_forall in *. intros x Hx. apply Hprim.
    eapply Permutation_in; [symmetry; exact Hp|exact Hx]. }
  rewrite Hord, Hprim, Hprim'. cbn [negb andb].
  now rewrite sorted_copies_equal.
Qed.

End Sorting.

(** C6, as the code has it. Let [arr] hold only non-object primitives, any
    two of which that have the same default-sort string being primitive-equal
    under the coercion setting (so it is for strings alone). Then for every
    permutation [arr'] of [arr],
    [diff({x: arr}, {x: arr'}, {arrayOrderMatters: false})] has empty
    [updates], and empty [additions] and [deletions]. *)
Theorem unordered_arrays_equal {RT : Runtime} (arr arr' : list value)
    (ra rb r1 r2 : nat) (given : DiffOptions) :
  given_arrayOrderMatters given = Some false ->
  forallb is_primitive arr = true ->
  same_key_equal (enableTypeCoercion (merge_options given)) arr ->
  Permutation arr arr' ->
  diff (VObj ra [("x", VArr r1 arr)]) (VObj rb [("x", VArr r2 arr')]) given
  = Some empty_result.
Proof.
  intros Hord Hprim Hsame Hp. unfold diff. cbn [internalDiff].
  unfold internalDiff_body. cbn [is_nullish typeof jstype_eqb negb andb].
  unfold compareObjects, keys. cbn [map fst fold_left for_of].
  unfold deletion_step, update_step, ignored, currentPath, has_key, own_key, prop.
  cbn [path length Nat.ltb Nat.leb options obj_get String.eqb Ascii.eqb
       Bool.eqb negb isPlainObject andb].
  destruct (shouldIgnoreProperty "x" _); [reflexivity|].
  rewrite andb_false_r.
  rewrite compareArrays_unordered; trivial.
  cbn [options extend_path merge_options arrayOrderMatters].
  now rewrite Hord.
Qed.

Lemma strings_same_key_equal {RT : Runtime} (coerce : bool) (arr : list value) :
  (forall x, In x arr -> exists s, x = VStr s) -> same_key_equal coerce arr.
Proof.
  intros Hstr x y Hx Hy _ _.
  destruct (Hstr x Hx) as [s ->], (Hstr y Hy) as [t ->]. simpl. intros ->.
  unfold comparePrimitives. simpl. now rewrite String.eqb_refl.
Qed.

(** So it is for numbers other than [NaN], on a host that prints
    different numbers differently. *)
Lemma numbers_same_key_equal {RT : Runtime} (coerce : bool) (arr : list value) :
  (forall n m, isNaN n = false -> isNaN m = false ->
     NumberToString n = NumberToString m -> num_eq n m = true) ->
  (forall x, In x arr -> exists n, x = VNum n /\ isNaN n = false) ->
  same_key_equal coerce arr.
Proof.
  intros Hprint Hnum x y Hx Hy _ _.
  destruct (Hnum x Hx) as (n & -> & Hn), (Hnum y Hy) as (m & -> & Hm).
  simpl. intros Hkey. unfold comparePrimitives. simpl.
  now rewrite (Hprint n m Hn Hm Hkey).
Qed.

Lemma unordered_arrays_equal_witness :
  diff (RT := Host.decimal_host)
       (VObj 1 [("x", VArr 3 UnorderedExample.tags)])
       (VObj 2 [("x", VArr 4 UnorderedExample.tags')]) UnorderedExample.unordered
  = Some empty_result.
Proof.
  apply (unordered_arrays_equal (RT := Host.decimal_host)).
  - reflexivity.
  - reflexivity.
  - apply strings_same_key_equal. intros x [<-|[<-|[]]]; eauto.
  - apply perm_swap.
Defined.

(** C6 as the specification states it fails: [null] and ["null"] sort alike
    but are not primitive-equal, so swapping them is reported; and an array
    holding [NaN] differs from every permutation of itself. *)
Lemma unordered_arrays_differ :
  forallb is_primitive UnorderedExample.nulls = true /\
  Permutation UnorderedExample.nulls UnorderedExample.nulls' /\
  diff (RT := Host.decimal_host)
       (VObj 1 [("x", VArr 3 UnorderedExample.nulls)])
       (VObj 2 [("x", VArr 4 UnorderedExample.nulls')]) UnorderedExample.unordered
  = Some (updated_at "x" (VArr 3 UnorderedExample.nulls)
                     (VArr 4 UnorderedExample.nulls')) /\
  diff (RT := Host.decimal_host)
       (VObj 1 [("x", VArr 3 [VNum NaN])])
       (VObj 2 [("x", VArr 4 [VNum NaN])]) UnorderedExample.unordered
  = Some (updated_at "x" (VArr 3 [VNum NaN]) (VArr 4 [VNum NaN])).
Proof.
  split; [reflexivity|]. split; [apply perm_swap|].
  split; vm_compute; reflexivity.
Qed.

(** ** The engine writes to its own objects only *)
Module StoreFacts.
Import Store.

Lemma frame_refl (s : state) : frame s s.
Proof. split; auto. Qed.

Lemma frame_cells_length (s s' : state) :
  frame s s' -> (length (cells s) <= length (cells s'))%nat.
Proof.
  intros [Hc _]. destruct (length (cells s)) as [|n] eqn:E; [lia|].
  destruct (lookup_lt_is_Some_2 (cells s) n) as [c Hc']; [lia|].
  apply Hc, lookup_lt_Some in Hc'. lia.
Qed.

Lemma frame_trans (s1 s2 s3 : state) : frame s1 s2 -> frame s2 s3 -> frame s1 s3.
Proof.
  intros H12 H23. pose proof (frame_cells_length _ _ H12) as Hlen.
  destruct H12 as [Hc12 Hw12], H23 as [Hc23 Hw23]. split.
  - auto.
  - intros l Hl. destruct (Hw23 l Hl) as [H|H]; [auto|]. right. lia.
Qed.

Lemma resp_ret {A : Type} s0 (a : A) (Q : A -> Prop) : Q a -> resp s0 (ret a) Q.
Proof. intros Ha s Hs. split; [exact Hs|]. now intros a' [= <-]. Qed.

Lemma resp_throw {A : Type} s0 (Q : A -> Prop) : resp s0 throw Q.
Proof. intros s Hs. split; [exact Hs|]. discriminate. Qed.

Lemma resp_bind {A B : Type} s0 (m : M A) (f : A -> M B) P Q :
  resp s0 m P -> (forall a, P a -> resp s0 (f a) Q) ->
  resp s0 (bind m f) Q.
Proof.
  intros Hm Hf s Hs. unfold bind.
  destruct (Hm s Hs) as [Hfr Hres].
  destruct (m s) as [[a|] s1]; simpl in *.
  - apply Hf; auto.
  - split; [exact Hfr|discriminate].
Qed.

Lemma resp_weaken {A : Type} s0 (m : M A) (P Q : A -> Prop) :
  resp s0 m P -> (forall a, P a -> Q a) -> resp s0 m Q.
Proof. intros Hm HPQ s Hs. destruct (Hm s Hs). split; auto. Qed.

Lemma readonly_resp {A : Type} s0 (m : M A) : readonly m -> resp s0 m any.
Proof. intros Hm s Hs. rewrite Hm. split; [exact Hs|now intros]. Qed.

Lemma framed_resp {A : Type} s0 (m : M A) : framed m -> resp s0 m any.
Proof.
  intros Hm s Hs. split; [|now intros].
  eapply frame_trans; [exact Hs|apply Hm].
Qed.

Lemma resp_framed {A : Type} (m : M A) (Q : A -> Prop) :
  (forall s0, resp s0 m Q) -> framed m.
Proof. intros Hm s. apply (Hm s s), frame_refl. Qed.

Lemma readonly_ret {A : Type} (a : A) : readonly (ret a).
Proof. now intros s. Qed.

Lemma readonly_throw {A : Type} : readonly (@throw A).
Proof. now intros s. Qed.

Lemma readonly_bind {A B : Type} (m : M A) (f : A -> M B) :
  readonly m -> (forall a, readonly (f a)) -> readonly (bind m f).
Proof.
  intros Hm Hf s. unfold bind. specialize (Hm s).
  destruct (m s) as [[a|] s1]; simpl in *; subst; [apply Hf|reflexivity].
Qed.

Lemma readonly_load v : readonly (load v).
Proof. intros s. now destruct v. Qed.

Lemma readonly_isArray v : readonly (isArray v).
Proof. now intros s. Qed.

Lemma readonly_isPlainObject v : readonly (isPlainObject v).
Proof. now intros s. Qed.

Lemma readonly_inspect v : readonly (inspect v).
Proof.
  destruct v; try apply readonly_ret.
  apply readonly_bind; [apply readonly_load|intros; apply readonly_ret].
Qed.

Lemma readonly_elements v : readonly (elements v).
Proof.
  apply readonly_bind; [apply readonly_load|].
  intros []; (apply readonly_ret || apply readonly_throw).
Qed.

Lemma readonly_own_keys v : readonly (own_keys v).
Proof.
  apply readonly_bind; [apply readonly_load|].
  intros []; (apply readonly_ret || apply readonly_throw).
Qed.

Lemma readonly_has_prop {RT : Runtime} v key : readonly (has_prop v key).
Proof.
  apply readonly_bind; [apply readonly_load|].
  intros []; (apply readonly_ret || apply readonly_throw).
Qed.

Lemma readonly_get_prop {RT : Runtime} v key : readonly (get_prop v key).
Proof.
  apply readonly_bind; [apply readonly_load|].
  intros []; (apply readonly_ret || apply readonly_throw).
Qed.

Lemma readonly_has_keys v : readonly (has_keys v).
Proof.
  destruct v; try apply readonly_ret; try apply readonly_throw.
  apply readonly_bind; [apply readonly_load|intros; apply readonly_ret].
Qed.

(** *** Allocations and writes *)

Lemma resp_alloc s0 (c : cell) : resp s0 (alloc c) (fresh_for s0).
Proof.
  intros s Hs. pose proof (frame_cells_length _ _ Hs) as Hlen.
  destruct Hs as [Hc Hw]. split; [split|]; simpl.
  - intros l c' Hl. rewrite lookup_app_l; [auto|].
    apply Hc in Hl. now apply lookup_lt_Some in Hl.
  - exact Hw.
  - intros a [= <-] l [= <-]. exact Hlen.
Qed.

Lemma resp_store s0 (v : hval) (c : cell) :
  fresh_for s0 v -> resp s0 (store v c) any.
Proof.
  intros Hv s Hs. unfold store.
  destruct v as [| | | | |l|f]; try (split; [exact Hs|now intros]).
  destruct (Nat.ltb l (length (cells s))); [|split; [exact Hs|now intros]].
  pose proof (Hv l eq_refl) as Hl.
  destruct Hs as [Hc Hw]. split; [split|now intros]; simpl.
  - intros l' c' Hl'. rewrite list_lookup_insert_ne; [auto|].
    apply lookup_lt_Some in Hl'. lia.
  - intros l' [<-|Hl']; auto.
Qed.

Lemma resp_set_prop {RT : Runtime} s0 (obj : hval) key v :
  fresh_for s0 obj -> resp s0 (set_prop obj key v) any.
Proof.
  intros Hobj. eapply resp_bind; [apply readonly_resp, readonly_load|].
  intros c _. destruct c; try destruct (proto_link key); now apply resp_store.
Qed.

Section Engine.
Context {RT : Runtime}.

Lemma readonly_comparePrimitives a b e : readonly (comparePrimitives a b e).
Proof.
  apply readonly_bind; [apply readonly_inspect|]. intros x.
  apply readonly_bind; [apply readonly_inspect|]. intros y. apply readonly_ret.
Qed.

Lemma resp_spread s0 (array : hval) : resp s0 (spread array) (fresh_for s0).
Proof.
  eapply resp_bind; [apply readonly_resp, readonly_elements|].
  intros items _. apply resp_alloc.
Qed.

Lemma resp_sort s0 (array : hval) :
  fresh_for s0 array -> resp s0 (sort array) (fresh_for s0).
Proof.
  intros Ha. eapply resp_bind; [apply readonly_resp, readonly_elements|].
  intros items _. eapply resp_bind; [now apply resp_store|].
  intros _ _. now apply resp_ret.
Qed.

Lemma readonly_compare_sorted coerce items : readonly (compare_sorted coerce items).
Proof.
  induction items as [|[a b] rest IH]; simpl; [apply readonly_ret|].
  apply readonly_bind; [apply readonly_comparePrimitives|].
  intros eq. destruct (negb eq); [apply readonly_ret|exact IH].
Qed.

Lemma resp_from_to s0 a b : resp s0 (from_to a b) (fresh_for s0).
Proof. apply resp_alloc. Qed.

Lemma resp_new_result s0 : resp s0 new_result (fresh_result s0).
Proof.
  eapply resp_bind; [apply resp_alloc|]. intros a Ha.
  eapply resp_bind; [apply resp_alloc|]. intros d Hd.
  eapply resp_bind; [apply resp_alloc|]. intros u Hu.
  apply resp_ret. now repeat split.
Qed.

Section Recursion.
Variable self : hval -> hval -> ComparisonContext -> M Result.
Hypothesis self_framed : forall a b c, framed (self a b c).

Lemma resp_compare_in_order s0 context items :
  forall i, resp s0 (compare_in_order self context i items) any.
Proof.
  induction items as [|[itemA itemB] rest IH]; intros i; simpl.
  - now apply resp_ret.
  - eapply resp_bind; [apply readonly_resp, readonly_isArray|]. intros arrayA _.
    eapply resp_bind; [apply readonly_resp, readonly_isArray|]. intros arrayB _.
    destruct (_ && _).
    { eapply resp_bind; [apply readonly_resp, readonly_comparePrimitives|].
      intros eq _. destruct (negb eq); [now apply resp_ret|apply IH]. }
    destruct (_ && _ && _); [|now apply resp_ret].
    eapply resp_bind; [apply framed_resp, self_framed|]. intros diffResult _.
    eapply resp_bind; [apply readonly_resp, readonly_has_keys|]. intros a _.
    destruct a; [now apply resp_ret|].
    eapply resp_bind; [apply readonly_resp, readonly_has_keys|]. intros d _.
    destruct d; [now apply resp_ret|].
    eapply resp_bind; [apply readonly_resp, readonly_has_keys|]. intros u _.
    destruct u; [now apply resp_ret|]. apply IH.
Qed.

Lemma resp_compareArrays s0 arrayA arrayB context :
  resp s0 (compareArrays self arrayA arrayB context) any.
Proof.
  unfold compareArrays.
  eapply resp_bind; [apply readonly_resp, readonly_elements|]. intros itemsA _.
  eapply resp_bind; [apply readonly_resp, readonly_elements|]. intros itemsB _.
  destruct (negb _); [now apply resp_ret|].
  destruct (Nat.eqb _ 0); [now apply resp_ret|].
  destruct (negb _ && _); [|apply resp_compare_in_order].
  eapply resp_bind; [apply resp_spread|]. intros copyA HA.
  eapply resp_bind; [apply resp_sort, HA|]. intros sortedA _.
  eapply resp_bind; [apply resp_spread|]. intros copyB HB.
  eapply resp_bind; [apply resp_sort, HB|]. intros sortedB _.
  eapply resp_bind; [apply readonly_resp, readonly_elements|]. intros sa _.
  eapply resp_bind; [apply readonly_resp, readonly_elements|]. intros sb _.
  apply readonly_resp, readonly_compare_sorted.
Qed.

Lemma resp_deletion_step s0 objA objB context result key :
  fresh_result s0 result ->
  resp s0 (deletion_step objA objB context result key) any.
Proof.
  intros (Ha & Hd & Hu). unfold deletion_step.
  destruct (ignored context key); [now apply resp_ret|].
  eapply resp_bind; [apply readonly_resp, readonly_has_prop|]. intros inB _.
  destruct (negb inB); [|now apply resp_ret].
  eapply resp_bind; [apply readonly_resp, readonly_get_prop|]. intros valueA _.
  now apply resp_set_prop.
Qed.

Lemma resp_record_update s0 result key valueA valueB :
  fresh_result s0 result ->
  resp s0 (bind (from_to valueA valueB)
             (fun pair => set_prop (updates result) key pair)) any.
Proof.
  intros (Ha & Hd & Hu).
  eapply resp_bind; [apply resp_from_to|]. intros pair _.
  now apply resp_set_prop.
Qed.

Lemma resp_update_step s0 objA objB context result key :
  fresh_result s0 result ->
  resp s0 (update_step self objA objB context result key) any.
Proof.
  intros Hres. pose proof Hres as (Ha & Hd & Hu). unfold update_step.
  destruct (ignored context key); [now apply resp_ret|].
  eapply resp_bind; [apply readonly_resp, readonly_has_prop|]. intros inA _.
  destruct (negb inA).
  { eapply resp_bind; [apply readonly_resp, readonly_get_prop|]. intros valueB _.
    now apply resp_set_prop. }
  eapply resp_bind; [apply readonly_resp, readonly_get_prop|]. intros valueA _.
  eapply resp_bind; [apply readonly_resp, readonly_get_prop|]. intros valueB _.
  eapply resp_bind; [apply readonly_resp, readonly_isPlainObject|]. intros plainA _.
  eapply resp_bind; [apply readonly_resp, readonly_isPlainObject|]. intros plainB _.
  destruct (_ && _ && _).
  - eapply resp_bind; [apply framed_resp, self_framed|]. intros nestedResult _.
    eapply resp_bind; [apply readonly_resp, readonly_has_keys|]. intros a _.
    eapply resp_bind with (P := any).
    { destruct a; [now apply resp_set_prop|now apply resp_ret]. }
    intros _ _.
    eapply resp_bind; [apply readonly_resp, readonly_has_keys|]. intros d _.
    eapply resp_bind with (P := any).
    { destruct d; [now apply resp_set_prop|now apply resp_ret]. }
    intros _ _.
    eapply resp_bind; [apply readonly_resp, readonly_has_keys|]. intros u _.
    destruct u; [now apply resp_set_prop|now apply resp_ret].
  - eapply resp_bind; [apply readonly_resp, readonly_isArray|]. intros arrayA _.
    eapply resp_bind; [apply readonly_resp, readonly_isArray|]. intros arrayB _.
    destruct (arrayA && arrayB).
    + eapply resp_bind; [apply resp_compareArrays|]. intros eq _.
      destruct (negb eq); [now apply resp_record_update|now apply resp_ret].
    + eapply resp_bind; [apply readonly_resp, readonly_comparePrimitives|].
      intros eq _.
      destruct (negb eq); [now apply resp_record_update|now apply resp_ret].
Qed.

Lemma resp_for_of {K : Type} s0 (body : K -> M unit) ks :
  (forall k, resp s0 (body k) any) -> resp s0 (for_of body ks) any.
Proof.
  intros Hb. induction ks as [|k ks IH]; simpl; [now apply resp_ret|].
  eapply resp_bind; [apply Hb|]. intros _ _. exact IH.
Qed.

Lemma resp_compareObjects s0 objA objB context :
  resp s0 (compareObjects self objA objB context) any.
Proof.
  unfold compareObjects.
  eapply resp_bind; [apply resp_new_result|]. intros result Hres.
  eapply resp_bind; [apply readonly_resp, readonly_own_keys|]. intros keysA _.
  eapply resp_bind; [apply readonly_resp, readonly_own_keys|]. intros keysB _.
  eapply resp_bind.
  { apply resp_for_of. intros k. now apply resp_deletion_step. }
  intros _ _. eapply resp_bind.
  { apply resp_for_of. intros k. now apply resp_update_step. }
  intros _ _. now apply resp_ret.
Qed.

Lemma resp_internalDiff_body s0 objA objB context :
  resp s0 (internalDiff_body self objA objB context) any.
Proof.
  unfold internalDiff_body.
  eapply resp_bind; [apply resp_new_result|]. intros result Hres.
  assert (Hpair : forall (k : hval -> Result),
            resp s0 (bind (from_to objA objB) (fun pair => ret (k pair))) any).
  { intros k. eapply resp_bind; [apply resp_from_to|]. intros pair _.
    now apply resp_ret. }
  destruct (_ && _); [now apply resp_ret|].
  destruct (is_nullish objA); [now apply resp_ret|].
  destruct (is_nullish objB); [now apply resp_ret|].
  destruct (negb _); [apply Hpair|].
  eapply resp_bind; [apply readonly_resp, readonly_isArray|]. intros arrayA _.
  eapply resp_bind; [apply readonly_resp, readonly_isArray|]. intros arrayB _.
  destruct (arrayA && arrayB).
  { eapply resp_bind; [apply resp_compareArrays|]. intros eq _.
    destruct (negb eq); [apply Hpair|now apply resp_ret]. }
  eapply resp_bind; [apply readonly_resp, readonly_isPlainObject|]. intros plainA _.
  eapply resp_bind; [apply readonly_resp, readonly_isPlainObject|]. intros plainB _.
  destruct (plainA && plainB); [apply resp_compareObjects|].
  eapply resp_bind; [apply readonly_resp, readonly_comparePrimitives|].
  intros eq _. destruct (negb eq); [apply Hpair|now apply resp_ret].
Qed.

End Recursion.

Lemma internalDiff_framed (fuel : nat) :
  forall objA objB context, framed (internalDiff fuel objA objB context).
Proof.
  induction fuel as [|fuel IH]; intros objA objB context; simpl.
  - intros s. apply frame_refl.
  - apply (resp_framed _ any). intros s0.
    now apply resp_internalDiff_body.
Qed.

End Engine.

End StoreFacts.

(** C9. Whatever the arguments, the options and the height of the call
    stack, and whether the call returns or throws: every object that exists
    when [diff] is called (the inputs with all their nested objects and
    arrays, and any other object of the caller) is afterwards what it was,
    and every write of the call went to an object allocated during the call
    (the result maps and the sorted copies of arrays). *)
Theorem inputs_not_mutated {RT : Runtime} (fuel : nat)
    (objectA objectB : Store.hval) (given : DiffOptions) (s : Store.state) :
  let s' := snd (Store.diff fuel objectA objectB given s) in
  (forall l c, Store.cells s !! l = Some c -> Store.cells s' !! l = Some c) /\
  (forall l, In l (Store.written s') ->
             In l (Store.written s) \/ (length (Store.cells s) <= l)%nat).
Proof. apply (StoreFacts.internalDiff_framed fuel). Qed.

(** A run that sorts: [diff({tags: ["ts","js"], n: 1}, {tags: ["js","ts"], n: 2},
    {arrayOrderMatters: false})]. The two sorted copies and the [updates] map
    are written, the four objects of the caller are not. *)
Example store_run :
  let s' := snd (Store.diff (RT := Host.decimal_host) 5 (Store.HRef 0) (Store.HRef 2)
                   UnorderedExample.unordered StoreExample.s0) in
  firstn 4 (Store.cells s') = StoreExample.cells0 /\
  Store.written s' = [9; 11; 10]%nat /\
  Store.cells s' !! 10%nat = Some (Store.CArray [Store.HStr "js"; Store.HStr "ts"]) /\
  Store.cells s' !! 9%nat = Some (Store.CObject [("n", Store.HRef 12)]).
Proof. vm_compute. repeat split; reflexivity. Qed.

(** The date case of the test suite, on every host that reads the string as
    the time of the date. *)
Example date_string_coercion {RT : Runtime} (time : number) :
  DateParse "2023-01-01T00:00:00.000Z" = time -> isNaN time = false ->
  diff (VObj 1 [("createdAt", VDate 3 time)])
       (VObj 2 [("createdAt", VStr "2023-01-01T00:00:00.000Z")])
       (with_coercion true)
  = Some empty_result.
Proof.
  intros Hparse Hnan. rewrite diff_singleton_mixed by discriminate.
  change (shouldIgnoreProperty "createdAt" _) with false.
  change (enableTypeCoercion (merge_options (with_coercion true))) with true.
  unfold comparePrimitives, coerceValues. simpl.
  rewrite Hparse. destruct time; try discriminate Hnan; simpl;
    now rewrite ?num_eq_refl.
Qed.

(** ** The repository's test suite, replayed on the model

    The cases of [tests/diff.test.ts] with their expected results, on
    [Host.decimal_host]. *)
Module Tests.
Import TestData.
#[local] Existing Instance Host.decimal_host.

Example identical_objects :
  diff (VObj 1 (john_aged 30)) (VObj 2 (john_aged 30)) no_options
  = Some empty_result.
Proof. reflexivity. Qed.

Example detects_additions :
  diff (VObj 1 john) (VObj 2 (john_aged 30)) no_options
  = Some (result_maps [("age", DVal (VNum (num 30)))] [] []).
Proof. reflexivity. Qed.

Example detects_deletions :
  diff (VObj 1 (john_aged 30)) (VObj 2 john) no_options
  = Some (result_maps [] [("age", DVal (VNum (num 30)))] []).
Proof. reflexivity. Qed.

Example detects_updates :
  diff (VObj 1 (john_aged 30)) (VObj 2 (john_aged 31)) no_options
  = Some (updated_at "age" (VNum (num 30)) (VNum (num 31))).
Proof. reflexivity. Qed.

Example nested_additions :
  diff (VObj 1 [("user", VObj 3 john)])
       (VObj 2 [("user", VObj 4 (john ++ [("profile", profile)])%list)]) no_options
  = Some (result_maps [("user", DMap [("profile", DVal profile)])] [] []).
Proof. reflexivity. Qed.

Example nested_deletions :
  diff (VObj 1 [("user", VObj 3 (john ++ [("profile", profile)])%list)])
       (VObj 2 [("user", VObj 4 john)]) no_options
  = Some (result_maps [] [("user", DMap [("profile", DVal profile)])] []).
Proof. reflexivity. Qed.

Example nested_updates :
  diff (VObj 1 [("user", VObj 3 (john_aged 30))])
       (VObj 2 [("user", VObj 4 (john_aged 31))]) no_options
  = Some (result_maps [] []
            [("user", DMap [("age", DFromTo (VNum (num 30)) (VNum (num 31)))])]).
Proof. reflexivity. Qed.

Example array_additions :
  diff (VObj 1 [("tags", VArr 3 [js])]) (VObj 2 [("tags", VArr 4 [js; ts])])
       no_options
  = Some (updated_at "tags" (VArr 3 [js]) (VArr 4 [js; ts])).
Proof. reflexivity. Qed.

Example array_order_changes :
  diff (VObj 1 [("tags", VArr 3 [js; ts])]) (VObj 2 [("tags", VArr 4 [ts; js])])
       no_options
  = Some (updated_at "tags" (VArr 3 [js; ts]) (VArr 4 [ts; js])).
Proof. reflexivity. Qed.

Example array_order_not_mattering :
  diff (VObj 1 [("tags", VArr 3 [js; ts])]) (VObj 2 [("tags", VArr 4 [ts; js])])
       (with_order false)
  = Some empty_result.
Proof. reflexivity. Qed.

Example string_number_coercion :
  diff (VObj 1 [("age", VNum (num 30))]) (VObj 2 [("age", VStr "30")])
       (with_coercion true)
  = Some empty_result.
Proof. reflexivity. Qed.

Example no_coercion_when_disabled :
  diff (VObj 1 [("age", VNum (num 30))]) (VObj 2 [("age", VStr "30")])
       (with_coercion false)
  = Some (updated_at "age" (VNum (num 30)) (VStr "30")).
Proof. reflexivity. Qed.

Example boolean_string_coercion :
  diff (VObj 1 [("active", VBool true)]) (VObj 2 [("active", VStr "true")])
       (with_coercion true)
  = Some empty_result.
Proof. reflexivity. Qed.

Example ignores_properties :
  diff (VObj 1 (with_id 30 "123")) (VObj 2 (with_id 31 "456")) (with_ignore ["_id"])
  = Some (updated_at "age" (VNum (num 30)) (VNum (num 31))).
Proof. reflexivity. Qed.

Example ignores_nested_properties :
  diff (VObj 1 [("user", VObj 3 (john ++ [("_id", VStr "123")])%list)])
       (VObj 2 [("user", VObj 4 (john ++ [("_id", VStr "456")])%list)])
       (with_ignore ["user._id"])
  = Some empty_result.
Proof. reflexivity. Qed.

Example ignores_wildcards :
  diff (VObj 1 [("user", VObj 3 (john ++ [("_id", VStr "123");
                                          ("_version", VNum (num 1))])%list)])
       (VObj 2 [("user", VObj 4 (john ++ [("_id", VStr "456");
                                          ("_version", VNum (num 2))])%list)])
       (with_ignore ["user._*"])
  = Some empty_result.
Proof. reflexivity. Qed.

Example null_values :
  diff (VObj 1 (john ++ [("age", VNull)])%list) (VObj 2 (john_aged 30)) no_options
  = Some (updated_at "age" VNull (VNum (num 30))).
Proof. reflexivity. Qed.

Example undefined_values :
  diff (VObj 1 (john ++ [("age", VUndefined)])%list) (VObj 2 (john_aged 30))
       no_options
  = Some (updated_at "age" VUndefined (VNum (num 30))).
Proof. reflexivity. Qed.

Example empty_objects : diff (VObj 1 []) (VObj 2 []) no_options = Some empty_result.
Proof. reflexivity. Qed.

Example null_vs_object :
  diff VNull (VObj 2 john) no_options
  = Some {| additions := DVal (VObj 2 john); deletions := DMap [];
            updates := DMap [] |}.
Proof. reflexivity. Qed.

Example object_vs_null :
  diff (VObj 1 john) VNull no_options
  = Some {| additions := DMap []; deletions := DVal (VObj 1 john);
            updates := DMap [] |}.
Proof. reflexivity. Qed.

Example large_objects :
  diff (VObj 1 (large Z.of_nat))
       (VObj 2 (large (fun i => if Nat.eqb i 25 then 100 else Z.of_nat i)))
       no_options
  = Some (updated_at "prop25" (VNum (num 25)) (VNum (num 100))).
Proof. vm_compute. reflexivity. Qed.

(** Ten levels of nesting under [maxDepth: 3]: the call returns, and reports
    the fourth level as replaced. *)
Example respects_maxDepth :
  diff (nested 1 10) (nested 2 10) (with_maxDepth 3)
  = Some (result_maps [] []
      [("nested", DMap [("nested", DMap [("nested",
          DMap [("nested", DFromTo (nested 1 6) (nested 2 6))])])])]).
Proof. vm_compute. reflexivity. Qed.

End Tests.

(** ** Further properties of the comparison primitives *)

Lemma num_eq_sym (a b : number) : num_eq a b = num_eq b a.
Proof.
  unfold num_eq, SFeqb, SFcompare.
  destruct a as [sa|sa| |sa ma ea], b as [sb|sb| |sb mb eb]; trivial;
    try (destruct sa, sb; reflexivity); try (destruct sa; reflexivity);
    try (destruct sb; reflexivity).
  rewrite (Z.compare_antisym ea eb).
  change (Pos.compare_cont Eq mb ma) with (Pos.compare mb ma).
  change (Pos.compare_cont Eq ma mb) with (Pos.compare ma mb).
  rewrite (Pos.compare_antisym ma mb).
  destruct sa, sb, (Z.compare ea eb), (Pos.compare ma mb); reflexivity.
Qed.

Lemma bool_eqb_sym (a b : bool) : Bool.eqb a b = Bool.eqb b a.
Proof. now destruct a, b. Qed.

Lemma strict_eq_sym (a b : value) : strict_eq a b = strict_eq b a.
Proof.
  destruct a, b; simpl; trivial;
    auto using bool_eqb_sym, num_eq_sym, String.eqb_sym, Nat.eqb_sym.
Qed.

Lemma coerceValues_sym {RT : Runtime} (a b : value) :
  coerceValues a b = coerceValues b a.
Proof.
  unfold coerceValues.
  destruct a as [| | | | | | | |ra []], b as [| | | | | | | |rb []];
    cbn [is_nullish typeof jstype_eqb andb orb first_return];
    trivial;
    try (apply strict_eq_sym);
    repeat match goal with
           | |- context [if ?c then _ else _] => destruct c
           end;
    cbn [first_return]; auto using bool_eqb_sym, num_eq_sym.
Qed.

(** X1. Primitive equality is symmetric: [comparePrimitives(a, b, e)] and
    [comparePrimitives(b, a, e)] agree for all values and both settings of
    the coercion. *)
Theorem comparePrimitives_sym {RT : Runtime} (a b : value) (e : bool) :
  comparePrimitives a b e = comparePrimitives b a e.
Proof.
  unfold comparePrimitives.
  now rewrite (strict_eq_sym a b), (coerceValues_sym a b).
Qed.

(** X2. With coercion [null] and [undefined] are equal to each other and to
    nothing else; without coercion each is equal to itself alone. *)
Theorem nullish_equality {RT : Runtime} (a b : value) :
  is_nullish a = true ->
  comparePrimitives a b true = is_nullish b /\
  (comparePrimitives a b false = true <-> a = b).
Proof.
  intros Ha. destruct a; try discriminate Ha;
    (split; [now destruct b|]);
    destruct b; simpl; split; intros H; try discriminate H; reflexivity.
Qed.

Lemma nullish_equality_witness :
  comparePrimitives (RT := Host.decimal_host) VNull VUndefined true = true /\
  comparePrimitives (RT := Host.decimal_host) VNull (VStr "null") true = false /\
  ~ comparePrimitives (RT := Host.decimal_host) VNull VUndefined false = true.
Proof.
  destruct (nullish_equality (RT := Host.decimal_host) VNull VUndefined eq_refl)
    as [H1 H2].
  destruct (nullish_equality (RT := Host.decimal_host) VNull (VStr "null") eq_refl)
    as [H3 _].
  split; [exact H1|]. split; [exact H3|].
  intros H. apply H2 in H. discriminate H.
Defined.

Lemma objects_equal_by_reference_aux {RT : Runtime} (ra rb : nat)
    (xs ys : list value) (e : bool) :
  ra <> rb -> comparePrimitives (VArr ra xs) (VArr rb ys) e = false.
Proof.
  intros Hne. apply Nat.eqb_neq in Hne.
  unfold comparePrimitives, coerceValues. simpl. rewrite Hne. now destruct e.
Qed.

(** X3. Arrays, plain objects, dates and the other objects are compared by
    reference alone, with or without coercion: two dates of the same time
    that are different objects are not equal. *)
Theorem objects_equal_by_reference {RT : Runtime} (a b : value) (ra rb : nat)
    (e : bool) :
  ref_of a = Some ra -> ref_of b = Some rb ->
  comparePrimitives a b e = Nat.eqb ra rb.
Proof.
  intros Ha Hb. unfold comparePrimitives, coerceValues.
  destruct a as [| | | | | | | |? []]; try discriminate Ha;
    destruct b as [| | | | | | | |? []]; try discriminate Hb;
    injection Ha as ->; injection Hb as ->; simpl;
    destruct (Nat.eqb ra rb), e; reflexivity.
Qed.

Lemma objects_equal_by_reference_witness :
  comparePrimitives (RT := Host.decimal_host)
    (VDate 1 (num 0)) (VDate 2 (num 0)) true = false /\
  comparePrimitives (RT := Host.decimal_host)
    (VArr 1 []) (VArr 1 []) false = true.
Proof.
  split.
  - exact (objects_equal_by_reference (RT := Host.decimal_host)
             (VDate 1 (num 0)) (VDate 2 (num 0)) 1 2 true eq_refl eq_refl).
  - exact (objects_equal_by_reference (RT := Host.decimal_host)
             (VArr 1 []) (VArr 1 []) 1 1 false eq_refl eq_refl).
Defined.

(** X4. Coercion never bridges an object and a primitive: an array, a plain
    object or another object is equal to no primitive, in either order; the
    one bridge is between a date and a string. *)
Theorem object_never_equals_primitive {RT : Runtime} (a b : value) (e : bool) :
  isArray a || isPlainObject a
  || match a with VExotic _ _ => true | _ => false end = true ->
  ref_of b = None ->
  comparePrimitives a b e = false /\ comparePrimitives b a e = false.
Proof.
  intros Ha Hb.
  assert (H : comparePrimitives a b e = false).
  { unfold comparePrimitives, coerceValues.
    destruct a as [| | | | | | | |? []]; try discriminate Ha;
      destruct b; try discriminate Hb; simpl; now destruct e. }
  split; [exact H|]. unfold comparePrimitives in *.
  now rewrite (strict_eq_sym b a), (coerceValues_sym b a).
Qed.

Lemma object_never_equals_primitive_witness :
  comparePrimitives (RT := Host.decimal_host) (VArr 1 [VNum (num 1)]) (VStr "1") true
  = false /\
  comparePrimitives (RT := Host.decimal_host) (VStr "1") (VArr 1 [VNum (num 1)]) true
  = false.
Proof.
  exact (object_never_equals_primitive (RT := Host.decimal_host)
           (VArr 1 [VNum (num 1)]) (VStr "1") true eq_refl eq_refl).
Defined.

(** ** The can-coerce predicates against the coercion rules *)

Section CanCoerce.
Context {RT : Runtime}.

Lemma comparePrimitives_boolean_string (b : bool) (s : string) :
  comparePrimitives (VBool b) (VStr s) true =
  canCoerceToBoolean (VStr s) && Bool.eqb b (String.eqb (toLowerCase s) "true").
Proof.
  unfold comparePrimitives, coerceValues, canCoerceToBoolean. simpl.
  now destruct (String.eqb (toLowerCase s) "true" || String.eqb (toLowerCase s) "false").
Qed.

Lemma comparePrimitives_date_string (r : nat) (t : number) (s : string) :
  comparePrimitives (VDate r t) (VStr s) true =
  canCoerceToDate (VStr s) && num_eq t (DateParse s).
Proof.
  unfold comparePrimitives, coerceValues, canCoerceToDate. simpl.
  now destruct (isNaN (DateParse s)).
Qed.

Lemma num_eq_infinity (n : number) (sign : bool) :
  isFinite n = true -> num_eq n (S754_infinity sign) = false.
Proof. destruct n as [| | |sn m e]; simpl; try discriminate; now destruct sn, sign || destruct sign. Qed.

End CanCoerce.

(** X5. The three can-coerce predicates tell when a string takes part in a
    coercion: a boolean, a date or a finite number is primitive-equal to a
    string only if the string can be coerced to that kind, and then the
    boolean is compared with the lower-cased string and the date with the
    parsed time. *)
Theorem can_coerce_decides {RT : Runtime} (s : string) :
  (forall b : bool,
     comparePrimitives (VBool b) (VStr s) true =
     canCoerceToBoolean (VStr s) && Bool.eqb b (String.eqb (toLowerCase s) "true")) /\
  (forall (r : nat) (t : number),
     comparePrimitives (VDate r t) (VStr s) true =
     canCoerceToDate (VStr s) && num_eq t (DateParse s)) /\
  (forall n : number, isFinite n = true ->
     comparePrimitives (VNum n) (VStr s) true =
     canCoerceToNumber (VStr s) && num_eq n (StringToNumber s)).
Proof.
  split; [|split].
  - intros b. apply comparePrimitives_boolean_string.
  - intros r t. apply comparePrimitives_date_string.
  - intros n Hn. rewrite comparePrimitives_number_string.
    unfold canCoerceToNumber.
    destruct (StringToNumber s) as [| sg | |] eqn:E; simpl; trivial.
    + now rewrite num_eq_infinity.
    + apply num_eq_NaN_r.
Qed.

Lemma can_coerce_decides_witness :
  comparePrimitives (RT := Host.decimal_host) (VBool true) (VStr "TRUE") true = true /\
  comparePrimitives (RT := Host.decimal_host) (VBool true) (VStr "yes") true = false /\
  comparePrimitives (RT := Host.decimal_host) (VNum (num 7)) (VStr " 7 ") true = true /\
  comparePrimitives (RT := Host.decimal_host) (VNum (num 7)) (VStr "Infinity") true
  = false.
Proof.
  destruct (can_coerce_decides (RT := Host.decimal_host) "TRUE") as (H1 & _ & _).
  destruct (can_coerce_decides (RT := Host.decimal_host) "yes") as (H2 & _ & _).
  destruct (can_coerce_decides (RT := Host.decimal_host) " 7 ") as (_ & _ & H3).
  destruct (can_coerce_decides (RT := Host.decimal_host) "Infinity") as (_ & _ & H4).
  rewrite H1, H2, (H3 (num 7) eq_refl), (H4 (num 7) eq_refl).
  repeat split; reflexivity.
Defined.

(** ** Ignore patterns, one kind at a time *)

Lemma shouldIgnoreProperty_existsb (path : string) (patterns : list string) :
  shouldIgnoreProperty path patterns =
  existsb (fun pattern => shouldIgnoreProperty path [pattern]) patterns.
Proof.
  unfold shouldIgnoreProperty. destruct patterns as [|p ps]; [reflexivity|].
  cbn [length Nat.eqb]. generalize (p :: ps). intros l.
  induction l as [|q l IH]; [reflexivity|].
  cbn [existsb length Nat.eqb]. now rewrite IH, orb_false_r.
Qed.

(** X6. The patterns are tried one by one: a path is ignored by a list of
    patterns exactly when one of them ignores it, so that joining two lists
    ignores what either ignores, and the empty list ignores nothing. *)
Theorem shouldIgnoreProperty_app (path : string) (patterns patterns' : list string) :
  shouldIgnoreProperty path (patterns ++ patterns') =
  shouldIgnoreProperty path patterns || shouldIgnoreProperty path patterns'.
Proof.
  rewrite !(shouldIgnoreProperty_existsb path). apply existsb_app.
Qed.

Lemma string_app_cons (c : ascii) (s t : string) :
  (String c s ++ t = String c (s ++ t))%string.
Proof. reflexivity. Qed.

Lemma string_app_empty (t : string) : ("" ++ t = t)%string.
Proof. reflexivity. Qed.

Lemma startsWith_spec (s p : string) :
  startsWith s p = true <-> exists rest, s = (p ++ rest)%string.
Proof.
  unfold startsWith. revert s. induction p as [|c p IH]; intros s.
  - split; [intros _; now exists s|intros _; now destruct s].
  - destruct s as [|d s]; simpl.
    + split; [discriminate|]. intros [rest H]. discriminate H.
    + destruct (ascii_dec c d) as [->|Hne].
      * rewrite IH. split; intros [rest H]; exists rest.
        -- now rewrite string_app_cons, H.
        -- rewrite string_app_cons in H. now injection H.
      * split; [discriminate|]. intros [rest H].
        rewrite string_app_cons in H. congruence.
Qed.

(** X7. A pattern without [*] ignores the path equal to it and, when it
    contains a dot, every path below it ([pattern.] followed by anything); a
    bare property name ignores nothing else, in particular not the same
    name under another object. *)
Theorem plain_pattern_ignores (path pattern : string) :
  includes pattern "*" = false ->
  (shouldIgnoreProperty path [pattern] = true <->
   path = pattern \/
   (includes pattern "." = true /\
    exists rest, path = (pattern ++ "." ++ rest)%string)).
Proof.
  intros Hstar. unfold shouldIgnoreProperty. cbn [length Nat.eqb existsb].
  rewrite orb_false_r, Hstar.
  destruct (String.eqb_spec pattern path) as [->|Hne].
  { split; [now left|reflexivity]. }
  destruct (includes pattern ".") eqn:Hdot.
  - rewrite startsWith_spec. split.
    + intros [rest H]. right. split; [reflexivity|]. exists rest.
      now rewrite H, string_app_assoc.
    + intros [H|[_ [rest H]]]; [congruence|]. exists rest.
      now rewrite H, string_app_assoc.
  - rewrite String.eqb_sym. apply String.eqb_neq in Hne. rewrite Hne.
    split; [discriminate|]. intros [H|[H _]]; [|discriminate H].
    apply String.eqb_neq in Hne. congruence.
Qed.

Lemma plain_pattern_ignores_witness :
  shouldIgnoreProperty "user.profile.email" ["user.profile"] = true /\
  shouldIgnoreProperty "user._id" ["_id"] = false.
Proof.
  split.
  - apply (plain_pattern_ignores "user.profile.email" "user.profile" eq_refl).
    right. split; [reflexivity|]. now exists "email".
  - destruct (shouldIgnoreProperty "user._id" ["_id"]) eqn:E; [|reflexivity].
    apply (plain_pattern_ignores "user._id" "_id" eq_refl) in E.
    destruct E as [E|[E _]]; discriminate E.
Defined.

Lemma regex_test_star (re : list re_atom) (s : string) :
  regex_test (DotStar :: re) s =
  regex_test re s ||
  match s with
  | String d s' => negb (line_terminator d) && regex_test (DotStar :: re) s'
  | EmptyString => false
  end.
Proof. destruct s; reflexivity. Qed.

Lemma regex_test_star_spec (re : list re_atom) (s : string) :
  regex_test (DotStar :: re) s = true <->
  exists filling rest,
    s = (filling ++ rest)%string /\ no_terminator filling = true
    /\ regex_test re rest = true.
Proof.
  induction s as [|d s IH]; rewrite regex_test_star.
  - rewrite orb_false_r. split.
    + intros H. now exists "", "".
    + intros (filling & rest & Hs & _ & Hrest).
      destruct filling; [|discriminate Hs]. rewrite string_app_empty in Hs.
      now subst rest.
  - split.
    + intros H. apply orb_prop in H as [H|H].
      * now exists "", (String d s).
      * apply andb_prop in H as [Hd H]. apply IH in H as (filling & rest & -> & Hf & Hr).
        exists (String d filling), rest. repeat split; trivial.
        simpl. now rewrite Hd.
    + intros (filling & rest & Hs & Hf & Hrest).
      destruct filling as [|c filling].
      * rewrite string_app_empty in Hs. subst rest. now rewrite Hrest.
      * rewrite string_app_cons in Hs. injection Hs as <- ->. simpl in Hf.
        apply andb_prop in Hf as [Hc Hf]. rewrite Hc. cbn [andb].
        apply orb_true_intro. right. apply IH. eauto.
Qed.

Lemma wildcard_regex_spec (pattern path : string) :
  regex_test (wildcard_regex pattern) path = true <-> instance_of pattern path.
Proof.
  revert path. induction pattern as [|c pattern IH]; intros path.
  - simpl. split.
    + destruct path; [constructor|discriminate].
    + intros H. inversion H. reflexivity.
  - cbn [wildcard_regex]. destruct (Ascii.eqb_spec c "*") as [->|Hc].
    + rewrite regex_test_star_spec. split.
      * intros (filling & rest & -> & Hf & Hr). constructor; [exact Hf|].
        now apply IH.
      * intros H. inversion H as [|? ? ? Hne|? filling rest Hf Hr]; subst.
        -- now contradiction Hne.
        -- exists filling, rest. repeat split; trivial. now apply IH.
    + cbn [regex_test]. split.
      * destruct path as [|d path]; [discriminate|]. intros H.
        apply andb_prop in H as [Hd H]. apply Ascii.eqb_eq in Hd as <-.
        constructor; [exact Hc|]. now apply IH.
      * intros H. inversion H as [|? ? rest Hne Hr|]; subst.
        -- rewrite Ascii.eqb_refl. cbn [andb]. now apply IH.
        -- now contradiction Hc.
Qed.

(** X8. A pattern with [*] ignores exactly the paths that arise from it by
    putting, for every [*], a string without line terminators; every other
    character of the pattern, the dot and the other characters special to
    regular expressions included, stands for itself. *)
Theorem wildcard_pattern_ignores (path pattern : string) :
  includes pattern "*" = true ->
  (shouldIgnoreProperty path [pattern] = true <-> instance_of pattern path).
Proof.
  intros Hstar. unfold shouldIgnoreProperty. cbn [length Nat.eqb existsb].
  rewrite orb_false_r, Hstar.
  destruct (String.eqb_spec pattern path) as [->|Hne];
    [|apply wildcard_regex_spec].
  split; [intros _|reflexivity].
  clear Hstar. induction path as [|c path IH]; [constructor|].
  destruct (ascii_dec c "*") as [->|Hc].
  - apply (instance_star path "*" path); [reflexivity|exact IH].
  - now constructor.
Qed.

Lemma wildcard_pattern_ignores_witness :
  shouldIgnoreProperty "user._version" ["user._*"] = true /\
  instance_of "user._*" "user._version".
Proof.
  assert (H : shouldIgnoreProperty "user._version" ["user._*"] = true) by reflexivity.
  split; [exact H|].
  exact (proj1 (wildcard_pattern_ignores "user._version" "user._*" eq_refl) H).
Defined.

(** ** Arrays compared in order *)

Section ArraysInOrder.
Context {RT : Runtime}.
Variable self : callback.

Lemma compare_in_order_non_objects (context : ComparisonContext)
    (arrayA arrayB : list value) :
  forallb non_object arrayA = true -> forallb non_object arrayB = true ->
  forall i,
    compare_in_order self context i (combine arrayA arrayB) =
    Some (forallb (fun '(a, b) =>
                     comparePrimitives a b (enableTypeCoercion (options context)))
                  (combine arrayA arrayB)).
Proof.
  revert arrayB. induction arrayA as [|x arrayA IH]; intros [|y arrayB];
    simpl; trivial.
  intros HA HB i.
  apply andb_prop in HA as [Hx HA]. apply andb_prop in HB as [Hy HB].
  rewrite Hx, Hy. cbn [andb].
  destruct (comparePrimitives x y _); cbn [negb andb]; [now apply IH|reflexivity].
Qed.

(** At some index both arrays hold an array, and the two are different
    objects. *)
Lemma compare_in_order_nested_arrays (context : ComparisonContext)
    (arrayA arrayB : list value) (n ra rb : nat) (xs ys : list value) :
  arrayA !! n = Some (VArr ra xs) -> arrayB !! n = Some (VArr rb ys) ->
  ra <> rb ->
  forall i, compare_in_order self context i (combine arrayA arrayB) <> Some true.
Proof.
  revert arrayA arrayB. induction n as [|n IH]; intros [|x arrayA] [|y arrayB];
    try discriminate; cbn [lookup list_lookup]; intros HA HB Hne i.
  - injection HA as ->. injection HB as ->. simpl.
    rewrite (objects_equal_by_reference_aux ra rb) by trivial. discriminate.
  - specialize (IH arrayA arrayB HA HB Hne). simpl.
    destruct (non_object x && non_object y).
    { destruct (negb _); [discriminate|apply IH]. }
    destruct (is_object x && is_object y && depth_left context); [|discriminate].
    destruct (self x y _) as [dr|]; simpl; [|discriminate].
    destruct (has_keys (additions dr)) as [[|]|]; simpl; try discriminate.
    destruct (has_keys (deletions dr)) as [[|]|]; simpl; try discriminate.
    destruct (has_keys (updates dr)) as [[|]|]; simpl; try discriminate.
    apply IH.
Qed.

End ArraysInOrder.

(** X9. When the order matters and neither array holds an object (other
    than arrays), [compareArrays] is the element-wise primitive equality of
    two arrays of the same length; [internalDiff] is not called. *)
Theorem compareArrays_in_order {RT : Runtime} (self : callback)
    (arrayA arrayB : list value) (context : ComparisonContext) :
  arrayOrderMatters (options context) = true ->
  forallb non_object arrayA = true -> forallb non_object arrayB = true ->
  compareArrays self arrayA arrayB context =
  Some (Nat.eqb (length arrayA) (length arrayB) &&
        forallb (fun '(a, b) =>
                   comparePrimitives a b (enableTypeCoercion (options context)))
                (combine arrayA arrayB)).
Proof.
  intros Hord HA HB. unfold compareArrays. rewrite Hord.
  destruct (Nat.eqb (length arrayA) (length arrayB)) eqn:Hlen; [|reflexivity].
  cbn [negb andb].
  destruct (Nat.eqb (length arrayA) 0) eqn:H0.
  - apply Nat.eqb_eq in H0. destruct arrayA; [reflexivity|discriminate H0].
  - now apply compare_in_order_non_objects.
Qed.

Lemma compareArrays_in_order_witness :
  compareArrays (RT := Host.decimal_host) (fun _ _ _ => None)
    [VNum (num 1); VStr "2"; VNull] [VStr "1"; VNum (num 2); VUndefined]
    (initial_context no_options)
  = Some true.
Proof.
  rewrite (compareArrays_in_order (RT := Host.decimal_host));
    reflexivity.
Defined.

(** X10. Arrays inside arrays are compared by reference only: two arrays
    that hold, at the same index, arrays that are different objects are never
    found equal, whatever these hold and whatever the options. *)
Theorem nested_arrays_by_reference {RT : Runtime} (self : callback)
    (arrayA arrayB : list value) (context : ComparisonContext)
    (n ra rb : nat) (xs ys : list value) :
  arrayA !! n = Some (VArr ra xs) -> arrayB !! n = Some (VArr rb ys) ->
  ra <> rb ->
  compareArrays self arrayA arrayB context <> Some true.
Proof.
  intros HA HB Hne. unfold compareArrays.
  destruct (negb _); [discriminate|].
  destruct (Nat.eqb (length arrayA) 0) eqn:H0.
  { apply Nat.eqb_eq in H0. destruct arrayA; [discriminate HA|discriminate H0]. }
  assert (Hprim : forallb is_primitive arrayA = false).
  { apply not_true_is_false. intros H. rewrite forallb_forall in H.
    assert (Hin : In (VArr ra xs) arrayA).
    { apply list_elem_of_In. eapply list_elem_of_lookup_2, HA. }
    now specialize (H _ Hin). }
  rewrite Hprim, andb_false_r.
  now apply (compare_in_order_nested_arrays self context arrayA arrayB n ra rb xs ys).
Qed.

Lemma nested_arrays_by_reference_witness :
  compareArrays (RT := Host.decimal_host) (fun _ _ _ => None)
    [VArr 3 [VNum (num 1)]] [VArr 4 [VNum (num 1)]] (initial_context no_options)
  <> Some true.
Proof.
  apply (nested_arrays_by_reference (RT := Host.decimal_host) _ _ _ _
           0 3 4 [VNum (num 1)] [VNum (num 1)]).
  - reflexivity.
  - reflexivity.
  - lia.
Defined.

(** ** One-sided keys and the null cases *)

(** X11. When one argument of [diff] is [null] or [undefined] the other is
    carried over whole, as [additions] or as [deletions], with no regard to
    ignore patterns, depth or any other option; two such arguments give the
    empty result. *)
Theorem diff_nullish {RT : Runtime} (a b : value) (given : DiffOptions) :
  (is_nullish a = true -> is_nullish b = true ->
   diff a b given = Some empty_result) /\
  (is_nullish a = true -> is_nullish b = false ->
   diff a b given =
   Some {| additions := DVal b; deletions := DMap []; updates := DMap [] |}) /\
  (is_nullish a = false -> is_nullish b = true ->
   diff a b given =
   Some {| additions := DMap []; deletions := DVal a; updates := DMap [] |}).
Proof.
  unfold diff. cbn [internalDiff]. unfold internalDiff_body.
  repeat split; intros Ha Hb; rewrite Ha, Hb; reflexivity.
Qed.

Lemma diff_nullish_witness :
  diff (RT := Host.decimal_host) VUndefined VNull (with_ignore ["x"])
  = Some empty_result /\
  diff (RT := Host.decimal_host) VNull (VObj 1 [("x", VNum (num 1))]) (with_ignore ["x"])
  = Some {| additions := DVal (VObj 1 [("x", VNum (num 1))]);
            deletions := DMap []; updates := DMap [] |} /\
  diff (RT := Host.decimal_host) (VArr 1 []) VUndefined no_options
  = Some {| additions := DMap []; deletions := DVal (VArr 1 []);
            updates := DMap [] |}.
Proof.
  split; [|split].
  - exact (proj1 (diff_nullish (RT := Host.decimal_host) VUndefined VNull
                    (with_ignore ["x"])) eq_refl eq_refl).
  - exact (proj1 (proj2 (diff_nullish (RT := Host.decimal_host) VNull
                           (VObj 1 [("x", VNum (num 1))]) (with_ignore ["x"])))
             eq_refl eq_refl).
  - exact (proj2 (proj2 (diff_nullish (RT := Host.decimal_host) (VArr 1 [])
                           VUndefined no_options)) eq_refl eq_refl).
Defined.

Section OneSidedKeys.
Context {RT : Runtime}.
Variable self : callback.
Variables objA objB : list (string * value).
Variable context : ComparisonContext.
Variable key : string.

(** A turn of either loop for another key leaves the entries of [key]
    alone. *)
Lemma deletion_step_other m k :
  k <> key ->
  let m' := deletion_step objA objB context m k in
  obj_get key (m_additions m') = obj_get key (m_additions m) /\
  obj_get key (m_deletions m') = obj_get key (m_deletions m) /\
  obj_get key (m_updates m') = obj_get key (m_updates m).
Proof.
  intros Hne. unfold deletion_step.
  destruct (ignored context k); [now repeat split|].
  destruct (negb (has_key k objB)); [|now repeat split].
  cbn. repeat split. now apply obj_get_set_ne.
Qed.

Lemma update_step_other m k m' :
  k <> key ->
  update_step self objA objB context m k = Some m' ->
  obj_get key (m_additions m') = obj_get key (m_additions m) /\
  obj_get key (m_deletions m') = obj_get key (m_deletions m) /\
  obj_get key (m_updates m') = obj_get key (m_updates m).
Proof.
  intros Hne. unfold update_step.
  assert (Hset : forall (v : dval) l, obj_get key (obj_set k v l) = obj_get key l).
  { intros v l. now apply obj_get_set_ne. }
  destruct (ignored context k); [now intros [= <-]|].
  destruct (negb (has_key k objA)).
  { intros [= <-]. cbn. now rewrite Hset. }
  destruct (depth_left context && isPlainObject (prop objA k)
            && isPlainObject (prop objB k)).
  - destruct (self _ _ _) as [nr|]; simpl; [|discriminate].
    destruct (has_keys (additions nr)) as [a|]; simpl; [|discriminate].
    destruct (has_keys (deletions nr)) as [d|]; simpl; [|discriminate].
    destruct (has_keys (updates nr)) as [u|]; simpl; [|discriminate].
    intros [= <-]. cbn. destruct a, d, u; now rewrite ?Hset.
  - assert (Hupd : forall v,
              Some {| m_additions := m_additions m; m_deletions := m_deletions m;
                      m_updates := obj_set k v (m_updates m) |} = Some m' ->
              obj_get key (m_additions m') = obj_get key (m_additions m) /\
              obj_get key (m_deletions m') = obj_get key (m_deletions m) /\
              obj_get key (m_updates m') = obj_get key (m_updates m)).
    { intros v [= <-]. cbn. now rewrite Hset. }
    destruct (prop objA k);
      try (destruct (negb _); [apply Hupd|now intros [= <-]]).
    destruct (prop objB k);
      try (destruct (negb _); [apply Hupd|now intros [= <-]]).
    destruct (compareArrays _ _ _ _) as [eq|]; simpl; [|discriminate].
    destruct (negb eq); [apply Hupd|now intros [= <-]].
Qed.

Hypothesis not_ignored : ignored context key = false.

(** *** A key of [objA] alone *)
Section Deleted.
Hypothesis in_A : own_key key objA = true.
Hypothesis not_in_B : has_key key objB = false.

Lemma deletion_step_deleted m k :
  k = key \/ obj_get key (m_deletions m) = Some (DVal (prop objA key)) ->
  obj_get key (m_deletions (deletion_step objA objB context m k))
  = Some (DVal (prop objA key)).
Proof.
  destruct (String.eqb_spec k key) as [->|Hne].
  - intros _. unfold deletion_step. rewrite not_ignored, not_in_B. cbn.
    apply obj_get_set_eq.
  - intros [H|H]; [contradiction|].
    destruct (deletion_step_other m k Hne) as (_ & Hd & _). now rewrite Hd.
Qed.

Lemma deletion_loop_deleted ks m :
  In key ks \/ obj_get key (m_deletions m) = Some (DVal (prop objA key)) ->
  obj_get key (m_deletions (fold_left (deletion_step objA objB context) ks m))
  = Some (DVal (prop objA key)).
Proof.
  revert m. induction ks as [|k ks IH]; simpl; intros m H.
  - destruct H as [[]|H]. exact H.
  - apply IH. destruct H as [[->|Hin]|H]; [right|now left|right];
      apply deletion_step_deleted; auto.
Qed.

Lemma update_loop_deleted ks m m' :
  (forall k, In k ks -> In k (keys objB)) ->
  for_of (update_step self objA objB context) ks m = Some m' ->
  obj_get key (m_deletions m) = Some (DVal (prop objA key)) ->
  obj_get key (m_deletions m') = Some (DVal (prop objA key)).
Proof.
  revert m. induction ks as [|k ks IH]; simpl; intros m Hks.
  - now intros [= <-].
  - destruct (update_step _ _ _ _ m k) as [m1|] eqn:Hs; simpl; [|discriminate].
    intros Hloop Hget. apply (IH m1); auto.
    assert (Hne : k <> key).
    { intros ->. assert (Hin : In key (keys objB)) by (apply Hks; now left).
      apply has_key_keys in Hin. congruence. }
    destruct (update_step_other m k m1 Hne Hs) as (_ & Hd & _). now rewrite Hd.
Qed.

Lemma compareObjects_deleted r :
  compareObjects self objA objB context = Some r ->
  exists dels, deletions r = DMap dels /\
    obj_get key dels = Some (DVal (prop objA key)).
Proof.
  unfold compareObjects.
  destruct (for_of _ _ _) as [m|] eqn:Hf; simpl; [|discriminate].
  intros [= <-]. exists (m_deletions m). split; [reflexivity|].
  eapply update_loop_deleted; [|exact Hf|]; [auto|].
  apply deletion_loop_deleted. left. now apply own_key_keys.
Qed.

End Deleted.

(** *** A key of [objB] alone *)
Section Added.
Hypothesis not_in_A : has_key key objA = false.
Hypothesis in_B : own_key key objB = true.

Lemma deletion_loop_additions ks m :
  m_additions (fold_left (deletion_step objA objB context) ks m) = m_additions m.
Proof.
  revert m. induction ks as [|k ks IH]; simpl; intros m; [reflexivity|].
  rewrite IH. unfold deletion_step.
  destruct (ignored context k); trivial. now destruct (negb _).
Qed.

Lemma update_step_added m k m' :
  update_step self objA objB context m k = Some m' ->
  k = key \/ obj_get key (m_additions m) = Some (DVal (prop objB key)) ->
  obj_get key (m_additions m') = Some (DVal (prop objB key)).
Proof.
  destruct (String.eqb_spec k key) as [->|Hne].
  - intros Hs _. revert Hs. unfold update_step.
    rewrite not_ignored, not_in_A. cbn [negb]. intros [= <-]. cbn.
    apply obj_get_set_eq.
  - intros Hs [H|H]; [contradiction|].
    destruct (update_step_other m k m' Hne Hs) as (Ha & _). now rewrite Ha.
Qed.

Lemma update_loop_added ks m m' :
  for_of (update_step self objA objB context) ks m = Some m' ->
  In key ks \/ obj_get key (m_additions m) = Some (DVal (prop objB key)) ->
  obj_get key (m_additions m') = Some (DVal (prop objB key)).
Proof.
  revert m. induction ks as [|k ks IH]; simpl; intros m.
  - intros [= <-] [[]|H]. exact H.
  - destruct (update_step _ _ _ _ m k) as [m1|] eqn:Hs; simpl; [|discriminate].
    intros Hloop H. apply (IH m1 Hloop).
    destruct H as [[->|Hin]|H]; [right|now left|right];
      apply (update_step_added m _ m1 Hs); auto.
Qed.

Lemma compareObjects_added r :
  compareObjects self objA objB context = Some r ->
  exists adds, additions r = DMap adds /\
    obj_get key adds = Some (DVal (prop objB key)).
Proof.
  unfold compareObjects.
  destruct (for_of _ _ _) as [m|] eqn:Hf; simpl; [|discriminate].
  intros [= <-]. exists (m_additions m). split; [reflexivity|].
  eapply update_loop_added; [exact Hf|]. left. now apply own_key_keys.
Qed.

End Added.

End OneSidedKeys.

(** X12. Nothing one-sided is lost: when two plain objects are compared, at
    any level, every own key of the first that no pattern ignores and that is
    not [in] the second (neither as an own property nor as one inherited from
    [Object.prototype]) is in [deletions] with its value, and every such key
    of the second that is not [in] the first is in [additions] with its
    value. *)
Theorem one_sided_keys_reported {RT : Runtime} (fuel : nat) (ra rb : nat)
    (objA objB : list (string * value)) (context : ComparisonContext)
    (r : DiffResult) (key : string) :
  internalDiff fuel (VObj ra objA) (VObj rb objB) context = Some r ->
  ignored context key = false ->
  (own_key key objA = true -> has_key key objB = false ->
   exists dels, deletions r = DMap dels /\
     obj_get key dels = Some (DVal (prop objA key))) /\
  (has_key key objA = false -> own_key key objB = true ->
   exists adds, additions r = DMap adds /\
     obj_get key adds = Some (DVal (prop objB key))).
Proof.
  destruct fuel as [|fuel]; [discriminate|].
  rewrite internalDiff_objects. intros Hr Hig. split; intros HA HB.
  - eapply compareObjects_deleted; eauto.
  - eapply compareObjects_added; eauto.
Qed.

Lemma one_sided_keys_reported_witness :
  (exists dels, deletions PartitionExample.result = DMap dels /\
     obj_get "a" dels
     = Some (DVal (prop (RT := Host.decimal_host) PartitionExample.objA "a"))) /\
  (exists adds, additions PartitionExample.result = DMap adds /\
     obj_get "d" adds
     = Some (DVal (prop (RT := Host.decimal_host) PartitionExample.objB "d"))).
Proof.
  assert (H : internalDiff (RT := Host.decimal_host) 3 (VObj 1 PartitionExample.objA)
                (VObj 2 PartitionExample.objB) (initial_context no_options)
              = Some PartitionExample.result) by (vm_compute; reflexivity).
  split.
  - exact (proj1 (one_sided_keys_reported (RT := Host.decimal_host) 3 1 2 _ _ _ _
                    "a" H eq_refl) eq_refl eq_refl).
  - exact (proj2 (one_sided_keys_reported (RT := Host.decimal_host) 3 1 2 _ _ _ _
                    "d" H eq_refl) eq_refl eq_refl).
Defined.

(** ** Reading values by path *)

Lemma getNestedValue_undefined {RT : Runtime} (path : list string) :
  getNestedValue VUndefined path = VUndefined.
Proof. now destruct path. Qed.

Lemma getNestedValue_object {RT : Runtime} (r : nat)
    (fields : list (string * value))
    (key : string) (path : list string) :
  getNestedValue (VObj r fields) (key :: path)
  = getNestedValue (prop fields key) path.
Proof. reflexivity. Qed.

(** X13. [getNestedValue] composes along a path, and it never reads through
    what is no object: once the value reached is a primitive, [null] or
    [undefined], every longer path gives [undefined]. *)
Theorem getNestedValue_app {RT : Runtime} (obj : value) (p q : list string) :
  getNestedValue obj (p ++ q) = getNestedValue (getNestedValue obj p) q /\
  (ref_of (getNestedValue obj p) = None -> q <> [] ->
   getNestedValue obj (p ++ q) = VUndefined).
Proof.
  assert (Happ : forall v, getNestedValue v (p ++ q)
                           = getNestedValue (getNestedValue v p) q).
  { induction p as [|key p IH]; intros v; [reflexivity|].
    cbn [app getNestedValue].
    destruct (is_nullish v || negb (jstype_eqb (typeof v) TObject)).
    - now rewrite getNestedValue_undefined.
    - apply IH. }
  split; [apply Happ|].
  rewrite Happ. intros Hprim Hq.
  destruct q as [|key q]; [contradiction|].
  destruct (getNestedValue obj p); try discriminate Hprim; reflexivity.
Qed.

Lemma getNestedValue_app_witness :
  getNestedValue (RT := Host.decimal_host)
    (VObj 1 [("user", VObj 2 [("tags", VArr 3 [VStr "a"; VStr "b"])])])
    (["user"; "tags"] ++ ["1"; "x"]) = VUndefined.
Proof.
  apply (getNestedValue_app (RT := Host.decimal_host) _
           ["user"; "tags"; "1"] ["x"]).
  - reflexivity.
  - discriminate.
Defined.

Lemma entry_at_recorded (p : list string) (d e : dval) :
  entry_at p d e -> recorded p d.
Proof. induction 1; eauto using recorded. Qed.

Lemma entries_at_values {RT : Runtime} (fuel : nat) :
  forall a b context r p e,
    internalDiff fuel a b context = Some r ->
    (entry_at p (additions r) e ->
     e = DVal (getNestedValue b p) /\ getNestedValue a p = VUndefined) /\
    (entry_at p (deletions r) e ->
     e = DVal (getNestedValue a p) /\ getNestedValue b p = VUndefined) /\
    (entry_at p (updates r) e ->
     e = DFromTo (getNestedValue a p) (getNestedValue b p)).
Proof.
  induction fuel as [|fuel IH]; intros a b context r p e; [discriminate|].
  cbn [internalDiff]. intros Hr.
  destruct (isPlainObject a && isPlainObject b) eqn:Hplain.
  2:{ destruct (internalDiff_body_leaf _ _ _ _ _ p Hplain Hr) as (N1 & N2 & N3).
      split; [|split]; intros Hx; apply entry_at_recorded in Hx; contradiction. }
  destruct a as [| | | | | |ra fa| |]; try discriminate.
  destruct b as [| | | | | |rb fb| |]; try discriminate.
  change (compareObjects (internalDiff fuel) fa fb context = Some r) in Hr.
  apply compareObjects_accounted in Hr as (m & (Ha & Hd & Hu) & ->).
  cbn [additions deletions updates].
  assert (Hmap : forall key nr,
            nested_at fa fb context key = true ->
            internalDiff fuel (prop fa key) (prop fb key) (descend context key)
              = Some nr ->
            is_nested_map (additions nr) = true /\
            is_nested_map (deletions nr) = true /\
            is_nested_map (updates nr) = true).
  { intros key nr Hn Hnr. apply nested_at_plain in Hn as (_ & HpA & HpB).
    exact (internalDiff_objects_maps _ _ _ _ _ HpA HpB Hnr). }
  split; [|split]; intros Hentry;
    inversion Hentry as [key es e' Hg Hs|key p' es d e' Hg Hp']; subst;
    rewrite ?getNestedValue_object.
  - destruct (Ha key e Hg) as (_ & _ & [[HA ->]|[_ (Hn & nr & Hnr & ->)]]).
    + cbn [getNestedValue]. split; [reflexivity|]. now apply prop_missing.
    + destruct (Hmap key nr Hn Hnr) as (M & _). congruence.
  - destruct (Ha key d Hg) as (_ & _ & [[_ ->]|[_ (Hn & nr & Hnr & ->)]]).
    + inversion Hp'.
    + now apply (IH _ _ _ nr p' e Hnr).
  - destruct (Hd key e Hg) as (_ & _ & [[HB ->]|[_ (Hn & nr & Hnr & ->)]]).
    + cbn [getNestedValue]. split; [reflexivity|]. now apply prop_missing.
    + destruct (Hmap key nr Hn Hnr) as (_ & M & _). congruence.
  - destruct (Hd key d Hg) as (_ & _ & [[_ ->]|[_ (Hn & nr & Hnr & ->)]]).
    + inversion Hp'.
    + now apply (IH _ _ _ nr p' e Hnr).
  - destruct (Hu key e Hg) as (_ & _ & _ & [(Hn & nr & Hnr & ->)|[_ ->]]).
    + destruct (Hmap key nr Hn Hnr) as (_ & _ & M). congruence.
    + reflexivity.
  - destruct (Hu key d Hg) as (_ & _ & _ & [(Hn & nr & Hnr & ->)|[_ ->]]).
    + now apply (IH _ _ _ nr p' e Hnr).
    + inversion Hp'.
Qed.

(** X14. What [diff] reports is what the inputs hold: a scalar entry at a
    key path of [additions] is the value of the second input at that path,
    where the first has nothing; of [deletions], the value of the first,
    where the second has nothing; and an entry of [updates] is [{from, to}]
    with the values of the first and of the second input at that path, as
    [getNestedValue] reads them. *)
Theorem diff_reports_input_values {RT : Runtime} (objectA objectB : value)
    (given : DiffOptions) (r : DiffResult) (p : list string) (e : dval) :
  diff objectA objectB given = Some r ->
  (entry_at p (additions r) e ->
   e = DVal (getNestedValue objectB p) /\ getNestedValue objectA p = VUndefined) /\
  (entry_at p (deletions r) e ->
   e = DVal (getNestedValue objectA p) /\ getNestedValue objectB p = VUndefined) /\
  (entry_at p (updates r) e ->
   e = DFromTo (getNestedValue objectA p) (getNestedValue objectB p)).
Proof. apply entries_at_values. Qed.

Lemma diff_reports_input_values_witness :
  DFromTo (VNum (num 2)) (VNum (num 3))
  = DFromTo (getNestedValue (RT := Host.decimal_host)
               (VObj 1 PartitionExample.objA) ["b"; "y"])
            (getNestedValue (RT := Host.decimal_host)
               (VObj 2 PartitionExample.objB) ["b"; "y"]).
Proof.
  assert (H : diff (RT := Host.decimal_host) (VObj 1 PartitionExample.objA)
                (VObj 2 PartitionExample.objB) no_options
              = Some PartitionExample.result) by (vm_compute; reflexivity).
  apply (diff_reports_input_values (RT := Host.decimal_host) _ _ _ _
           ["b"; "y"] (DFromTo (VNum (num 2)) (VNum (num 3))) H).
  eapply entry_below; [reflexivity|]. now eapply entry_here.
Defined.

(** X15. At a depth that has reached [maxDepth] the comparison of two plain
    objects is flat: no entry of the three maps is a nested map, every
    difference is reported under a key of the two objects themselves. *)
Theorem flat_at_depth_limit {RT : Runtime} (fuel : nat) (ra rb : nat)
    (objA objB : list (string * value)) (context : ComparisonContext)
    (r : DiffResult) :
  maxDepth (options context) <= Z.of_nat (depth context) ->
  internalDiff fuel (VObj ra objA) (VObj rb objB) context = Some r ->
  exists adds dels upds,
    r = result_maps adds dels upds /\
    forall key e,
      obj_get key adds = Some e \/ obj_get key dels = Some e
      \/ obj_get key upds = Some e ->
      is_nested_map e = false.
Proof.
  intros Hdepth. destruct fuel as [|fuel]; [discriminate|].
  rewrite internalDiff_objects. intros Hr.
  apply compareObjects_accounted in Hr as (m & (Ha & Hd & Hu) & ->).
  exists (m_additions m), (m_deletions m), (m_updates m).
  split; [reflexivity|].
  assert (Hflat : forall key, nested_at objA objB context key = false).
  { intros key. unfold nested_at, depth_left.
    replace (Z.of_nat (depth context) <? maxDepth (options context)) with false;
      [reflexivity|]. symmetry. now apply Z.ltb_ge. }
  intros key e [H|[H|H]].
  - destruct (Ha key e H) as (_ & _ & [[_ ->]|[_ (Hn & _)]]); [reflexivity|].
    rewrite Hflat in Hn. discriminate Hn.
  - destruct (Hd key e H) as (_ & _ & [[_ ->]|[_ (Hn & _)]]); [reflexivity|].
    rewrite Hflat in Hn. discriminate Hn.
  - destruct (Hu key e H) as (_ & _ & _ & [(Hn & _)|[_ ->]]); [|reflexivity].
    rewrite Hflat in Hn. discriminate Hn.
Qed.

Lemma flat_at_depth_limit_witness :
  exists adds dels upds,
    result_maps [] [] [("k", DFromTo DepthExample.inner1 DepthExample.inner2)]
    = result_maps adds dels upds /\
    forall key e,
      obj_get key adds = Some e \/ obj_get key dels = Some e
      \/ obj_get key upds = Some e ->
      is_nested_map e = false.
Proof.
  apply (flat_at_depth_limit (RT := Host.decimal_host) 3 1 2
           [("k", DepthExample.inner1)] [("k", DepthExample.inner2)]
           (initial_context DepthExample.given)).
  - vm_compute. discriminate.
  - vm_compute. reflexivity.
Defined.

(** ** The depth limit bounds the recursion *)

(** X16. The recursion of [internalDiff] is bounded by the depth limit and
    not by the inputs: whatever their nesting, a stack of [maxDepth + 1]
    frames of [internalDiff] is enough for the whole comparison, and gives
    the result of [diff]. *)
Theorem maxDepth_bounds_recursion {RT : Runtime} (objectA objectB : value)
    (given : DiffOptions) :
  exists r,
    internalDiff (S (Z.to_nat (maxDepth (merge_options given))))
      objectA objectB (initial_context given) = Some r /\
    diff objectA objectB given = Some r.
Proof.
  destruct (internalDiff_within (S (Z.to_nat (maxDepth (merge_options given))))
              objectA objectB (initial_context given)) as (r & Hr & _).
  { cbn [initial_context depth options]. lia. }
  destruct (internalDiff_fuel_enough (S (height objectB)) objectA objectB
              (initial_context given)) as (r' & Hr' & _); [lia|].
  exists r. split; [exact Hr|].
  unfold diff. change (internalDiff (S (height objectB)) objectA objectB
                         (initial_context given) = Some r).
  rewrite Hr'. f_equal.
  pose (big := Nat.max (S (Z.to_nat (maxDepth (merge_options given))))
                       (S (height objectB))).
  apply (internalDiff_more_fuel _ big) in Hr; [|subst big; lia].
  apply (internalDiff_more_fuel _ big) in Hr'; [|subst big; lia].
  congruence.
Qed.

(** ** The values of ignored keys *)

Section IgnoredKey.
Context {RT : Runtime}.
Variable self : callback.
Variable context : ComparisonContext.
Variable key : string.
Hypothesis key_ignored : ignored context key = true.
Variables objA objB objA' objB' : list (string * value).
Hypothesis same_A : same_except key objA objA'.
Hypothesis same_B : same_except key objB objB'.

Local Abbreviation others :=
  (List.filter (fun k => negb (String.eqb k key))).

Lemma In_others (ks : list string) (k : string) : In k (others ks) -> k <> key.
Proof.
  intros [_ Hk]%filter_In ->. now rewrite String.eqb_refl in Hk.
Qed.

Lemma deletion_step_unchanged m k :
  k <> key ->
  deletion_step objA' objB' context m k = deletion_step objA objB context m k.
Proof.
  intros Hne. unfold deletion_step, has_key, own_key, prop.
  destruct same_A as [_ HA], same_B as [_ HB].
  now rewrite (HA k Hne), (HB k Hne).
Qed.

Lemma update_step_unchanged m k :
  k <> key ->
  update_step self objA' objB' context m k = update_step self objA objB context m k.
Proof.
  intros Hne. unfold update_step, has_key, own_key, prop.
  destruct same_A as [_ HA], same_B as [_ HB].
  now rewrite (HA k Hne), (HB k Hne).
Qed.

Lemma deletion_loop_others fa fb ks m :
  fold_left (deletion_step fa fb context) ks m
  = fold_left (deletion_step fa fb context) (others ks) m.
Proof.
  revert m. induction ks as [|k ks IH]; intros m; [reflexivity|].
  cbn [fold_left List.filter].
  destruct (String.eqb_spec k key) as [->|Hne]; cbn [negb fold_left].
  - replace (deletion_step fa fb context m key) with m
      by (unfold deletion_step; now rewrite key_ignored).
    apply IH.
  - apply IH.
Qed.

Lemma update_loop_others fa fb ks m :
  for_of (update_step self fa fb context) ks m
  = for_of (update_step self fa fb context) (others ks) m.
Proof.
  revert m. induction ks as [|k ks IH]; intros m; [reflexivity|].
  cbn [for_of List.filter].
  destruct (String.eqb_spec k key) as [->|Hne]; cbn [negb for_of].
  - replace (update_step self fa fb context m key) with (Some m)
      by (unfold update_step; now rewrite key_ignored).
    apply IH.
  - destruct (update_step self fa fb context m k); [apply IH|reflexivity].
Qed.

Lemma deletion_loop_unchanged ks m :
  (forall k, In k ks -> k <> key) ->
  fold_left (deletion_step objA' objB' context) ks m
  = fold_left (deletion_step objA objB context) ks m.
Proof.
  revert m. induction ks as [|k ks IH]; intros m Hks; [reflexivity|].
  cbn [fold_left]. rewrite deletion_step_unchanged by (apply Hks; now left).
  apply IH. intros k' Hin. apply Hks. now right.
Qed.

Lemma update_loop_unchanged ks m :
  (forall k, In k ks -> k <> key) ->
  for_of (update_step self objA' objB' context) ks m
  = for_of (update_step self objA objB context) ks m.
Proof.
  revert m. induction ks as [|k ks IH]; intros m Hks; [reflexivity|].
  cbn [for_of]. rewrite update_step_unchanged by (apply Hks; now left).
  destruct (update_step self objA objB context m k); [|reflexivity].
  apply IH. intros k' Hin. apply Hks. now right.
Qed.

Lemma compareObjects_ignored_key :
  compareObjects self objA' objB' context = compareObjects self objA objB context.
Proof.
  unfold compareObjects.
  rewrite (deletion_loop_others objA' objB'), (deletion_loop_others objA objB).
  rewrite (update_loop_others objA' objB'), (update_loop_others objA objB).
  destruct same_A as [<- _], same_B as [<- _].
  rewrite deletion_loop_unchanged by apply In_others.
  rewrite update_loop_unchanged by apply In_others.
  reflexivity.
Qed.

End IgnoredKey.

(** X17. An ignored key has no influence on the result: when a key of the
    top level is matched by [ignoreProperties], [diff] returns the same
    result whatever that key holds in either input, and whether it is there
    at all, as long as the other keys keep their order and their values. *)
Theorem ignored_key_irrelevant {RT : Runtime} (ra rb ra' rb' : nat)
    (objA objB objA' objB' : list (string * value)) (given : DiffOptions)
    (key : string) :
  shouldIgnoreProperty key (ignoreProperties (merge_options given)) = true ->
  same_except key objA objA' -> same_except key objB objB' ->
  diff (VObj ra' objA') (VObj rb' objB') given
  = diff (VObj ra objA) (VObj rb objB) given.
Proof.
  intros Hign HA HB.
  set (a := VObj ra objA). set (a' := VObj ra' objA').
  set (b := VObj rb objB). set (b' := VObj rb' objB').
  destruct (internalDiff_fuel_enough (S (height b)) a b (initial_context given))
    as (r & Hr & _); [lia|].
  destruct (internalDiff_fuel_enough (S (height b')) a' b' (initial_context given))
    as (r' & Hr' & _); [lia|].
  change (diff a' b' given = diff a b given).
  change (diff a b given) with (internalDiff (S (height b)) a b (initial_context given)).
  change (diff a' b' given)
    with (internalDiff (S (height b')) a' b' (initial_context given)).
  rewrite Hr, Hr'. f_equal.
  pose (big := Nat.max (height b) (height b')).
  apply (internalDiff_more_fuel _ (S big)) in Hr; [|subst big; lia].
  apply (internalDiff_more_fuel _ (S big)) in Hr'; [|subst big; lia].
  subst a a' b b'. rewrite internalDiff_objects in Hr, Hr'.
  rewrite (compareObjects_ignored_key _ (initial_context given) key Hign
             objA objB objA' objB' HA HB) in Hr'.
  congruence.
Qed.

Lemma ignored_key_irrelevant_witness :
  diff (RT := Host.decimal_host)
    (VObj 3 [("a", VNum (num 1))])
    (VObj 4 [("a", VNum (num 2)); ("_id", VObj 5 [])])
    (with_ignore ["_id"])
  = diff (RT := Host.decimal_host)
      (VObj 1 [("_id", VStr "x"); ("a", VNum (num 1))])
      (VObj 2 [("a", VNum (num 2)); ("_id", VStr "y")])
      (with_ignore ["_id"]).
Proof.
  apply (ignored_key_irrelevant (RT := Host.decimal_host)) with (key := "_id").
  - reflexivity.
  - split; [reflexivity|]. intros k Hk. cbn [obj_get].
    destruct (String.eqb_spec "_id" k) as [<-|_]; [contradiction|reflexivity].
  - split; [reflexivity|]. intros k Hk. cbn [obj_get].
    destruct (String.eqb "a" k); [reflexivity|].
    destruct (String.eqb_spec "_id" k) as [<-|_]; [contradiction|reflexivity].
Defined.

(** ** What an empty result tells *)

Lemma is_object_not_nullish (v : value) : is_object v = true -> is_nullish v = false.
Proof. now destruct v. Qed.

Lemma isPlainObject_not_nullish (v : value) :
  isPlainObject v = true -> is_nullish v = false.
Proof. now destruct v. Qed.

Lemma Forall_combine_Forall2 {A B : Type} (P : A -> B -> Prop) (l : list A) :
  forall l' : list B,
    length l = length l' ->
    List.Forall (fun p => P (fst p) (snd p)) (combine l l') -> Forall2 P l l'.
Proof.
  induction l as [|x l IH]; intros [|y l'] Hlen H; try discriminate Hlen.
  - constructor.
  - inversion H; subst. constructor; [assumption|]. apply IH; [|assumption].
    now injection Hlen.
Qed.

Section Ordinary.
Context {RT : Runtime}.

(** A name [Object.prototype] does not have is no prototype link. *)
Lemma fresh_not_link (key : string) : Inherited key = None -> proto_link key = false.
Proof. unfold proto_link. intros ->. apply andb_false_r. Qed.

(** Writing at such a name leaves a key for [Object.keys] to find. *)
Lemma own_entries_set_fresh (key : string) (e : dval) (m : list (string * dval)) :
  Inherited key = None -> own_entries (obj_set key e m) <> [].
Proof.
  intros Hk. apply fresh_not_link in Hk. unfold own_entries.
  induction m as [|[k w] m IH]; simpl.
  - now rewrite Hk.
  - destruct (String.eqb_spec k key) as [->|Hne]; simpl.
    + now rewrite Hk.
    + destruct (proto_link k); simpl; [exact IH|discriminate].
Qed.

Lemma has_keys_DMap_false (entries : list (string * dval)) :
  has_keys (DMap entries) = Some false -> own_entries entries = [].
Proof.
  simpl. intros [= H]. now destruct (own_entries entries).
Qed.

Lemma ordinary_key (r : nat) (fields : list (string * value)) (key : string) :
  ordinary (VObj r fields) = true -> In key (keys fields) -> Inherited key = None.
Proof.
  simpl. rewrite forallb_forall. unfold keys. intros H Hin.
  apply in_map_iff in Hin as ([k v] & <- & Hin). apply H in Hin. simpl in *.
  now destruct (Inherited k).
Qed.

Lemma ordinary_prop (r : nat) (fields : list (string * value)) (key : string) :
  ordinary (VObj r fields) = true -> own_key key fields = true ->
  ordinary (prop fields key) = true.
Proof.
  simpl. rewrite forallb_forall. intros H Hk.
  apply own_key_prop, obj_get_In, H in Hk. simpl in Hk.
  now destruct (Inherited key).
Qed.

Lemma ordinary_own (r : nat) (fields : list (string * value)) (key : string) :
  ordinary (VObj r fields) = true -> In key (keys fields) ->
  has_key key fields = own_key key fields.
Proof.
  intros H Hin. unfold has_key. rewrite (ordinary_key r fields key H Hin).
  apply orb_false_r.
Qed.

Lemma ordinary_combine (itemsA itemsB : list value) :
  forallb ordinary itemsA = true -> forallb ordinary itemsB = true ->
  List.Forall (fun p => ordinary (fst p) = true /\ ordinary (snd p) = true)
              (combine itemsA itemsB).
Proof.
  rewrite !forallb_forall. intros HA HB. apply List.Forall_forall.
  intros [x y] Hin. simpl. split.
  - eapply HA, in_combine_l, Hin.
  - eapply HB, in_combine_r, Hin.
Qed.

End Ordinary.

Section Quiet.
Context {RT : Runtime}.

(** Options under which values are compared exactly, in order and all. *)
Local Abbreviation exact_options o :=
  (enableTypeCoercion o = false /\ arrayOrderMatters o = true
   /\ ignoreProperties o = []).

Local Abbreviation quiet m :=
  (own_entries (m_additions m) = [] /\ own_entries (m_deletions m) = []
   /\ own_entries (m_updates m) = []).

Local Abbreviation sound self :=
  (forall x y c r,
     exact_options (options c) -> is_nullish x = false -> is_nullish y = false ->
     ordinary x = true -> ordinary y = true ->
     self x y c = Some r -> no_difference r -> similar x y).

Lemma exact_not_ignored (context : ComparisonContext) (key : string) :
  exact_options (options context) -> ignored context key = false.
Proof. intros (_ & _ & Hi). unfold ignored. now rewrite Hi. Qed.

Lemma exact_comparePrimitives (context : ComparisonContext) (a b : value) :
  exact_options (options context) ->
  comparePrimitives a b (enableTypeCoercion (options context)) = strict_eq a b.
Proof.
  intros (-> & _). unfold comparePrimitives. now destruct (strict_eq a b).
Qed.

Section Callback.
Variable self : callback.
Hypothesis self_sound : sound self.

Lemma quiet_result (x y : value) (c : ComparisonContext) (dr : DiffResult)
    (a d u : bool) :
  exact_options (options c) -> is_nullish x = false -> is_nullish y = false ->
  ordinary x = true -> ordinary y = true ->
  self x y c = Some dr ->
  has_keys (additions dr) = Some a -> has_keys (deletions dr) = Some d ->
  has_keys (updates dr) = Some u ->
  a = false -> d = false -> u = false -> similar x y.
Proof.
  intros Hex Hx Hy Ox Oy Hdr Ha Hd Hu -> -> ->.
  apply (self_sound x y c dr); trivial. now repeat split.
Qed.

Lemma compare_in_order_quiet (context : ComparisonContext)
    (items : list (value * value)) :
  exact_options (options context) ->
  List.Forall (fun p => ordinary (fst p) = true /\ ordinary (snd p) = true) items ->
  forall i, compare_in_order self context i items = Some true ->
            List.Forall (fun p => similar (fst p) (snd p)) items.
Proof.
  intros Hex. induction items as [|[itemA itemB] rest IH]; intros Hord i; simpl.
  - constructor.
  - inversion Hord as [|? ? [OA OB] Hrest]; subst. simpl in OA, OB.
    destruct (non_object itemA && non_object itemB).
    { rewrite exact_comparePrimitives by assumption.
      destruct (strict_eq itemA itemB) eqn:Heq; simpl; [|discriminate].
      intros H. constructor; [now apply similar_same|]. eapply IH, H. exact Hrest. }
    destruct (is_object itemA && is_object itemB && depth_left context) eqn:Hobj;
      [|discriminate].
    apply andb_prop in Hobj as [Hobj _]. apply andb_prop in Hobj as [HoA HoB].
    destruct (self itemA itemB _) as [dr|] eqn:Hdr; simpl; [|discriminate].
    destruct (has_keys (additions dr)) as [a|] eqn:Ha; simpl; [|discriminate].
    destruct a; [discriminate|].
    destruct (has_keys (deletions dr)) as [d|] eqn:Hd; simpl; [|discriminate].
    destruct d; [discriminate|].
    destruct (has_keys (updates dr)) as [u|] eqn:Hu; simpl; [|discriminate].
    destruct u; [discriminate|].
    intros H. constructor; [|eapply IH, H; exact Hrest].
    apply (quiet_result itemA itemB (descend context (pretty (N.of_nat i)))
             dr false false false Hex);
      auto using is_object_not_nullish.
Qed.

Lemma compareArrays_quiet (context : ComparisonContext) (arrayA arrayB : list value) :
  exact_options (options context) ->
  forallb ordinary arrayA = true -> forallb ordinary arrayB = true ->
  compareArrays self arrayA arrayB context = Some true ->
  Forall2 similar arrayA arrayB.
Proof.
  intros Hex OA OB. pose proof Hex as (_ & Hord & _). unfold compareArrays.
  destruct (Nat.eqb (length arrayA) (length arrayB)) eqn:Hlen; simpl;
    [|discriminate].
  apply Nat.eqb_eq in Hlen. rewrite Hord. simpl.
  destruct (Nat.eqb (length arrayA) 0) eqn:H0.
  - intros _. apply Nat.eqb_eq in H0.
    destruct arrayA; [|discriminate H0]. destruct arrayB; [|discriminate Hlen].
    constructor.
  - intros H. apply Forall_combine_Forall2; [assumption|].
    apply (compare_in_order_quiet context _ Hex (ordinary_combine _ _ OA OB) 0%nat).
    exact H.
Qed.

Section Objects.
Variables (ra rb : nat) (objA objB : list (string * value)).
Variable context : ComparisonContext.
Hypothesis options_exact : exact_options (options context).
Hypothesis ordinary_A : ordinary (VObj ra objA) = true.
Hypothesis ordinary_B : ordinary (VObj rb objB) = true.

Lemma deletion_step_quiet (m : maps) (key : string) :
  In key (keys objA) ->
  quiet (deletion_step objA objB context m key) ->
  deletion_step objA objB context m key = m /\ own_key key objB = true.
Proof.
  intros Hin. pose proof (ordinary_key _ _ _ ordinary_A Hin) as Hk.
  unfold deletion_step, has_key.
  rewrite (exact_not_ignored context key options_exact), Hk, orb_false_r.
  destruct (own_key key objB); simpl; [tauto|].
  intros (_ & Hd & _). now apply own_entries_set_fresh in Hd.
Qed.

Lemma deletion_loop_quiet (ks : list string) :
  (forall key, In key ks -> In key (keys objA)) ->
  forall m,
    quiet (fold_left (deletion_step objA objB context) ks m) ->
    quiet m /\ forall key, In key ks -> own_key key objB = true.
Proof.
  induction ks as [|k ks IH]; intros Hks m; simpl.
  - intros H. split; [exact H|tauto].
  - intros H. apply IH in H as [Hq Hrest]; [|intros; apply Hks; now right].
    apply deletion_step_quiet in Hq as Hstep; [|apply Hks; now left].
    destruct Hstep as [Hm Hk]. rewrite Hm in Hq. split; [exact Hq|].
    intros key [<-|Hin]; auto.
Qed.

Lemma update_step_quiet (m m' : maps) (key : string) :
  In key (keys objB) ->
  update_step self objA objB context m key = Some m' -> quiet m' ->
  quiet m /\ own_key key objA = true /\ similar (prop objA key) (prop objB key).
Proof.
  intros Hin. pose proof (ordinary_key _ _ _ ordinary_B Hin) as Hk.
  pose proof (ordinary_prop _ _ _ ordinary_B (keys_own_key _ _ Hin)) as OB.
  unfold update_step, has_key.
  rewrite (exact_not_ignored context key options_exact), Hk, orb_false_r.
  destruct (own_key key objA) eqn:EA; simpl.
  2:{ intros [= <-] (Ha & _). now apply own_entries_set_fresh in Ha. }
  pose proof (ordinary_prop _ _ _ ordinary_A EA) as OA.
  destruct (depth_left context && isPlainObject (prop objA key)
            && isPlainObject (prop objB key)) eqn:Hn.
  - apply andb_prop in Hn as [Hn HpB]. apply andb_prop in Hn as [_ HpA].
    destruct (self _ _ _) as [dr|] eqn:Hdr; simpl; [|discriminate].
    destruct (has_keys (additions dr)) as [a|] eqn:Ha; simpl; [|discriminate].
    destruct (has_keys (deletions dr)) as [d|] eqn:Hd; simpl; [|discriminate].
    destruct (has_keys (updates dr)) as [u|] eqn:Hu; simpl; [|discriminate].
    intros [= <-]. cbn [m_additions m_deletions m_updates].
    intros (Qa & Qd & Qu).
    destruct a; [now apply own_entries_set_fresh in Qa|].
    destruct d; [now apply own_entries_set_fresh in Qd|].
    destruct u; [now apply own_entries_set_fresh in Qu|].
    repeat split; trivial.
    apply (quiet_result _ _ (descend context key) dr false false false
             options_exact);
      auto using isPlainObject_not_nullish.
  - assert (Hprim :
      Some (if negb (comparePrimitives (prop objA key) (prop objB key)
                       (enableTypeCoercion (options context)))
            then {| m_additions := m_additions m;
                    m_deletions := m_deletions m;
                    m_updates := obj_set key (DFromTo (prop objA key) (prop objB key))
                                         (m_updates m) |}
            else m) = Some m' ->
      quiet m' ->
      quiet m /\ true = true /\ similar (prop objA key) (prop objB key)).
    { rewrite exact_comparePrimitives by assumption.
      destruct (strict_eq _ _) eqn:Heq; simpl; intros [= <-].
      - intros Hq. repeat split; try apply Hq. now apply similar_same.
      - intros (_ & _ & Qu). now apply own_entries_set_fresh in Qu. }
    destruct (prop objA key) as [| | | | |ia itemsA| | |] eqn:HA; try exact Hprim.
    destruct (prop objB key) as [| | | | |ib itemsB| | |] eqn:HB; try exact Hprim.
    clear Hprim.
    destruct (compareArrays self itemsA itemsB _) as [eq|] eqn:Hc; simpl;
      [|discriminate].
    destruct eq; simpl; intros [= <-].
    + intros Hq. repeat split; try apply Hq.
      apply similar_arrays.
      now apply (compareArrays_quiet (extend_path context key)).
    + intros (_ & _ & Qu). now apply own_entries_set_fresh in Qu.
Qed.

Lemma update_loop_quiet (ks : list string) :
  (forall key, In key ks -> In key (keys objB)) ->
  forall m m',
    for_of (update_step self objA objB context) ks m = Some m' -> quiet m' ->
    quiet m /\
    forall key, In key ks ->
      own_key key objA = true /\ similar (prop objA key) (prop objB key).
Proof.
  induction ks as [|k ks IH]; intros Hks m m'; simpl.
  - intros [= <-] H. split; [exact H|tauto].
  - destruct (update_step self objA objB context m k) as [m1|] eqn:Hs; simpl;
      [|discriminate].
    intros Hf Hq.
    destruct (IH (fun key H => Hks key (or_intror H)) _ _ Hf Hq) as [Hq1 Hrest].
    destruct (update_step_quiet _ _ _ (Hks k (or_introl eq_refl)) Hs Hq1)
      as (Hm & Hk).
    split; [exact Hm|]. intros key [<-|Hin]; auto.
Qed.

Lemma compareObjects_quiet (r : DiffResult) :
  compareObjects self objA objB context = Some r -> no_difference r ->
  similar (VObj ra objA) (VObj rb objB).
Proof.
  unfold compareObjects.
  destruct (for_of _ _ _) as [m|] eqn:Hf; simpl; [|discriminate].
  intros [= <-] (Ha & Hd & Hu). cbn [additions deletions updates] in Ha, Hd, Hu.
  apply has_keys_DMap_false in Ha, Hd, Hu.
  destruct (update_loop_quiet _ (fun key H => H) _ _ Hf (conj Ha (conj Hd Hu)))
    as [Hq HB].
  apply deletion_loop_quiet in Hq as [_ HA]; [|auto].
  apply similar_objects.
  - intros key. destruct (own_key key objA) eqn:EA, (own_key key objB) eqn:EB;
      trivial.
    + apply own_key_keys, HA in EA. congruence.
    + apply own_key_keys, HB in EB as [EB _]. congruence.
  - intros key EA. apply own_key_keys, HA, own_key_keys in EA. now apply HB in EA.
Qed.

End Objects.

Lemma internalDiff_body_quiet : sound (internalDiff_body self).
Proof.
  intros x y c r Hex Hx Hy Ox Oy. unfold internalDiff_body. rewrite Hx, Hy. simpl.
  assert (Hupd : forall res : DiffResult,
            updates res = DFromTo x y -> no_difference res -> similar x y).
  { intros res Hres (_ & _ & Hu). rewrite Hres in Hu. discriminate Hu. }
  destruct (negb (jstype_eqb (typeof x) (typeof y))).
  { destruct (enableTypeCoercion (options c)); intros [= <-];
      now apply Hupd. }
  assert (Hprim :
    Some (if negb (comparePrimitives x y (enableTypeCoercion (options c)))
          then {| additions := additions empty_result;
                  deletions := deletions empty_result;
                  updates := DFromTo x y |}
          else empty_result) = Some r ->
    no_difference r -> similar x y).
  { rewrite exact_comparePrimitives by assumption.
    destruct (strict_eq x y) eqn:Heq; simpl; intros [= <-].
    - intros _. now apply similar_same.
    - now apply Hupd. }
  destruct x as [| | | | |ra itemsA|ra fieldsA| |]; try exact Hprim.
  - destruct y as [| | | | |rb itemsB| | |]; try exact Hprim. clear Hprim.
    destruct (compareArrays self itemsA itemsB c) as [eq|] eqn:Hc; simpl;
      [|discriminate].
    destruct eq; simpl; intros [= <-].
    + intros _. apply similar_arrays. now apply (compareArrays_quiet c).
    + now apply Hupd.
  - destruct y as [| | | | | |rb fieldsB| |]; try exact Hprim. clear Hprim.
    now apply (compareObjects_quiet ra rb).
Qed.

End Callback.

Lemma internalDiff_quiet (fuel : nat) : sound (internalDiff fuel).
Proof.
  induction fuel as [|fuel IH]; [discriminate|].
  apply internalDiff_body_quiet, IH.
Qed.

End Quiet.

(** X18. An empty result is sound. Take two values, neither [null] nor
    [undefined], in which no own property at any depth has a name that
    [Object.prototype] provides too. With type coercion off, array order
    significant and nothing ignored, when [diff] of the two returns three
    maps without keys, the values are alike all the way down: strictly
    equal, or arrays with alike elements in the same order, or plain objects
    with the same own keys and alike values. *)
Theorem empty_diff_sound {RT : Runtime} (objectA objectB : value)
    (given : DiffOptions) (r : DiffResult) :
  enableTypeCoercion (merge_options given) = false ->
  arrayOrderMatters (merge_options given) = true ->
  ignoreProperties (merge_options given) = [] ->
  is_nullish objectA = false -> is_nullish objectB = false ->
  ordinary objectA = true -> ordinary objectB = true ->
  diff objectA objectB given = Some r -> no_difference r ->
  similar objectA objectB.
Proof.
  intros Hc Ho Hi HA HB OA OB Hr Hq.
  apply (internalDiff_quiet (S (height objectB)) objectA objectB
           (initial_context given) r); auto.
Qed.

Lemma empty_diff_sound_witness :
  similar (RT := Host.decimal_host)
    (VObj 1 [("a", VArr 2 [VNum (num 1); VObj 3 [("k", VStr "v")]]);
             ("b", VNull)])
    (VObj 4 [("b", VNull);
             ("a", VArr 5 [VNum (num 1); VObj 6 [("k", VStr "v")]])]).
Proof.
  apply (empty_diff_sound (RT := Host.decimal_host) _ _ (with_coercion false)
           empty_result); try reflexivity.
  now repeat split.
Defined.

(** ** What one key contributes *)

Section PerKey.
Context {RT : Runtime}.
Variable self : callback.
Variables objA objB : list (string * value).
Variable context : ComparisonContext.
Variable key : string.

Local Abbreviation agree_at m m' :=
  (obj_get key (m_additions m) = obj_get key (m_additions m') /\
   obj_get key (m_deletions m) = obj_get key (m_deletions m') /\
   obj_get key (m_updates m) = obj_get key (m_updates m')).

Local Abbreviation no_maps :=
  {| m_additions := []; m_deletions := []; m_updates := [] |}.

Local Abbreviation put e l :=
  (match e with Some v => obj_set key v l%list | None => l%list end).

Local Abbreviation put_all ea ed eu n :=
  {| m_additions := put ea (m_additions n);
     m_deletions := put ed (m_deletions n);
     m_updates := put eu (m_updates n) |}.

Lemma obj_get_put {A : Type} (e : option A) (l : list (string * A)) :
  obj_get key (put e l) = match e with Some v => Some v | None => obj_get key l end.
Proof. destruct e; [apply obj_get_set_eq|reflexivity]. Qed.

Lemma put_all_agree ea ed eu m n :
  agree_at m n -> agree_at (put_all ea ed eu m) (put_all ea ed eu n).
Proof.
  intros (Ha & Hd & Hu). cbn [m_additions m_deletions m_updates].
  rewrite !obj_get_put. now destruct ea, ed, eu.
Qed.

Lemma put_all_twice ea ed eu m :
  agree_at (put_all ea ed eu (put_all ea ed eu m)) (put_all ea ed eu m).
Proof.
  cbn [m_additions m_deletions m_updates].
  rewrite !obj_get_put. now destruct ea, ed, eu.
Qed.

(** A turn of a loop for [key] writes the same entries whatever the maps
    hold. *)
Lemma deletion_step_effect :
  exists ed, forall n,
    deletion_step objA objB context n key = put_all None ed None n.
Proof.
  unfold deletion_step.
  destruct (ignored context key); [exists None; now intros []|].
  destruct (negb (has_key key objB)).
  - now exists (Some (DVal (prop objA key))).
  - exists None. now intros [].
Qed.

Lemma update_step_effect m m' :
  update_step self objA objB context m key = Some m' ->
  exists ea ed eu, forall n,
    update_step self objA objB context n key = Some (put_all ea ed eu n).
Proof.
  unfold update_step.
  assert (Hnone : exists ea ed eu, forall n : maps, Some n = Some (put_all ea ed eu n)).
  { exists None, None, None. now intros []. }
  destruct (ignored context key); [intros _; exact Hnone|].
  destruct (negb (has_key key objA)).
  { intros _. now exists (Some (DVal (prop objB key))), None, None. }
  destruct (depth_left context && isPlainObject (prop objA key)
            && isPlainObject (prop objB key)).
  - destruct (self _ _ _) as [nr|]; simpl; [|discriminate].
    destruct (has_keys (additions nr)) as [a|]; simpl; [|discriminate].
    destruct (has_keys (deletions nr)) as [d|]; simpl; [|discriminate].
    destruct (has_keys (updates nr)) as [u|]; simpl; [|discriminate].
    intros _.
    exists (if a then Some (additions nr) else None),
           (if d then Some (deletions nr) else None),
           (if u then Some (updates nr) else None).
    intros n. now destruct a, d, u.
  - assert (Hraw : forall (b : bool) (v : dval),
              exists ea ed eu, forall n : maps,
                Some (if b
                      then {| m_additions := m_additions n;
                              m_deletions := m_deletions n;
                              m_updates := obj_set key v (m_updates n) |}
                      else n) = Some (put_all ea ed eu n)).
    { intros [] v; [|exact Hnone]. now exists None, None, (Some v). }
    destruct (prop objA key); try (intros _; apply Hraw).
    destruct (prop objB key); try (intros _; apply Hraw).
    destruct (compareArrays _ _ _ _) as [eq|]; simpl; [|discriminate].
    intros _. apply Hraw.
Qed.

Lemma deletion_loop_other ks m :
  ~ In key ks ->
  agree_at (fold_left (deletion_step objA objB context) ks m) m.
Proof.
  revert m. induction ks as [|k ks IH]; intros m Hin; [now repeat split|].
  cbn [fold_left].
  destruct (IH (deletion_step objA objB context m k)) as (Ha & Hd & Hu).
  { intros H. apply Hin. now right. }
  destruct (deletion_step_other objA objB context key m k) as (Ha' & Hd' & Hu').
  { intros ->. apply Hin. now left. }
  repeat split; congruence.
Qed.

Lemma update_loop_other ks m m' :
  ~ In key ks ->
  for_of (update_step self objA objB context) ks m = Some m' -> agree_at m' m.
Proof.
  revert m. induction ks as [|k ks IH]; intros m Hin; cbn [for_of].
  - intros [= <-]. now repeat split.
  - destruct (update_step self objA objB context m k) as [m1|] eqn:Hs; simpl;
      [|discriminate].
    intros Hf. destruct (IH m1) as (Ha & Hd & Hu); [|exact Hf|].
    { intros H. apply Hin. now right. }
    destruct (update_step_other self objA objB context key m k m1)
      as (Ha' & Hd' & Hu'); [|exact Hs|].
    { intros ->. apply Hin. now left. }
    cbn [m_additions m_deletions m_updates] in *. repeat split; congruence.
Qed.

Lemma deletion_loop_at_key ks m :
  In key ks ->
  agree_at (fold_left (deletion_step objA objB context) ks m)
           (deletion_step objA objB context m key).
Proof.
  destruct deletion_step_effect as [ed Heff].
  revert m. induction ks as [|k ks IH]; intros m Hin; [destruct Hin|].
  cbn [fold_left].
  destruct (String.eqb_spec k key) as [->|Hne].
  - destruct (in_dec string_dec key ks) as [Hin'|Hout].
    + destruct (IH (deletion_step objA objB context m key) Hin')
        as (Ha & Hd & Hu).
      rewrite !Heff in Ha, Hd, Hu. rewrite !Heff.
      destruct (put_all_twice None ed None m) as (Ha' & Hd' & Hu').
      cbn [m_additions m_deletions m_updates] in *. repeat split; congruence.
    + now apply deletion_loop_other.
  - destruct Hin as [->|Hin]; [contradiction|].
    destruct (IH (deletion_step objA objB context m k) Hin) as (Ha & Hd & Hu).
    rewrite !Heff in Ha, Hd, Hu. rewrite !Heff.
    destruct (put_all_agree None ed None _ _
                (deletion_step_other objA objB context key m k Hne))
      as (Ha' & Hd' & Hu').
    cbn [m_additions m_deletions m_updates] in *. repeat split; congruence.
Qed.

Lemma update_loop_at_key ks m m' :
  In key ks ->
  for_of (update_step self objA objB context) ks m = Some m' ->
  exists m1, update_step self objA objB context m key = Some m1 /\ agree_at m' m1.
Proof.
  revert m. induction ks as [|k ks IH]; intros m Hin; [destruct Hin|].
  cbn [for_of].
  destruct (update_step self objA objB context m k) as [mk|] eqn:Hs; simpl;
    [|discriminate].
  intros Hf.
  destruct (String.eqb_spec k key) as [->|Hne].
  - exists mk. split; [exact Hs|].
    destruct (in_dec string_dec key ks) as [Hin'|Hout].
    + destruct (IH _ Hin' Hf) as (m2 & Hs2 & Ha & Hd & Hu).
      destruct (update_step_effect _ _ Hs) as (ea & ed & eu & Heff).
      rewrite Heff in Hs, Hs2. injection Hs as <-. injection Hs2 as <-.
      destruct (put_all_twice ea ed eu m) as (Ha' & Hd' & Hu').
      cbn [m_additions m_deletions m_updates] in *. repeat split; congruence.
    + now apply (update_loop_other ks).
  - destruct Hin as [->|Hin]; [contradiction|].
    destruct (IH _ Hin Hf) as (m2 & Hs2 & Ha & Hd & Hu).
    destruct (update_step_effect _ _ Hs2) as (ea & ed & eu & Heff).
    exists (put_all ea ed eu m). split; [apply Heff|].
    rewrite Heff in Hs2. injection Hs2 as <-.
    destruct (put_all_agree ea ed eu _ _
                (update_step_other self objA objB context key m k mk Hne Hs))
      as (Ha' & Hd' & Hu').
    cbn [m_additions m_deletions m_updates] in *. repeat split; congruence.
Qed.

(** The entries of [key] in the maps of [compareObjects] are those of the one
    turn for [key], made on empty maps. *)
Lemma compareObjects_at_key r :
  compareObjects self objA objB context = Some r ->
  exists m,
    r = result_maps (m_additions m) (m_deletions m) (m_updates m) /\
    (own_key key objB = true ->
     exists m1, update_step self objA objB context no_maps key = Some m1 /\
                agree_at m m1) /\
    (own_key key objB = false ->
     agree_at m (if own_key key objA
                 then deletion_step objA objB context no_maps key
                 else no_maps)).
Proof.
  unfold compareObjects.
  destruct (for_of _ _ _) as [m|] eqn:Hf; simpl; [|discriminate].
  intros [= <-]. exists m. split; [reflexivity|].
  set (md := fold_left (deletion_step objA objB context) (keys objA) no_maps) in Hf.
  assert (Hmd : agree_at md (if own_key key objA
                             then deletion_step objA objB context no_maps key
                             else no_maps)).
  { destruct (own_key key objA) eqn:HA.
    - apply deletion_loop_at_key. now apply own_key_keys.
    - apply deletion_loop_other. intros Hin. apply keys_own_key in Hin. congruence. }
  split; intros HB.
  - destruct (update_loop_at_key _ _ _ (own_key_keys _ _ HB) Hf)
      as (m1 & Hs & Ha & Hd & Hu).
    destruct (update_step_effect _ _ Hs) as (ea & ed & eu & Heff).
    exists (put_all ea ed eu no_maps). split; [apply Heff|].
    rewrite Heff in Hs. injection Hs as <-.
    assert (Hno : agree_at md no_maps).
    { destruct (own_key key objA); [|exact Hmd].
      unfold deletion_step in Hmd. rewrite (own_key_has_key _ _ HB) in Hmd.
      now destruct (ignored context key). }
    destruct (put_all_agree ea ed eu _ _ Hno) as (Ha' & Hd' & Hu').
    cbn [m_additions m_deletions m_updates] in *. repeat split; congruence.
  - destruct (update_loop_other (keys objB) md m) as (Ha & Hd & Hu);
      [|exact Hf|].
    { intros Hin. apply keys_own_key in Hin. congruence. }
    destruct Hmd as (Ha' & Hd' & Hu'). repeat split; congruence.
Qed.

End PerKey.

(** X19. A key that the second object has as an own property and the first
    object has too (as an own or an inherited one) and that is compared as a
    whole (the depth limit is reached, or not both values are plain
    objects) has no entry in [additions] or [deletions], and an entry in
    [updates] exactly when the two values are found unequal, by
    [compareArrays] if both are arrays and by [comparePrimitives] otherwise;
    the entry is [{from, to}] with the two values. *)
Theorem common_key_reported {RT : Runtime} (fuel : nat) (ra rb : nat)
    (objA objB : list (string * value)) (context : ComparisonContext)
    (r : DiffResult) (key : string) :
  internalDiff fuel (VObj ra objA) (VObj rb objB) context = Some r ->
  ignored context key = false ->
  has_key key objA = true -> own_key key objB = true ->
  nested_at objA objB context key = false ->
  exists adds dels upds,
    r = result_maps adds dels upds /\
    obj_get key adds = None /\ obj_get key dels = None /\
    (isArray (prop objA key) && isArray (prop objB key) = false ->
     obj_get key upds =
     if comparePrimitives (prop objA key) (prop objB key)
          (enableTypeCoercion (options context))
     then None else Some (DFromTo (prop objA key) (prop objB key))) /\
    (forall r1 xs r2 ys,
       prop objA key = VArr r1 xs -> prop objB key = VArr r2 ys ->
       exists equal,
         compareArrays (internalDiff (pred fuel)) xs ys (extend_path context key)
         = Some equal /\
         obj_get key upds =
         if equal : bool then None
         else Some (DFromTo (prop objA key) (prop objB key))).
Proof.
  destruct fuel as [|fuel]; [discriminate|].
  rewrite internalDiff_objects. cbn [pred]. intros Hr Hig HA HB Hnest.
  destruct (compareObjects_at_key _ _ _ _ key _ Hr) as (m & -> & Hin & _).
  destruct (Hin HB) as (m1 & Hs & Ha & Hd & Hu). clear Hin.
  exists (m_additions m), (m_deletions m), (m_updates m).
  split; [reflexivity|].
  unfold update_step in Hs. unfold nested_at in Hnest.
  rewrite Hig, HA, Hnest in Hs. cbn [negb] in Hs.
  assert (Hprim :
    Some (if negb (comparePrimitives (prop objA key) (prop objB key)
                     (enableTypeCoercion (options context)))
          then {| m_additions := [];
                  m_deletions := [];
                  m_updates := obj_set key (DFromTo (prop objA key) (prop objB key)) [] |}
          else {| m_additions := []; m_deletions := []; m_updates := [] |})
    = Some m1 ->
    obj_get key (m_additions m) = None /\ obj_get key (m_deletions m) = None /\
    obj_get key (m_updates m) =
    if comparePrimitives (prop objA key) (prop objB key)
         (enableTypeCoercion (options context))
    then None else Some (DFromTo (prop objA key) (prop objB key))).
  { intros [= <-]. rewrite Ha, Hd, Hu.
    destruct (comparePrimitives _ _ _); cbn [negb m_additions m_deletions m_updates];
      repeat split; try reflexivity.
    exact (obj_get_set_eq key _ []). }
  destruct (prop objA key) as [| | | | |r1 xs| | |] eqn:EA;
    try (destruct (Hprim Hs) as (H1 & H2 & H3);
         repeat split; trivial; intros; discriminate).
  destruct (prop objB key) as [| | | | |r2 ys| | |] eqn:EB;
    try (destruct (Hprim Hs) as (H1 & H2 & H3);
         repeat split; trivial; intros; discriminate).
  clear Hprim. cbn [m_additions m_deletions m_updates] in Hs.
  destruct (compareArrays _ xs ys _) as [equal|] eqn:Hc; simpl in Hs;
    [|discriminate].
  injection Hs as <-. rewrite Ha, Hd, Hu.
  split; [now destruct equal|]. split; [now destruct equal|].
  split; [discriminate|].
  intros r1' xs' r2' ys' [= <- <-] [= <- <-]. exists equal.
  split; [exact Hc|].
  destruct equal; cbn [negb m_updates];
    [reflexivity|exact (obj_get_set_eq key _ [])].
Qed.

Lemma common_key_reported_witness :
  exists adds dels upds,
    PartitionExample.result = result_maps adds dels upds /\
    obj_get "c" adds = None /\ obj_get "c" dels = None /\
    obj_get "c" upds = Some (DFromTo (VNum (num 3)) (VNum (num 4))).
Proof.
  assert (H : internalDiff (RT := Host.decimal_host) 3 (VObj 1 PartitionExample.objA)
                (VObj 2 PartitionExample.objB) (initial_context no_options)
              = Some PartitionExample.result) by (vm_compute; reflexivity).
  destruct (common_key_reported (RT := Host.decimal_host) 3 1 2 _ _ _ _ "c" H
              eq_refl eq_refl eq_refl eq_refl)
    as (adds & dels & upds & Hr & Ha & Hd & Hu & _).
  exists adds, dels, upds. repeat split; trivial.
  exact (Hu eq_refl).
Defined.

(** X20. A key that the second object has as an own property and the first
    object has too (as an own or an inherited one), whose two values are
    plain objects, above the depth limit, is compared by a nested call of
    [internalDiff] one level down, and each of its three maps is stored
    under the key in the map of the same kind if [Object.keys] finds a key
    in it; a map without keys is not stored, so the result holds no empty
    nested map. *)
Theorem nested_key_reported {RT : Runtime} (fuel : nat) (ra rb : nat)
    (objA objB : list (string * value)) (context : ComparisonContext)
    (r : DiffResult) (key : string) :
  internalDiff fuel (VObj ra objA) (VObj rb objB) context = Some r ->
  ignored context key = false ->
  has_key key objA = true -> own_key key objB = true ->
  nested_at objA objB context key = true ->
  exists nested nadds ndels nupds adds dels upds,
    internalDiff (pred fuel) (prop objA key) (prop objB key)
      (descend context key) = Some nested /\
    nested = result_maps nadds ndels nupds /\
    r = result_maps adds dels upds /\
    obj_get key adds =
      (if Nat.ltb 0 (length (own_entries nadds)) then Some (DMap nadds) else None) /\
    obj_get key dels =
      (if Nat.ltb 0 (length (own_entries ndels)) then Some (DMap ndels) else None) /\
    obj_get key upds =
      (if Nat.ltb 0 (length (own_entries nupds)) then Some (DMap nupds) else None).
Proof.
  destruct fuel as [|fuel]; [discriminate|].
  rewrite internalDiff_objects. cbn [pred]. intros Hr Hig HA HB Hnest.
  destruct (compareObjects_at_key _ _ _ _ key _ Hr) as (m & -> & Hin & _).
  destruct (Hin HB) as (m1 & Hs & Ha & Hd & Hu). clear Hin.
  unfold update_step in Hs. pose proof Hnest as Hn. unfold nested_at in Hn.
  rewrite Hig, HA, Hn in Hs. cbn [negb] in Hs.
  destruct (internalDiff fuel _ _ _) as [nested|] eqn:Hnested; simpl in Hs;
    [|discriminate].
  apply nested_at_plain in Hnest as (_ & HpA & HpB).
  assert (Hmaps : exists nadds ndels nupds, nested = result_maps nadds ndels nupds).
  { destruct (internalDiff_objects_maps _ _ _ _ _ HpA HpB Hnested) as (M1 & M2 & M3).
    destruct nested as [[| |na] [| |nd] [| |nu]]; try discriminate. now eauto. }
  destruct Hmaps as (nadds & ndels & nupds & ->).
  exists (result_maps nadds ndels nupds), nadds, ndels, nupds,
         (m_additions m), (m_deletions m), (m_updates m).
  split; [reflexivity|]. split; [reflexivity|]. split; [reflexivity|].
  cbn [result_maps additions deletions updates has_keys mbind option_bind] in Hs.
  injection Hs as <-. rewrite Ha, Hd, Hu.
  cbn [m_additions m_deletions m_updates].
  destruct (Nat.ltb 0 (length (own_entries nadds))),
    (Nat.ltb 0 (length (own_entries ndels))),
    (Nat.ltb 0 (length (own_entries nupds)));
    repeat split; try reflexivity; exact (obj_get_set_eq key _ []).
Qed.

Lemma nested_key_reported_witness :
  exists adds dels upds,
    PartitionExample.result = result_maps adds dels upds /\
    obj_get "b" adds = Some (DMap [("z", DVal (VNum (num 4)))]) /\
    obj_get "b" dels = Some (DMap [("x", DVal (VNum (num 1)))]) /\
    obj_get "b" upds = Some (DMap [("y", DFromTo (VNum (num 2)) (VNum (num 3)))]).
Proof.
  assert (H : internalDiff (RT := Host.decimal_host) 3 (VObj 1 PartitionExample.objA)
                (VObj 2 PartitionExample.objB) (initial_context no_options)
              = Some PartitionExample.result) by (vm_compute; reflexivity).
  destruct (nested_key_reported (RT := Host.decimal_host) 3 1 2 _ _ _ _ "b" H
              eq_refl eq_refl eq_refl eq_refl)
    as (nested & nadds & ndels & nupds & adds & dels & upds
        & Hn & -> & Hr & Ha & Hd & Hu).
  vm_compute in Hn. injection Hn as <- <- <-.
  exists adds, dels, upds. repeat split; trivial.
Defined.

(** ** The two directions of a comparison *)

Lemma jstype_eqb_sym (s t : jstype) : jstype_eqb s t = jstype_eqb t s.
Proof. now destruct s, t. Qed.

(** [Object.keys] finds a key in a map when the map has an entry that is no
    prototype link. *)
Lemma own_entries_some {RT : Runtime} (m : list (string * dval)) :
  Nat.ltb 0 (length (own_entries m)) = true <->
  exists key, proto_link key = false /\ obj_get key m <> None.
Proof.
  unfold own_entries. induction m as [|[k v] m IH]; cbn [List.filter fst obj_get].
  - split; [discriminate|]. now intros (key & _ & H).
  - destruct (proto_link k) eqn:Hk; cbn [negb].
    + rewrite IH. split; intros (key & Hkey & H); exists key; (split; [exact Hkey|]).
      * destruct (String.eqb_spec k key) as [->|_]; [congruence|exact H].
      * destruct (String.eqb_spec k key) as [->|_]; [congruence|exact H].
    + split; [|reflexivity]. intros _. exists k. split; [exact Hk|].
      now rewrite String.eqb_refl.
Qed.

Lemma mirrored_length {RT : Runtime} (m m' : list (string * dval)) :
  (forall key, option_Forall2 mirrored (obj_get key m) (obj_get key m')) ->
  Nat.ltb 0 (length (own_entries m)) = Nat.ltb 0 (length (own_entries m')).
Proof.
  intros H. apply eq_true_iff_eq. rewrite !own_entries_some.
  split; intros (key & Hkey & Hget); exists key; (split; [exact Hkey|]);
    specialize (H key); inversion H; congruence.
Qed.

Lemma mirrored_has_keys {RT : Runtime} (d d' : dval) :
  mirrored d d' -> has_keys d = has_keys d'.
Proof.
  intros H. inversion H; subst; cbn [has_keys]; try reflexivity.
  f_equal. now apply mirrored_length.
Qed.

Lemma mirrored_nothing : mirrored (DMap []) (DMap []).
Proof. constructor. intros key. constructor. Qed.

Lemma forallb_combine_swap {A : Type} (f g : A * A -> bool) (l : list A) :
  (forall a b, f (a, b) = g (b, a)) ->
  forall l', forallb f (combine l l') = forallb g (combine l' l).
Proof.
  intros Hfg. induction l as [|x l IH]; intros [|y l']; try reflexivity.
  cbn [combine forallb]. now rewrite Hfg, IH.
Qed.

Section Mirror.
Context {RT : Runtime}.
Variable self : callback.
Hypothesis self_mirror :
  forall x y c r r',
    ordinary x = true -> ordinary y = true ->
    self x y c = Some r -> self y x c = Some r' -> mirror_image r r'.

Local Abbreviation no_maps :=
  {| m_additions := []; m_deletions := []; m_updates := [] |}.

Local Abbreviation mirror_at key m m' :=
  (option_Forall2 mirrored (obj_get key (m_additions m)) (obj_get key (m_deletions m'))
   /\ option_Forall2 mirrored (obj_get key (m_deletions m)) (obj_get key (m_additions m'))
   /\ option_Forall2 mirrored (obj_get key (m_updates m)) (obj_get key (m_updates m'))).

Lemma self_flags x y c dr dr' :
  ordinary x = true -> ordinary y = true ->
  self x y c = Some dr -> self y x c = Some dr' ->
  has_keys (additions dr') = has_keys (deletions dr) /\
  has_keys (deletions dr') = has_keys (additions dr) /\
  has_keys (updates dr') = has_keys (updates dr).
Proof.
  intros Ox Oy H H'. destruct (self_mirror _ _ _ _ _ Ox Oy H H') as (Ha & Hd & Hu).
  apply mirrored_has_keys in Ha, Hd, Hu. auto.
Qed.

Lemma compare_in_order_mirror (context : ComparisonContext) (arrayA : list value) :
  forall (arrayB : list value) (i : nat) (b b' : bool),
    forallb ordinary arrayA = true -> forallb ordinary arrayB = true ->
    compare_in_order self context i (combine arrayA arrayB) = Some b ->
    compare_in_order self context i (combine arrayB arrayA) = Some b' ->
    b = b'.
Proof.
  induction arrayA as [|x xs IH]; intros [|y ys] i b b';
    cbn [combine compare_in_order forallb]; try congruence.
  intros [Ox Oxs]%andb_prop [Oy Oys]%andb_prop.
  rewrite (andb_comm (non_object y)), (andb_comm (is_object y)).
  replace (comparePrimitives y x (enableTypeCoercion (options context)))
    with (comparePrimitives x y (enableTypeCoercion (options context)))
    by (unfold comparePrimitives;
        now rewrite (strict_eq_sym y x), (coerceValues_sym y x)).
  destruct (non_object x && non_object y).
  { destruct (negb _); [congruence|now apply IH]. }
  destruct (is_object x && is_object y && depth_left context); [|congruence].
  destruct (self x y _) as [dr|] eqn:Hdr; simpl; [|discriminate].
  destruct (self y x _) as [dr'|] eqn:Hdr'; simpl; [|discriminate].
  destruct (self_flags _ _ _ _ _ Ox Oy Hdr Hdr') as (-> & -> & ->).
  destruct (has_keys (additions dr)) as [[|]|],
           (has_keys (deletions dr)) as [[|]|],
           (has_keys (updates dr)) as [[|]|]; simpl;
    try congruence; try discriminate; now apply IH.
Qed.

Lemma compareArrays_mirror (context : ComparisonContext)
    (arrayA arrayB : list value) (b b' : bool) :
  forallb ordinary arrayA = true -> forallb ordinary arrayB = true ->
  compareArrays self arrayA arrayB context = Some b ->
  compareArrays self arrayB arrayA context = Some b' ->
  b = b'.
Proof.
  intros OA OB.
  unfold compareArrays. rewrite (Nat.eqb_sym (length arrayB)).
  destruct (Nat.eqb (length arrayA) (length arrayB)) eqn:Hlen; simpl;
    [|congruence].
  apply Nat.eqb_eq in Hlen. rewrite <- Hlen.
  destruct (Nat.eqb (length arrayA) 0); [congruence|].
  rewrite (andb_comm (forallb is_primitive arrayB)).
  destruct (negb _ && _).
  - rewrite (forallb_combine_swap _
               (fun '(a, b) =>
                  comparePrimitives a b (enableTypeCoercion (options context)))
               (default_sort arrayA)); [congruence|].
    intros x y. unfold comparePrimitives.
    now rewrite (strict_eq_sym y x), (coerceValues_sym y x).
  - now apply compare_in_order_mirror.
Qed.

Section AtKey.
Variables (ra rb : nat) (objA objB : list (string * value)).
Variable context : ComparisonContext.
Variable key : string.
Hypothesis ordinary_A : ordinary (VObj ra objA) = true.
Hypothesis ordinary_B : ordinary (VObj rb objB) = true.

Lemma mirror_at_agree m m' m1 m1' :
  obj_get key (m_additions m) = obj_get key (m_additions m1) /\
  obj_get key (m_deletions m) = obj_get key (m_deletions m1) /\
  obj_get key (m_updates m) = obj_get key (m_updates m1) ->
  obj_get key (m_additions m') = obj_get key (m_additions m1') /\
  obj_get key (m_deletions m') = obj_get key (m_deletions m1') /\
  obj_get key (m_updates m') = obj_get key (m_updates m1') ->
  mirror_at key m1 m1' -> mirror_at key m m'.
Proof. intros (-> & -> & ->) (-> & -> & ->). trivial. Qed.

Lemma obj_get_single {A : Type} (v : A) : obj_get key [(key, v)] = Some v.
Proof. cbn. now rewrite String.eqb_refl. Qed.

(** A key of both objects. *)
Lemma update_steps_mirror m1 m1' :
  own_key key objA = true -> own_key key objB = true ->
  update_step self objA objB context no_maps key = Some m1 ->
  update_step self objB objA context no_maps key = Some m1' ->
  mirror_at key m1 m1'.
Proof.
  intros HA HB. unfold update_step.
  rewrite (own_key_has_key _ _ HA), (own_key_has_key _ _ HB). cbn [negb].
  pose proof (ordinary_prop _ _ _ ordinary_A HA) as OA.
  pose proof (ordinary_prop _ _ _ ordinary_B HB) as OB.
  assert (Hnone : mirror_at key no_maps no_maps) by (repeat split; constructor).
  destruct (ignored context key); [now intros [= <-] [= <-]|].
  replace (depth_left context && isPlainObject (prop objB key)
           && isPlainObject (prop objA key))
    with (depth_left context && isPlainObject (prop objA key)
          && isPlainObject (prop objB key))
    by (now destruct (depth_left context), (isPlainObject (prop objA key)),
              (isPlainObject (prop objB key))).
  destruct (depth_left context && isPlainObject (prop objA key)
            && isPlainObject (prop objB key)).
  - destruct (self (prop objA key) _ _) as [nr|] eqn:Hnr; simpl; [|discriminate].
    destruct (self (prop objB key) _ _) as [nr'|] eqn:Hnr'; simpl; [|discriminate].
    destruct (self_flags _ _ _ _ _ OA OB Hnr Hnr') as (-> & -> & ->).
    destruct (self_mirror _ _ _ _ _ OA OB Hnr Hnr') as (Ma & Md & Mu).
    destruct (has_keys (additions nr)) as [a|]; simpl; [|discriminate].
    destruct (has_keys (deletions nr)) as [d|]; simpl; [|discriminate].
    destruct (has_keys (updates nr)) as [u|]; simpl; [|discriminate].
    intros [= <-] [= <-]. cbn [m_additions m_deletions m_updates obj_set].
    destruct a, d, u; repeat split; rewrite ?obj_get_single;
      constructor; assumption.
  - assert (Hprim : forall m n,
      Some (if negb (comparePrimitives (prop objA key) (prop objB key)
                       (enableTypeCoercion (options context)))
            then {| m_additions := []; m_deletions := [];
                    m_updates := obj_set key (DFromTo (prop objA key) (prop objB key)) [] |}
            else no_maps) = Some m ->
      Some (if negb (comparePrimitives (prop objB key) (prop objA key)
                       (enableTypeCoercion (options context)))
            then {| m_additions := []; m_deletions := [];
                    m_updates := obj_set key (DFromTo (prop objB key) (prop objA key)) [] |}
            else no_maps) = Some n ->
      mirror_at key m n).
    { intros m n. unfold comparePrimitives at 2.
      rewrite (strict_eq_sym (prop objB key)), (coerceValues_sym (prop objB key)).
      fold (comparePrimitives (prop objA key) (prop objB key)
              (enableTypeCoercion (options context))).
      destruct (comparePrimitives _ _ _); intros [= <-] [= <-]; [exact Hnone|].
      cbn [negb m_additions m_deletions m_updates obj_set].
      repeat split; rewrite ?obj_get_single; repeat constructor. }
    destruct (prop objA key) as [| | | | |r1 xs| | |];
      try (destruct (prop objB key); exact (Hprim m1 m1')).
    destruct (prop objB key) as [| | | | |r2 ys| | |]; try exact (Hprim m1 m1').
    clear Hprim.
    destruct (compareArrays self xs ys _) as [eq|] eqn:Hc; simpl; [|discriminate].
    destruct (compareArrays self ys xs _) as [eq'|] eqn:Hc'; simpl; [|discriminate].
    rewrite <- (compareArrays_mirror _ _ _ _ _ OA OB Hc Hc').
    destruct eq; intros [= <-] [= <-]; [exact Hnone|].
    cbn [negb m_additions m_deletions m_updates obj_set].
    repeat split; rewrite ?obj_get_single; repeat constructor.
Qed.

(** A key of [objA] alone, seen from both sides. *)
Lemma one_sided_mirror m1' :
  own_key key objA = true -> own_key key objB = false ->
  update_step self objB objA context no_maps key = Some m1' ->
  mirror_at key (deletion_step objA objB context no_maps key) m1' /\
  mirror_at key m1' (deletion_step objA objB context no_maps key).
Proof.
  intros HA HB. unfold update_step, deletion_step.
  replace (has_key key objB) with false
    by (unfold has_key;
        now rewrite HB, (ordinary_key _ _ _ ordinary_A (own_key_keys _ _ HA))).
  cbn [negb].
  destruct (ignored context key).
  - intros [= <-]. repeat split; constructor.
  - intros [= <-]. cbn [m_additions m_deletions m_updates obj_set].
    repeat split; rewrite ?obj_get_single; constructor; constructor.
Qed.

End AtKey.

Lemma compareObjects_mirror ra rb objA objB context r r' :
  ordinary (VObj ra objA) = true -> ordinary (VObj rb objB) = true ->
  compareObjects self objA objB context = Some r ->
  compareObjects self objB objA context = Some r' ->
  mirror_image r r'.
Proof.
  intros OA OB Hr Hr'.
  assert (Hkey : exists m m',
            r = result_maps (m_additions m) (m_deletions m) (m_updates m) /\
            r' = result_maps (m_additions m') (m_deletions m') (m_updates m') /\
            forall key, mirror_at key m m').
  { pose proof Hr as Hm. pose proof Hr' as Hm'.
    unfold compareObjects in Hm, Hm'.
    destruct (for_of _ (keys objB) _) as [m|]; simpl in Hm; [|discriminate].
    destruct (for_of _ (keys objA) _) as [m'|]; simpl in Hm'; [|discriminate].
    injection Hm as <-. injection Hm' as <-.
    exists m, m'. split; [reflexivity|]. split; [reflexivity|].
    intros key.
    destruct (compareObjects_at_key _ _ _ _ key _ Hr) as (n & En & HinB & HoutB).
    destruct (compareObjects_at_key _ _ _ _ key _ Hr') as (n' & En' & HinA & HoutA).
    injection En as -> -> ->. injection En' as -> -> ->.
    destruct (own_key key objA) eqn:HA, (own_key key objB) eqn:HB.
    - destruct (HinB eq_refl) as (m1 & Hs & Hag).
      destruct (HinA eq_refl) as (m1' & Hs' & Hag').
      apply (mirror_at_agree key _ _ _ _ Hag Hag').
      now apply (update_steps_mirror ra rb objA objB context key).
    - destruct (HinA eq_refl) as (m1' & Hs' & Hag').
      apply (mirror_at_agree key _ _ _ _ (HoutB eq_refl) Hag').
      now apply (one_sided_mirror ra objA objB context key).
    - destruct (HinB eq_refl) as (m1 & Hs & Hag).
      apply (mirror_at_agree key _ _ _ _ Hag (HoutA eq_refl)).
      now apply (one_sided_mirror rb objB objA context key).
    - apply (mirror_at_agree key _ _ _ _ (HoutB eq_refl) (HoutA eq_refl)).
      repeat split; constructor. }
  destruct Hkey as (m & m' & -> & -> & Hkey).
  repeat split; constructor; intros key; apply (Hkey key).
Qed.

Lemma internalDiff_body_mirror a b c r r' :
  ordinary a = true -> ordinary b = true ->
  internalDiff_body self a b c = Some r ->
  internalDiff_body self b a c = Some r' ->
  mirror_image r r'.
Proof.
  intros Oa Ob. unfold internalDiff_body. rewrite (jstype_eqb_sym (typeof b)).
  assert (Hupd : mirror_image
            {| additions := additions empty_result;
               deletions := deletions empty_result; updates := DFromTo a b |}
            {| additions := additions empty_result;
               deletions := deletions empty_result; updates := DFromTo b a |}).
  { repeat split; try apply mirrored_nothing. constructor. }
  assert (Hempty : mirror_image empty_result empty_result).
  { repeat split; apply mirrored_nothing. }
  destruct (is_nullish a) eqn:Na, (is_nullish b) eqn:Nb; simpl.
  - now intros [= <-] [= <-].
  - intros [= <-] [= <-]. repeat split; try apply mirrored_nothing; constructor.
  - intros [= <-] [= <-]. repeat split; try apply mirrored_nothing; constructor.
  - destruct (negb (jstype_eqb (typeof a) (typeof b))).
    { destruct (enableTypeCoercion (options c)); now intros [= <-] [= <-]. }
    assert (Hprim :
      Some (if negb (comparePrimitives a b (enableTypeCoercion (options c)))
            then {| additions := additions empty_result;
                    deletions := deletions empty_result; updates := DFromTo a b |}
            else empty_result) = Some r ->
      Some (if negb (comparePrimitives b a (enableTypeCoercion (options c)))
            then {| additions := additions empty_result;
                    deletions := deletions empty_result; updates := DFromTo b a |}
            else empty_result) = Some r' ->
      mirror_image r r').
    { unfold comparePrimitives at 2.
      rewrite (strict_eq_sym b), (coerceValues_sym b).
      fold (comparePrimitives a b (enableTypeCoercion (options c))).
      now destruct (comparePrimitives _ _ _); intros [= <-] [= <-]. }
    destruct a as [| | | | |ra xs|ra fa| |];
      try (destruct b; exact Hprim).
    + destruct b as [| | | | |rb ys| | |]; try exact Hprim. clear Hprim.
      destruct (compareArrays self xs ys c) as [eq|] eqn:Hc; simpl; [|discriminate].
      destruct (compareArrays self ys xs c) as [eq'|] eqn:Hc'; simpl; [|discriminate].
      rewrite <- (compareArrays_mirror _ _ _ _ _ Oa Ob Hc Hc').
      now destruct eq; intros [= <-] [= <-].
    + destruct b as [| | | | | |rb fb| |]; try exact Hprim. clear Hprim.
      now apply (compareObjects_mirror ra rb).
Qed.

End Mirror.

Lemma internalDiff_mirror {RT : Runtime} (fuel : nat) :
  forall a b c r r',
    ordinary a = true -> ordinary b = true ->
    internalDiff fuel a b c = Some r -> internalDiff fuel b a c = Some r' ->
    mirror_image r r'.
Proof.
  induction fuel as [|fuel IH]; [discriminate|].
  intros a b c. apply internalDiff_body_mirror, IH.
Qed.

(** X21. The two directions of a comparison mirror each other. For two
    values in which no own property at any depth has a name that
    [Object.prototype] provides too, [diff(b, a)] holds as [deletions] what
    [diff(a, b)] holds as [additions] and the other way round, and its
    [updates] are those of [diff(a, b)] with [from] and [to] exchanged, at
    every level and whatever the options; the keys of a map may come in
    another order. *)
Theorem diff_mirror {RT : Runtime} (objectA objectB : value) (given : DiffOptions) :
  ordinary objectA = true -> ordinary objectB = true ->
  exists r r',
    diff objectA objectB given = Some r /\
    diff objectB objectA given = Some r' /\
    mirror_image r r'.
Proof.
  intros OA OB.
  destruct (internalDiff_fuel_enough (S (height objectB)) objectA objectB
              (initial_context given)) as (r & Hr & _); [lia|].
  destruct (internalDiff_fuel_enough (S (height objectA)) objectB objectA
              (initial_context given)) as (r' & Hr' & _); [lia|].
  exists r, r'. split; [exact Hr|]. split; [exact Hr'|].
  pose (big := S (Nat.max (height objectA) (height objectB))).
  apply (internalDiff_more_fuel _ big) in Hr; [|subst big; lia].
  apply (internalDiff_more_fuel _ big) in Hr'; [|subst big; lia].
  exact (internalDiff_mirror big _ _ _ _ _ OA OB Hr Hr').
Qed.

Lemma diff_mirror_witness :
  exists r r',
    diff (RT := Host.decimal_host) (VObj 1 PartitionExample.objA)
      (VObj 2 PartitionExample.objB) no_options = Some r /\
    diff (RT := Host.decimal_host) (VObj 2 PartitionExample.objB)
      (VObj 1 PartitionExample.objA) no_options = Some r' /\
    mirror_image r r'.
Proof. apply (diff_mirror (RT := Host.decimal_host)); reflexivity. Defined.

(** ** What the comparison flags can change *)

Section Flags.
Context {RT : Runtime}.

(** Two contexts at the same place, with the same patterns and the same depth
    limit; [enableTypeCoercion] and [arrayOrderMatters] are free. *)
Local Abbreviation same_frame c c' :=
  (path c = path c' /\ depth c = depth c' /\
   ignoreProperties (options c) = ignoreProperties (options c') /\
   maxDepth (options c) = maxDepth (options c')).

Local Abbreviation same_sides m n :=
  (m_additions m = m_additions n /\ m_deletions m = m_deletions n).

Lemma same_frame_ignored c c' key : same_frame c c' -> ignored c key = ignored c' key.
Proof.
  intros (Hp & _ & Hi & _). unfold ignored, currentPath. now rewrite Hp, Hi.
Qed.

Lemma same_frame_depth_left c c' : same_frame c c' -> depth_left c = depth_left c'.
Proof. intros (_ & Hd & _ & Hm). unfold depth_left. now rewrite Hd, Hm. Qed.

Lemma same_frame_descend c c' key :
  same_frame c c' -> same_frame (descend c key) (descend c' key).
Proof.
  intros (Hp & Hd & Hi & Hm). cbn [descend path depth options].
  now rewrite Hp, Hd, Hi, Hm.
Qed.

Section Callback.
Variable self : callback.
Hypothesis self_sides :
  forall x y c c' r r',
    same_frame c c' -> self x y c = Some r -> self x y c' = Some r' ->
    additions r = additions r' /\ deletions r = deletions r'.

Variables objA objB : list (string * value).
Variables c c' : ComparisonContext.
Hypothesis frames : same_frame c c'.

Lemma deletion_step_frame m key :
  deletion_step objA objB c m key = deletion_step objA objB c' m key.
Proof. unfold deletion_step. now rewrite (same_frame_ignored c c' key frames). Qed.

Lemma deletion_loop_frame ks m :
  fold_left (deletion_step objA objB c) ks m
  = fold_left (deletion_step objA objB c') ks m.
Proof.
  revert m. induction ks as [|k ks IH]; intros m; [reflexivity|].
  cbn [fold_left]. now rewrite deletion_step_frame, IH.
Qed.

Lemma update_step_sides m n m2 n2 key :
  same_sides m n ->
  update_step self objA objB c m key = Some m2 ->
  update_step self objA objB c' n key = Some n2 ->
  same_sides m2 n2.
Proof.
  intros [Ha Hd]. unfold update_step.
  rewrite <- (same_frame_ignored c c' key frames).
  rewrite <- (same_frame_depth_left c c' frames).
  destruct (ignored c key); [now intros [= <-] [= <-]|].
  destruct (negb (has_key key objA)).
  { intros [= <-] [= <-]. cbn. now rewrite Ha, Hd. }
  destruct (depth_left c && isPlainObject (prop objA key)
            && isPlainObject (prop objB key)).
  - destruct (self _ _ (descend c key)) as [nr|] eqn:Hnr; simpl; [|discriminate].
    destruct (self _ _ (descend c' key)) as [nr'|] eqn:Hnr'; simpl; [|discriminate].
    destruct (self_sides _ _ _ _ _ _ (same_frame_descend c c' key frames) Hnr Hnr')
      as [<- <-].
    destruct (has_keys (additions nr)) as [a|]; simpl; [|discriminate].
    destruct (has_keys (deletions nr)) as [d|]; simpl; [|discriminate].
    destruct (has_keys (updates nr)) as [u|]; simpl; [|discriminate].
    destruct (has_keys (updates nr')) as [u'|]; simpl; [|discriminate].
    intros [= <-] [= <-]. cbn. now rewrite Ha, Hd.
  - assert (Hkeep : forall (o : option bool) (v : dval) (s s2 : maps),
              (equal ← o;
               Some (if negb equal
                     then {| m_additions := m_additions s;
                             m_deletions := m_deletions s;
                             m_updates := obj_set key v (m_updates s) |}
                     else s)) = Some s2 ->
              m_additions s2 = m_additions s /\ m_deletions s2 = m_deletions s).
    { intros [[|]|] v s s2; simpl; try discriminate; now intros [= <-]. }
    assert (Hboth : forall (o o' : option bool) (v : dval),
              (equal ← o;
               Some (if negb equal
                     then {| m_additions := m_additions m;
                             m_deletions := m_deletions m;
                             m_updates := obj_set key v (m_updates m) |}
                     else m)) = Some m2 ->
              (equal ← o';
               Some (if negb equal
                     then {| m_additions := m_additions n;
                             m_deletions := m_deletions n;
                             m_updates := obj_set key v (m_updates n) |}
                     else n)) = Some n2 ->
              same_sides m2 n2).
    { intros o o' v H H'. apply Hkeep in H as [-> ->], H' as [-> ->]. auto. }
    assert (Hprim : forall (b b' : bool) (v : dval),
              Some (if negb b
                    then {| m_additions := m_additions m;
                            m_deletions := m_deletions m;
                            m_updates := obj_set key v (m_updates m) |}
                    else m) = Some m2 ->
              Some (if negb b'
                    then {| m_additions := m_additions n;
                            m_deletions := m_deletions n;
                            m_updates := obj_set key v (m_updates n) |}
                    else n) = Some n2 ->
              same_sides m2 n2).
    { intros b b' v. exact (Hboth (Some b) (Some b') v). }
    destruct (prop objA key) as [| | | | |r1 xs| | |];
      try (destruct (prop objB key); apply Hprim).
    destruct (prop objB key) as [| | | | |r2 ys| | |];
      try apply Hprim.
    apply Hboth.
Qed.

Lemma update_loop_sides ks :
  forall m n m2 n2,
    same_sides m n ->
    for_of (update_step self objA objB c) ks m = Some m2 ->
    for_of (update_step self objA objB c') ks n = Some n2 ->
    same_sides m2 n2.
Proof.
  induction ks as [|k ks IH]; intros m n m2 n2 Hmn; cbn [for_of].
  - now intros [= <-] [= <-].
  - destruct (update_step self objA objB c m k) as [m1|] eqn:Hs; simpl;
      [|discriminate].
    destruct (update_step self objA objB c' n k) as [n1|] eqn:Hs'; simpl;
      [|discriminate].
    apply IH. exact (update_step_sides _ _ _ _ _ Hmn Hs Hs').
Qed.

Lemma compareObjects_sides r r' :
  compareObjects self objA objB c = Some r ->
  compareObjects self objA objB c' = Some r' ->
  additions r = additions r' /\ deletions r = deletions r'.
Proof.
  unfold compareObjects. rewrite deletion_loop_frame.
  destruct (for_of (update_step self objA objB c) _ _) as [m|] eqn:Hf; simpl;
    [|discriminate].
  destruct (for_of (update_step self objA objB c') _ _) as [n|] eqn:Hf'; simpl;
    [|discriminate].
  intros [= <-] [= <-]. cbn [additions deletions].
  destruct (update_loop_sides _ _ _ _ _ (conj eq_refl eq_refl) Hf Hf') as [-> ->].
  auto.
Qed.

End Callback.

Lemma internalDiff_sides (fuel : nat) :
  forall x y c c' r r',
    same_frame c c' ->
    internalDiff fuel x y c = Some r -> internalDiff fuel x y c' = Some r' ->
    additions r = additions r' /\ deletions r = deletions r'.
Proof.
  induction fuel as [|fuel IH]; [discriminate|].
  intros x y c c' r r' Hcc. cbn [internalDiff]. unfold internalDiff_body.
  assert (Hkeep : forall (o : option bool) (s : DiffResult),
            (equal ← o;
             Some (if negb equal
                   then {| additions := additions empty_result;
                           deletions := deletions empty_result;
                           updates := DFromTo x y |}
                   else empty_result)) = Some s ->
            additions s = DMap [] /\ deletions s = DMap []).
  { intros [[|]|] s; simpl; try discriminate; now intros [= <-]. }
  assert (Hboth : forall (o o' : option bool),
            (equal ← o;
             Some (if negb equal
                   then {| additions := additions empty_result;
                           deletions := deletions empty_result;
                           updates := DFromTo x y |}
                   else empty_result)) = Some r ->
            (equal ← o';
             Some (if negb equal
                   then {| additions := additions empty_result;
                           deletions := deletions empty_result;
                           updates := DFromTo x y |}
                   else empty_result)) = Some r' ->
            additions r = additions r' /\ deletions r = deletions r').
  { intros o o' H H'. apply Hkeep in H as [-> ->], H' as [-> ->]. auto. }
  destruct (is_nullish x && is_nullish y); [now intros [= <-] [= <-]|].
  destruct (is_nullish x); [now intros [= <-] [= <-]|].
  destruct (is_nullish y); [now intros [= <-] [= <-]|].
  destruct (negb (jstype_eqb (typeof x) (typeof y))).
  { destruct (enableTypeCoercion (options c)), (enableTypeCoercion (options c'));
      now intros [= <-] [= <-]. }
  assert (Hprim : forall b b' : bool,
            Some (if negb b
                  then {| additions := additions empty_result;
                          deletions := deletions empty_result;
                          updates := DFromTo x y |}
                  else empty_result) = Some r ->
            Some (if negb b'
                  then {| additions := additions empty_result;
                          deletions := deletions empty_result;
                          updates := DFromTo x y |}
                  else empty_result) = Some r' ->
            additions r = additions r' /\ deletions r = deletions r').
  { intros b b'. exact (Hboth (Some b) (Some b')). }
  destruct x as [| | | | |r1 xs|r1 fa| |];
    try (destruct y; apply Hprim).
  - destruct y as [| | | | |r2 ys| | |]; try apply Hprim.
    apply Hboth.
  - destruct y as [| | | | | |r2 fb| |]; try apply Hprim.
    now apply compareObjects_sides.
Qed.

End Flags.

(** X22. [enableTypeCoercion] and [arrayOrderMatters] bear on [updates]
    alone: two calls of [diff] on the same inputs whose options agree on
    [ignoreProperties] and [maxDepth] return the same [additions] and the
    same [deletions]. *)
Theorem flags_touch_updates_only {RT : Runtime} (objectA objectB : value)
    (given given' : DiffOptions) :
  ignoreProperties (merge_options given) = ignoreProperties (merge_options given') ->
  maxDepth (merge_options given) = maxDepth (merge_options given') ->
  exists r r',
    diff objectA objectB given = Some r /\
    diff objectA objectB given' = Some r' /\
    additions r = additions r' /\ deletions r = deletions r'.
Proof.
  intros Hi Hm.
  destruct (internalDiff_fuel_enough (S (height objectB)) objectA objectB
              (initial_context given)) as (r & Hr & _); [lia|].
  destruct (internalDiff_fuel_enough (S (height objectB)) objectA objectB
              (initial_context given')) as (r' & Hr' & _); [lia|].
  exists r, r'. split; [exact Hr|]. split; [exact Hr'|].
  apply (internalDiff_sides _ _ _ (initial_context given) (initial_context given')
           _ _ (conj eq_refl (conj eq_refl (conj Hi Hm))) Hr Hr').
Qed.

Lemma flags_touch_updates_only_witness :
  exists r r',
    diff (RT := Host.decimal_host)
      (VObj 1 [("age", VNum (num 30)); ("old", VNull)])
      (VObj 2 [("age", VStr "30"); ("new", VArr 3 [])]) no_options = Some r /\
    diff (RT := Host.decimal_host)
      (VObj 1 [("age", VNum (num 30)); ("old", VNull)])
      (VObj 2 [("age", VStr "30"); ("new", VArr 3 [])]) (with_coercion false)
    = Some r' /\
    additions r = additions r' /\ deletions r = deletions r'.
Proof.
  apply (flags_touch_updates_only (RT := Host.decimal_host)); reflexivity.
Defined.

(** ** Names that every object inherits *)

(** X23. A key that the second object does not own but inherits from
    [Object.prototype] is [in] it: when two plain objects are compared, such
    a key has no entry in any of the three maps, whether the first object
    owns it or not and whatever its value there; a property of the first
    object under such a name is never reported as deleted. *)
Theorem inherited_key_hidden {RT : Runtime} (fuel : nat) (ra rb : nat)
    (objA objB : list (string * value)) (context : ComparisonContext)
    (r : DiffResult) (key : string) :
  internalDiff fuel (VObj ra objA) (VObj rb objB) context = Some r ->
  own_key key objB = false -> has_key key objB = true ->
  exists adds dels upds,
    r = result_maps adds dels upds /\
    obj_get key adds = None /\ obj_get key dels = None /\ obj_get key upds = None.
Proof.
  destruct fuel as [|fuel]; [discriminate|].
  rewrite internalDiff_objects. intros Hr Hown Hin.
  destruct (compareObjects_at_key _ _ _ _ key _ Hr) as (m & -> & _ & Hout).
  destruct (Hout Hown) as (Ha & Hd & Hu).
  exists (m_additions m), (m_deletions m), (m_updates m).
  split; [reflexivity|]. rewrite Ha, Hd, Hu.
  unfold deletion_step. rewrite Hin. cbn [negb].
  now destruct (own_key key objA), (ignored context key).
Qed.

Lemma inherited_key_hidden_witness :
  exists adds dels upds,
    empty_result = result_maps adds dels upds /\
    obj_get "toString" adds = None /\ obj_get "toString" dels = None /\
    obj_get "toString" upds = None.
Proof.
  apply (inherited_key_hidden (RT := Host.decimal_host) 2 1 2
           [("toString", VNum (num 1))] [] (initial_context no_options)
           empty_result "toString");
    reflexivity.
Defined.

(** X24. The two directions differ on an inherited name:
    [diff({toString: 1}, {})] is empty, and [diff({}, {toString: 1})] has
    the one entry [updates.toString = {from, to: 1}], where [from] is the
    method that the empty object inherits. *)
Example inherited_name_one_way :
  diff (RT := Host.decimal_host) (VObj 1 [("toString", VNum (num 1))]) (VObj 2 [])
    no_options
  = Some empty_result /\
  diff (RT := Host.decimal_host) (VObj 2 []) (VObj 1 [("toString", VNum (num 1))])
    no_options
  = Some (result_maps [] []
            [("toString",
              DFromTo (prop (RT := Host.decimal_host) [] "toString")
                      (VNum (num 1)))]) /\
  typeof (prop (RT := Host.decimal_host) [] "toString") = TFunction.
Proof. repeat split; vm_compute; reflexivity. Qed.
